(** * Verification of the content-addressed media store

    A shallow embedding of the Go sources of the blob repository, the media
    service and the image service, together with the properties that the
    specification states about them.

    Conventions of the embedding:
    - a Go [string] is a Rocq [string] (a sequence of 8-bit characters);
    - a Go [[]byte] is a [list byte]; where the code distinguishes the nil
      slice from an empty one, the slice is an [option (list byte)];
    - a Go [int] / [int64] is a [Z], with the 64-bit wrap-around written out
      where the code can overflow;
    - a Go [error] is a value of type [error] below, [None] standing for
      [nil] in results of type [option error];
    - a map is a stdpp [gmap]. *)

From Stdlib Require Import ZArith List Ascii String Strings.Byte Lia Bool.
From Stdlib Require Import Reals Lra.
From Stdlib Require SpecFloat.
From stdpp Require Import base gmap strings list pretty.

Local Open Scope string_scope.
Local Open Scope Z_scope.

(** ** Go strings and byte slices *)

Module gostr.

(** [[]byte(s)] and [string(b)]. *)
Definition bytes_of (s : string) : list byte := list_byte_of_string s.
Definition of_bytes (b : list byte) : string := string_of_list_byte b.

(** [int(b)] for a byte [b]. *)
Definition byte_val (b : byte) : Z := Z.of_N (Byte.to_N b).

(** [len(s)]. *)
Definition len (s : string) : Z := Z.of_nat (String.length s).

(** [s[i]]; the index is in range at every use below. *)
Definition at_ (s : string) (i : Z) : ascii :=
  match String.get (Z.to_nat i) s with
  | Some c => c
  | None => Ascii.zero
  end.

(** [s[i:j]]. *)
Definition slice (s : string) (i j : Z) : string :=
  String.substring (Z.to_nat i) (Z.to_nat (j - i)) s.

Fixpoint map (f : ascii -> ascii) (s : string) : string :=
  match s with
  | EmptyString => EmptyString
  | String c s' => String (f c) (map f s')
  end.

Fixpoint all (p : ascii -> bool) (s : string) : bool :=
  match s with
  | EmptyString => true
  | String c s' => p c && all p s'
  end.

Fixpoint repeat (c : ascii) (n : nat) : string :=
  match n with
  | O => EmptyString
  | S n' => String c (repeat c n')
  end.

Definition is_upper (c : ascii) : bool :=
  let n := N_of_ascii c in (65 <=? n)%N && (n <=? 90)%N.
Definition is_lower (c : ascii) : bool :=
  let n := N_of_ascii c in (97 <=? n)%N && (n <=? 122)%N.

Definition lower_char (c : ascii) : ascii :=
  if is_upper c then ascii_of_N (N_of_ascii c + 32) else c.
Definition upper_char (c : ascii) : ascii :=
  if is_lower c then ascii_of_N (N_of_ascii c - 32) else c.

(** [strings.ToLower] and [strings.ToUpper].  Go maps every Unicode letter;
    on ASCII text, which is what the identifiers, file extensions and
    Crockford strings of this program are, it takes a byte-wise path and
    changes exactly the letters A-Z (a-z).  The model is that path: bytes
    outside the ASCII letters are left as they are. *)
Definition ToLower (s : string) : string := map lower_char s.
Definition ToUpper (s : string) : string := map upper_char s.

(** [strings.ReplaceAll s old new] for a non-empty [old]: the
    non-overlapping occurrences of [old] are replaced from left to right.
    [skip] counts the characters of a matched occurrence still to drop. *)
Fixpoint replace_from (skip : nat) (old new s : string) : string :=
  match s with
  | EmptyString => EmptyString
  | String c s' =>
      match skip with
      | S k => replace_from k old new s'
      | O =>
          if String.prefix old s
          then new +:+ replace_from (String.length old - 1) old new s'
          else String c (replace_from O old new s')
      end
  end.

Definition ReplaceAll (s old new : string) : string :=
  replace_from O old new s.

(** [strings.HasPrefix] / [bytes.HasPrefix] on byte slices. *)
Fixpoint has_prefix (b p : list byte) : bool :=
  match p, b with
  | [], _ => true
  | _ :: _, [] => false
  | x :: p', y :: b' => Byte.eqb x y && has_prefix b' p'
  end.

End gostr.

(** ** internal/util/encoding: Crockford Base32 *)

Module encoding.

Definition crockfordBase32Alphabet : string :=
  "0123456789ABCDEFGHJKMNPQRSTVWXYZ".

(** Go's [int] is 64 bits wide here; [accum] is shifted left without ever
    being masked, so it wraps. *)
Definition int_wrap (z : Z) : Z := (z + 2 ^ 63) mod 2 ^ 64 - 2 ^ 63.

(** State of the loops of [EncodeCrockfordB32LC]. *)
Record enc := Enc { result : string; bits : Z; accum : Z }.

Definition write_digit (st : enc) (v : Z) : string :=
  result st +:+ String (gostr.at_ crockfordBase32Alphabet (Z.land v 31)) "".

(** [for bits >= 5 { bits -= 5; result.WriteByte(alphabet[(accum>>bits)&0x1F]) }];
    every round lowers [bits] by five, so [fuel = bits] rounds are enough. *)
Fixpoint drain (fuel : nat) (st : enc) : enc :=
  match fuel with
  | O => st
  | S fuel' =>
      if 5 <=? bits st then
        let bits' := bits st - 5 in
        drain fuel'
          {| result := write_digit st (Z.shiftr (accum st) bits');
             bits := bits';
             accum := accum st |}
      else st
  end.

(** The body of [for _, b := range input]. *)
Definition feed (st : enc) (b : byte) : enc :=
  let accum' := int_wrap (Z.lor (int_wrap (Z.shiftl (accum st) 8)) (gostr.byte_val b)) in
  let bits' := bits st + 8 in
  drain (Z.to_nat bits') {| result := result st; bits := bits'; accum := accum' |}.

Definition flush (st : enc) : string :=
  if 0 <? bits st
  then write_digit st (int_wrap (Z.shiftl (accum st) (5 - bits st)))
  else result st.

Definition EncodeCrockfordB32LC (input : list byte) : string :=
  let st := fold_left feed input {| result := ""; bits := 0; accum := 0 |} in
  gostr.ToLower (flush st).

(** The [switch] of [NormalizeCrockfordB32LC] on one character. *)
Definition normalize_char (c : ascii) : ascii :=
  if Ascii.eqb c "O" then "0"%char
  else if Ascii.eqb c "I" then "1"%char
  else if Ascii.eqb c "L" then "1"%char
  else c.

(** The loop ranges over the runes of the upper-cased input and writes each
    back; on ASCII text a rune is a byte. *)
Definition NormalizeCrockfordB32LC (input : string) : string :=
  let input := gostr.ReplaceAll input " " "" in
  let input := gostr.ToUpper input in
  gostr.ToLower (gostr.map normalize_char input).

End encoding.

(** ** crypto/sha256

    The digest of the Go standard library, written out after FIPS 180-4
    on 32-bit words held in [Z]. *)

Module sha256.

Definition w32 (x : Z) : Z := x mod 2 ^ 32.
Definition add32 (x y : Z) : Z := w32 (x + y).
Definition not32 (x : Z) : Z := Z.lxor x (2 ^ 32 - 1).
Definition rotr (n x : Z) : Z :=
  Z.lor (Z.shiftr x n) (w32 (Z.shiftl x (32 - n))).

Definition Ch (x y z : Z) : Z :=
  Z.lxor (Z.land x y) (Z.land (not32 x) z).
Definition Maj (x y z : Z) : Z :=
  Z.lxor (Z.lxor (Z.land x y) (Z.land x z)) (Z.land y z).
Definition bsig0 (x : Z) : Z :=
  Z.lxor (Z.lxor (rotr 2 x) (rotr 13 x)) (rotr 22 x).
Definition bsig1 (x : Z) : Z :=
  Z.lxor (Z.lxor (rotr 6 x) (rotr 11 x)) (rotr 25 x).
Definition ssig0 (x : Z) : Z :=
  Z.lxor (Z.lxor (rotr 7 x) (rotr 18 x)) (Z.shiftr x 3).
Definition ssig1 (x : Z) : Z :=
  Z.lxor (Z.lxor (rotr 17 x) (rotr 19 x)) (Z.shiftr x 10).

(** The first [n] primes at or above [k], by trial division. *)
Definition is_prime (p : Z) : bool :=
  forallb (fun d => negb (p mod Z.of_nat d =? 0)) (seq 2 (Z.to_nat p - 2)).

Fixpoint primes_from (fuel n : nat) (k : Z) : list Z :=
  match fuel, n with
  | S fuel', S n' =>
      if is_prime k then k :: primes_from fuel' n' (k + 1)
      else primes_from fuel' n (k + 1)
  | _, _ => []
  end.

(** The integer part of the cube root of [x], one bit at a time from bit
    [nbits - 1] down. *)
Fixpoint icbrt (nbits : nat) (x r : Z) : Z :=
  match nbits with
  | O => r
  | S n' =>
      let r' := r + 2 ^ Z.of_nat n' in
      icbrt n' x (if r' * r' * r' <=? x then r' else r)
  end.

(** The round constants: the first 32 bits of the fractional parts of the
    cube roots of the first 64 primes. *)
Definition K : list Z :=
  Eval vm_compute in
    List.map (fun p => w32 (icbrt 40 (p * 2 ^ 96) 0)) (primes_from 400 64 2).

(** The initial hash value: the same of the square roots of the first 8
    primes. *)
Definition H0 : list Z :=
  Eval vm_compute in
    List.map (fun p => w32 (Z.sqrt (p * 2 ^ 64))) (primes_from 400 8 2).

(** Big-endian bytes of the low [n] bytes of [x]. *)
Fixpoint be_bytes (n : nat) (x : Z) : list Z :=
  match n with
  | O => []
  | S n' => Z.land (Z.shiftr x (8 * Z.of_nat n')) 255 :: be_bytes n' x
  end.

(** The message followed by 0x80, zeros up to 56 mod 64, and the bit
    length on eight bytes. *)
Definition pad (msg : list Z) : list Z :=
  let l := Z.of_nat (length msg) in
  let zeros := Z.to_nat ((55 - l) mod 64) in
  msg ++ 128 :: List.repeat 0 zeros ++ be_bytes 8 (8 * l).

(** Sixteen 32-bit words of a 64-byte block. *)
Fixpoint words (n : nat) (b : list Z) : list Z :=
  match n, b with
  | S n', b0 :: b1 :: b2 :: b3 :: rest =>
      (Z.shiftl b0 24 + Z.shiftl b1 16 + Z.shiftl b2 8 + b3) :: words n' rest
  | _, _ => []
  end.

(** The message schedule: [w] holds the words so far, the newest first. *)
Fixpoint schedule (n : nat) (w : list Z) : list Z :=
  match n with
  | O => w
  | S n' =>
      let wt :=
        add32 (add32 (ssig1 (nth 1 w 0)) (nth 6 w 0))
              (add32 (ssig0 (nth 14 w 0)) (nth 15 w 0)) in
      schedule n' (wt :: w)
  end.

Record regs := Regs { ra : Z; rb : Z; rc : Z; rd : Z; re : Z; rf : Z; rg : Z; rh : Z }.

Definition round (r : regs) (kw : Z * Z) : regs :=
  let t1 := add32 (add32 (add32 (rh r) (bsig1 (re r))) (Ch (re r) (rf r) (rg r)))
                  (add32 (fst kw) (snd kw)) in
  let t2 := add32 (bsig0 (ra r)) (Maj (ra r) (rb r) (rc r)) in
  {| ra := add32 t1 t2; rb := ra r; rc := rb r; rd := rc r;
     re := add32 (rd r) t1; rf := re r; rg := rf r; rh := rg r |}.

Definition regs_of (h : list Z) : regs :=
  {| ra := nth 0 h 0; rb := nth 1 h 0; rc := nth 2 h 0; rd := nth 3 h 0;
     re := nth 4 h 0; rf := nth 5 h 0; rg := nth 6 h 0; rh := nth 7 h 0 |}.

Definition compress (h : list Z) (block : list Z) : list Z :=
  let w := rev (schedule 48 (rev (words 16 block))) in
  let r := fold_left round (combine K w) (regs_of h) in
  zip_with add32 h [ra r; rb r; rc r; rd r; re r; rf r; rg r; rh r].

Fixpoint blocks (n : nat) (h : list Z) (m : list Z) : list Z :=
  match n with
  | O => h
  | S n' => blocks n' (compress h (firstn 64 m)) (skipn 64 m)
  end.

Definition digest (msg : list Z) : list Z :=
  let m := pad msg in
  let h := blocks (length m / 64)%nat H0 m in
  flat_map (be_bytes 4) h.

Definition byte_of_Z (z : Z) : byte :=
  match Byte.of_N (Z.to_N z) with
  | Some b => b
  | None => x00
  end.

(** [sha256.Sum256]: the 32-byte digest of a byte sequence. *)
Definition Sum256 (data : list byte) : list byte :=
  List.map byte_of_Z (digest (List.map gostr.byte_val data)).

(** The running hash of [sha256.New()], as [hash.Hash] presents it: it
    holds what was written since the last [Reset], and [Sum(nil)] is the
    digest of that, leaving the state as it is. *)
Record Hash := { written : list byte }.

Definition New : Hash := {| written := [] |}.
Definition Write (h : Hash) (p : list byte) : Hash :=
  {| written := written h ++ p |}.
Definition Sum (h : Hash) : list byte := Sum256 (written h).
Definition Reset (h : Hash) : Hash := {| written := [] |}.

End sha256.

(** ** Errors

    The sentinel errors of the packages, and [fmt.Errorf] with a [%w] verb,
    which wraps an error under a format string and keeps it reachable for
    [errors.Is]. *)

Module errors.

Inductive error : Type :=
| ErrMediaTooLarge          (* domain *)
| ErrUnauthorized           (* domain *)
| ErrImageTypeNotSupported  (* domain *)
| ErrImageTypeMismatch      (* domain *)
| ErrImageTooLarge          (* domain *)
| ErrNotExist               (* os: the file does not exist *)
| ErrSyntax                 (* encoding/json: the bytes do not decode *)
| Errorf (format : string) (wrapped : error).

(** The error at the end of the [%w] chain. *)
Fixpoint cause (e : error) : error :=
  match e with
  | Errorf _ e' => cause e'
  | _ => e
  end.

(** [errors.Is(e, target)] for a sentinel [target]. *)
Definition Is (e target : error) : Prop := cause e = target.

End errors.

Import errors.

(** ** internal/domain *)

Module domain.

Abbreviation BlobID := string.
Abbreviation MediaID := BlobID.

(** A byte slice whose nil-ness the code observes: [None] is the nil
    slice, [Some b] a slice (possibly empty) with the bytes [b]. *)
Definition slice := option (list byte).

Definition bytes_of_slice (s : slice) : list byte :=
  match s with
  | Some b => b
  | None => []
  end.

Record Blob := NewBlob { ID : BlobID; Body : list byte }.

Definition Blob_Size (b : Blob) : Z := Z.of_nat (length (Body b)).
Definition Blob_Bytes (b : Blob) : list byte := Body b.

Record MediaMeta := {
  Filename : string;
  MetaID : MediaID;
  Hash : string;
  Size : Z;
  Owner : string;
  MIMEType : string
}.

(** [encoding/json] on [MediaMeta].  [json.Marshal] cannot fail on a
    struct of strings and an integer, so it is total here; the two
    functions are the library's and are left abstract. *)
Class JSON := {
  json_Marshal : MediaMeta -> list byte;
  json_Unmarshal : list byte -> option MediaMeta
}.

(** [NewMediaMetaFromBlob]. *)
Definition NewMediaMetaFromBlob `{JSON} (blob : Blob) : MediaMeta + error :=
  match json_Unmarshal (Blob_Bytes blob) with
  | Some imgMeta => inl imgMeta
  | None => inr (Errorf "unmarshal metadata: %w" ErrSyntax)
  end.

(** [MediaMeta.update]: one hasher serves both digests, reset in between. *)
Definition update (imgMeta : MediaMeta) (data : list byte) : MediaMeta :=
  let hasher := sha256.New in
  let hasher := sha256.Write hasher data in
  let hash := encoding.EncodeCrockfordB32LC (sha256.Sum hasher) in
  let size := Z.of_nat (length data) in
  let hasher := sha256.Reset hasher in
  let hasher := sha256.Write hasher (gostr.bytes_of hash) in
  let hasher := sha256.Write hasher (gostr.bytes_of (Filename imgMeta)) in
  let hasher := sha256.Write hasher (gostr.bytes_of (MIMEType imgMeta)) in
  let hasher := sha256.Write hasher (gostr.bytes_of (Owner imgMeta)) in
  {| Filename := Filename imgMeta;
     MetaID := encoding.EncodeCrockfordB32LC (sha256.Sum hasher);
     Hash := hash;
     Size := size;
     Owner := Owner imgMeta;
     MIMEType := MIMEType imgMeta |}.

(** [MediaMeta.AsBlob]. *)
Definition Meta_AsBlob `{JSON} (imgMeta : MediaMeta) : Blob :=
  NewBlob (MetaID imgMeta) (json_Marshal imgMeta).

Record Media := { data : slice; meta : MediaMeta }.

Definition NewMedia (data : slice) (meta : MediaMeta) : Media :=
  {| data := data; meta := update meta (bytes_of_slice data) |}.

Definition Media_ID (m : Media) : MediaID := MetaID (meta m).
Definition Media_Hash (m : Media) : string := Hash (meta m).
Definition Media_Meta (m : Media) : MediaMeta := meta m.
Definition Media_MIMEType (m : Media) : string := MIMEType (meta m).
Definition Media_Owner (m : Media) : string := Owner (meta m).
Definition Media_Bytes (m : Media) : slice := data m.
Definition Media_Size (m : Media) : Z :=
  Z.of_nat (length (bytes_of_slice (data m))).

(** [Media.AsBlob]: the content under its hash. *)
Definition Media_AsBlob (m : Media) : Blob :=
  NewBlob (Hash (meta m)) (bytes_of_slice (data m)).

End domain.

Import domain.

(** ** internal/infra/context *)

Module context_.

(** The request context, as far as the services read it: the value under
    the username key, if there is one. *)
Record Context := { username : option string }.

Definition Background : Context := {| username := None |}.

Definition WithUsername (ctx : Context) (name : string) : Context :=
  {| username := Some name |}.

Definition UsernameFromContext (ctx : Context) : string * bool :=
  match username ctx with
  | Some name => (name, true)
  | None => ("", false)
  end.

End context_.

(** ** path/filepath *)

Module filepath.

(** The elements of a path between separators. *)
Fixpoint split (s : string) : list string :=
  match s with
  | EmptyString => [EmptyString]
  | String c s' =>
      if Ascii.eqb c "/" then EmptyString :: split s'
      else match split s' with
           | cur :: rest => String c cur :: rest
           | [] => [String c EmptyString]
           end
  end.

Fixpoint join_with (sep : string) (elems : list string) : string :=
  match elems with
  | [] => ""
  | [e] => e
  | e :: rest => e +:+ sep +:+ join_with sep rest
  end.

(** One element of the lexical walk of [Clean]: [out] is the stack of the
    elements kept so far, the last one first. *)
Definition clean_step (rooted : bool) (out : list string) (e : string) : list string :=
  if String.eqb e "" || String.eqb e "." then out
  else if String.eqb e ".." then
    match out with
    | top :: below => if String.eqb top ".." then e :: out else below
    | [] => if rooted then out else [e]
    end
  else e :: out.

(** [filepath.Clean]: empty and [.] elements go, [..] removes the element
    before it, a path that comes out empty is [.]. *)
Definition Clean (path : string) : string :=
  if String.eqb path "" then "."
  else
    let rooted := String.prefix "/" path in
    let out := rev (fold_left (clean_step rooted) (split path) []) in
    let body := join_with "/" out in
    if rooted then "/" +:+ body
    else if String.eqb body "" then "." else body.

(** [filepath.Join]: the non-empty elements joined by the separator, then
    cleaned; the empty string when there is none. *)
Definition Join (elems : list string) : string :=
  match List.filter (fun e => negb (String.eqb e "")) elems with
  | [] => ""
  | nonempty => Clean (join_with "/" nonempty)
  end.

Definition ext_step (cur : option string) (c : ascii) : option string :=
  if Ascii.eqb c "/" then None
  else if Ascii.eqb c "." then Some "."
  else option_map (fun e => e +:+ String c "") cur.

(** [filepath.Ext]: the suffix from the last dot of the last element of
    the path, empty when that element has no dot. *)
Definition Ext (path : string) : string :=
  match fold_left ext_step (list_ascii_of_string path) None with
  | Some e => e
  | None => ""
  end.

End filepath.

(** ** internal/repo/blob *)

Module blob.

Definition dirPrefixLength : Z := 2.
Definition dirPrefixDepth : Z := 3.
Definition idMinLength : Z := dirPrefixDepth * dirPrefixLength.

Record FileSystemBlobRepositoryConfig := { Basedir : string }.

(** The fields of [FileSystemRepository] that name files. *)
Record FileSystemRepository := {
  subdir : string;
  ext : string;
  cfg : FileSystemBlobRepositoryConfig
}.

(** [fmt.Sprintf("%*s", width, s)]: [s] padded with spaces on the left up
    to [width] characters. *)
Definition Sprintf_pad (width : Z) (s : string) : string :=
  gostr.repeat " " (Z.to_nat (width - gostr.len s)) +:+ s.

(** [for i := 0; i < dirPrefixLength*dirPrefixDepth && i < len(basename)-dirPrefixLength;
         i += dirPrefixLength { prefixes = append(prefixes, basename[i:i+dirPrefixLength]) }]. *)
Fixpoint prefixes_from (fuel : nat) (basename : string) (i : Z) : list string :=
  match fuel with
  | O => []
  | S fuel' =>
      if (i <? dirPrefixLength * dirPrefixDepth)
         && (i <? gostr.len basename - dirPrefixLength)
      then gostr.slice basename i (i + dirPrefixLength)
             :: prefixes_from fuel' basename (i + dirPrefixLength)
      else []
  end.

(** The padded name of a blob: slashes removed, zeros on the left. *)
Definition padded (id : BlobID) : string :=
  let basename := gostr.ReplaceAll id "/" "" in
  gostr.ReplaceAll (Sprintf_pad idMinLength basename) " " "0".

(** The directory prefixes that [getBasename] cuts from the padded name;
    the loop runs at most [dirPrefixDepth] times. *)
Definition prefixes (basename : string) : list string :=
  prefixes_from (Z.to_nat dirPrefixDepth) basename 0.

Definition getBasename (fsRepo : FileSystemRepository) (id : BlobID) : string :=
  let basename := padded id in
  filepath.Join ([Basedir (cfg fsRepo); subdir fsRepo] ++ prefixes basename ++ [basename]).

(** [GetFilename]: [fmt.Sprintf("%s.%s", getBasename(id), ext)]. *)
Definition GetFilename (fsRepo : FileSystemRepository) (id : BlobID) : string :=
  getBasename fsRepo id +:+ "." +:+ ext fsRepo.

(** *** The repository contract

    The services see a repository through [Exists], [Store], [Fetch] and
    [Delete].  Its state is the finite map from the id of a stored blob to
    its body.  Results are those of the filesystem driver on a disk that
    does not fail: [Store] overwrites, [Fetch] and [Delete] of an absent
    blob report that the file does not exist.  [Lock] takes an advisory
    lock on a side file; without concurrency it succeeds and changes no
    blob, so it does not appear. *)
Abbreviation Repository := (gmap string (list byte)).

Definition Exists (repo : Repository) (id : BlobID) : bool :=
  match repo !! id with
  | Some _ => true
  | None => false
  end.

Definition Store (repo : Repository) (blob : Blob) : Repository * option error :=
  (<[ID blob := Body blob]> repo, None).

Definition Fetch (repo : Repository) (id : BlobID) : Blob + error :=
  match repo !! id with
  | Some body => inl (NewBlob id body)
  | None => inr (Errorf "fetch blob: %w" (Errorf "open: %w" ErrNotExist))
  end.

Definition Delete (repo : Repository) (id : BlobID) : Repository * option error :=
  match repo !! id with
  | Some _ => (delete id repo, None)
  | None => (repo, Some (Errorf "delete blob: %w" (Errorf "remove: %w" ErrNotExist)))
  end.

End blob.

(** ** package bytes *)

Module bytes.

Definition newline : byte := x0a.

(** [bytes.Split(s, []byte("\n"))]: the pieces between newlines; a body
    without a newline, the empty one included, is one piece. *)
Fixpoint Split (s : list byte) : list (list byte) :=
  match s with
  | [] => [[]]
  | c :: s' =>
      if Byte.eqb c newline then [] :: Split s'
      else match Split s' with
           | cur :: rest => (c :: cur) :: rest
           | [] => [[c]]
           end
  end.

(** [bytes.Join(parts, []byte("\n"))]. *)
Fixpoint Join (parts : list (list byte)) : list byte :=
  match parts with
  | [] => []
  | [p] => p
  | p :: rest => p ++ newline :: Join rest
  end.

End bytes.

(** ** internal/svc/mediasvc *)

Module mediasvc.

Record MediaConfig := { MaxSize : Z }.

(** The service with the state of its three repositories. *)
Record BlobMediaService := {
  dataRepo : blob.Repository;
  metaRepo : blob.Repository;
  backrefRepo : blob.Repository;
  cfg : MediaConfig
}.

Definition with_data (svc : BlobMediaService) (r : blob.Repository) :=
  {| dataRepo := r; metaRepo := metaRepo svc;
     backrefRepo := backrefRepo svc; cfg := cfg svc |}.
Definition with_meta (svc : BlobMediaService) (r : blob.Repository) :=
  {| dataRepo := dataRepo svc; metaRepo := r;
     backrefRepo := backrefRepo svc; cfg := cfg svc |}.
Definition with_backref (svc : BlobMediaService) (r : blob.Repository) :=
  {| dataRepo := dataRepo svc; metaRepo := metaRepo svc;
     backrefRepo := r; cfg := cfg svc |}.

(** [NewBlobMediaService] on empty repositories. *)
Definition NewBlobMediaService (cfg : MediaConfig) : BlobMediaService :=
  {| dataRepo := ∅; metaRepo := ∅; backrefRepo := ∅; cfg := cfg |}.

Definition Svc_MaxSize (mediaSvc : BlobMediaService) : Z := MaxSize (cfg mediaSvc).

Section WithJSON.
Context `{JSON}.

Definition fetchMeta (mediaSvc : BlobMediaService) (mediaID : MediaID)
  : MediaMeta + error :=
  match blob.Fetch (metaRepo mediaSvc) mediaID with
  | inr err => inr (Errorf "fetch meta: %w" err)
  | inl metaBlob =>
      match NewMediaMetaFromBlob metaBlob with
      | inr err => inr (Errorf "convert meta blob: %w" err)
      | inl mediaMeta => inl mediaMeta
      end
  end.

(** An absent backref blob gives the nil list. *)
Definition fetchBackrefs (mediaSvc : BlobMediaService) (blobID : BlobID)
  : list BlobID * option error :=
  if negb (blob.Exists (backrefRepo mediaSvc) blobID) then ([], None)
  else
    match blob.Fetch (backrefRepo mediaSvc) blobID with
    | inr err => ([], Some (Errorf "fetch backref: %w" err))
    | inl backrefBlob =>
        (List.map gostr.of_bytes (bytes.Split (Blob_Bytes backrefBlob)), None)
    end.

Definition storeBackrefs (mediaSvc : BlobMediaService) (blobID : BlobID)
    (backrefs : list BlobID) : BlobMediaService * option error :=
  let backrefBytes := List.map gostr.bytes_of backrefs in
  let backrefBlob := NewBlob blobID (bytes.Join backrefBytes) in
  match blob.Store (backrefRepo mediaSvc) backrefBlob with
  | (repo, Some err) => (with_backref mediaSvc repo, Some (Errorf "store backref: %w" err))
  | (repo, None) => (with_backref mediaSvc repo, None)
  end.

Definition addBackrefs (mediaSvc : BlobMediaService) (dataID : BlobID)
    (metaIDs : list BlobID) : BlobMediaService * option error :=
  match fetchBackrefs mediaSvc dataID with
  | (_, Some err) => (mediaSvc, Some (Errorf "fetch backrefs: %w" err))
  | (backrefs, None) =>
      let backrefs := (backrefs ++ metaIDs)%list in
      match storeBackrefs mediaSvc dataID backrefs with
      | (svc, Some err) => (svc, Some (Errorf "store backrefs: %w" err))
      | (svc, None) => (svc, None)
      end
  end.

(** [slices.DeleteFunc] with the comparison of [pruneMedia]. *)
Definition drop_id (id : BlobID) (backrefs : list BlobID) : list BlobID :=
  List.filter (fun v => negb (String.eqb v id)) backrefs.

Definition pruneMedia (mediaSvc : BlobMediaService) (mediaMeta : MediaMeta)
  : BlobMediaService * (bool * option error) :=
  match fetchBackrefs mediaSvc (Hash mediaMeta) with
  | (_, Some err) => (mediaSvc, (false, Some (Errorf "fetch backrefs: %w" err)))
  | (backrefs, None) =>
      let backrefs := drop_id (MetaID mediaMeta) backrefs in
      let dataID := Hash mediaMeta in
      if (length backrefs =? 0)%nat then
        match blob.Delete (dataRepo mediaSvc) dataID with
        | (_, Some err) => (mediaSvc, (false, Some (Errorf "delete data: %w" err)))
        | (repo, None) =>
            let mediaSvc := with_data mediaSvc repo in
            match blob.Delete (backrefRepo mediaSvc) dataID with
            | (_, Some err) => (mediaSvc, (false, Some (Errorf "delete backrefs: %w" err)))
            | (repo, None) => (with_backref mediaSvc repo, (true, None))
            end
        end
      else
        match storeBackrefs mediaSvc (Hash mediaMeta) backrefs with
        | (svc, Some err) => (svc, (false, Some (Errorf "store backrefs: %w" err)))
        | (svc, None) => (svc, (false, None))
        end
  end.

(** [BlobMediaService.Store]. *)
Definition Store (mediaSvc : BlobMediaService) (media : Media)
  : BlobMediaService * option error :=
  if Svc_MaxSize mediaSvc <? Media_Size media then
    (mediaSvc, Some (Errorf "%w: %d exceeds %d" ErrMediaTooLarge))
  else
    (* lock meta blob, lock data blob *)
    let metaBlob := Meta_AsBlob (Media_Meta media) in
    let dataBlob := Media_AsBlob media in
    (* store data *)
    let stored :=
      if negb (blob.Exists (dataRepo mediaSvc) (ID dataBlob))
      then blob.Store (dataRepo mediaSvc) dataBlob
      else (dataRepo mediaSvc, None) in
    match stored with
    | (repo, Some err) => (with_data mediaSvc repo, Some (Errorf "store data: %w" err))
    | (repo, None) =>
        let mediaSvc := with_data mediaSvc repo in
        (* store meta and add backrefs *)
        if negb (blob.Exists (metaRepo mediaSvc) (ID metaBlob)) then
          match blob.Store (metaRepo mediaSvc) metaBlob with
          | (repo, Some err) =>
              (with_meta mediaSvc repo, Some (Errorf "store meta: %w" err))
          | (repo, None) =>
              let mediaSvc := with_meta mediaSvc repo in
              match addBackrefs mediaSvc (ID dataBlob) [ID metaBlob] with
              | (svc, Some err) => (svc, Some (Errorf "add backrefs: %w" err))
              | (svc, None) => (svc, None)
              end
          end
        else (mediaSvc, None)
    end.

(** [BlobMediaService.Delete]: the result is [(prune, dataID, err)]. *)
Definition Delete (mediaSvc : BlobMediaService) (ctx : context_.Context)
    (mediaID : MediaID) : BlobMediaService * (bool * BlobID * option error) :=
  (* lock meta blob *)
  match fetchMeta mediaSvc mediaID with
  | inr err => (mediaSvc, (false, "", Some (Errorf "fetch meta: %w" err)))
  | inl mediaMeta =>
      let dataID := Hash mediaMeta in
      (* authorize access *)
      let '(username, ok) := context_.UsernameFromContext ctx in
      if negb ok || negb (String.eqb username (Owner mediaMeta)) then
        (mediaSvc, (false, "",
           Some (Errorf "%w: user %q is not owner %q" ErrUnauthorized)))
      else
        (* lock data blob; update backrefs or delete blob *)
        match pruneMedia mediaSvc mediaMeta with
        | (svc, (_, Some err)) =>
            (svc, (false, dataID, Some (Errorf "prune media: %w" err)))
        | (svc, (pruned, None)) =>
            (* delete meta *)
            match blob.Delete (metaRepo svc) mediaID with
            | (repo, Some err) =>
                (with_meta svc repo, (pruned, dataID, Some (Errorf "delete meta: %w" err)))
            | (repo, None) => (with_meta svc repo, (pruned, dataID, None))
            end
        end
  end.

(** [BlobMediaService.Fetch]. *)
Definition Fetch (mediaSvc : BlobMediaService) (ctx : context_.Context)
    (mediaID : MediaID) : Media + error :=
  (* lock meta blob *)
  match blob.Fetch (metaRepo mediaSvc) mediaID with
  | inr err => inr (Errorf "fetch meta: %w" err)
  | inl metaBlob =>
      match NewMediaMetaFromBlob metaBlob with
      | inr err => inr (Errorf "convert meta blob: %w" err)
      | inl mediaMeta =>
          (* authorize access *)
          let '(username, ok) := context_.UsernameFromContext ctx in
          if negb ok || negb (String.eqb username (Owner mediaMeta)) then
            inr (Errorf "%w: user %q is not owner %q" ErrUnauthorized)
          else
            (* lock data blob *)
            match blob.Fetch (dataRepo mediaSvc) (Hash mediaMeta) with
            | inr err => inr (Errorf "fetch data: %w" err)
            | inl dataBlob => inl (NewMedia (Some (Blob_Bytes dataBlob)) mediaMeta)
            end
      end
  end.

End WithJSON.

End mediasvc.

(** ** float64

    The values of IEEE-754 binary64 that the resize step can meet: finite,
    not negative, far from overflow and from the subnormal range, since they
    come from products and quotients of integers below 2^63.  A value is
    [man * 2^exp]; every operation rounds its exact result to 53 significant
    bits, to nearest, ties to even. *)

Module float64.

Record t := F { man : Z; exp : Z }.

(** The integer part of the binary logarithm of [p/q], for positive [p]
    and [q]. *)
Definition ilog2_ratio (p q : Z) : Z :=
  let k := Z.log2 p - Z.log2 q in
  if q * 2 ^ Z.max 0 k <=? p * 2 ^ Z.max 0 (- k) then k else k - 1.

(** The binary64 nearest to the rational [p/q] ([0 <= p], [0 < q]). *)
Definition round (p q : Z) : t :=
  if p <=? 0 then F 0 0
  else
    let e := ilog2_ratio p q - 52 in
    let num := p * 2 ^ Z.max 0 (- e) in
    let den := q * 2 ^ Z.max 0 e in
    let m := num / den in
    let r := num mod den in
    let m' :=
      if 2 * r <? den then m
      else if den <? 2 * r then m + 1
      else if Z.even m then m else m + 1 in
    F m' e.

(** [float64(n)] for an integer [n >= 0]. *)
Definition of_int (n : Z) : t := round n 1.

(** [x / y], for [y] positive. *)
Definition div (x y : t) : t :=
  let d := exp x - exp y in
  round (man x * 2 ^ Z.max 0 d) (man y * 2 ^ Z.max 0 (- d)).

(** [x * y]. *)
Definition mul (x y : t) : t :=
  let e := exp x + exp y in
  round (man x * man y * 2 ^ Z.max 0 e) (2 ^ Z.max 0 (- e)).

(** [int(x)]: the fraction is discarded. *)
Definition to_int (x : t) : Z :=
  if 0 <=? exp x then man x * 2 ^ exp x else man x / 2 ^ (- exp x).

End float64.

(** ** package image: rectangles *)

Module image.

Record Point := { X : Z; Y : Z }.
Record Rectangle := { Min : Point; Max : Point }.

(** [image.Rect]: the corners are put in order. *)
Definition Rect (x0 y0 x1 y1 : Z) : Rectangle :=
  let '(x0, x1) := if x1 <? x0 then (x1, x0) else (x0, x1) in
  let '(y0, y1) := if y1 <? y0 then (y1, y0) else (y0, y1) in
  {| Min := {| X := x0; Y := y0 |}; Max := {| X := x1; Y := y1 |} |}.

Definition Dx (r : Rectangle) : Z := X (Max r) - X (Min r).
Definition Dy (r : Rectangle) : Z := Y (Max r) - Y (Min r).

End image.

(** ** internal/svc/imagesvc *)

Module imagesvc.

Definition MIMETypeJPEG : string := "image/jpeg".
Definition MIMETypePNG : string := "image/png".
Definition MIMETypeTIFF : string := "image/tiff".

(** The map [imageExtTypes]. *)
Definition imageExtTypes (ext : string) : option string :=
  if String.eqb ext ".jpg" then Some MIMETypeJPEG
  else if String.eqb ext ".jpeg" then Some MIMETypeJPEG
  else if String.eqb ext ".png" then Some MIMETypePNG
  else if String.eqb ext ".tiff" then Some MIMETypeTIFF
  else if String.eqb ext ".tif" then Some MIMETypeTIFF
  else None.

(** The map [imageExtHeaders]; a key that is absent gives the nil list. *)
Definition imageExtHeaders (mime : string) : list (list byte) :=
  if String.eqb mime MIMETypeJPEG then [[xff; xd8]]
  else if String.eqb mime MIMETypePNG then
    [[x89; x50; x4e; x47; x0d; x0a; x1a; x0a]]
  else if String.eqb mime MIMETypeTIFF then
    [[x49; x49; x2a; x00]; [x4d; x4d; x00; x2a]]
  else [].

Record BlobImageService := {
  cacheRepo : blob.Repository;
  mediaSvc : mediasvc.BlobMediaService
}.

Definition with_mediaSvc (imageSvc : BlobImageService)
    (svc : mediasvc.BlobMediaService) : BlobImageService :=
  {| cacheRepo := cacheRepo imageSvc; mediaSvc := svc |}.

Definition Img_MaxSize (imageSvc : BlobImageService) : Z :=
  mediasvc.Svc_MaxSize (mediaSvc imageSvc).

(** [CheckUploadConstraints]: the result is [(imageType, ok, err)]. *)
Definition CheckUploadConstraints (imageSvc : BlobImageService)
    (filename : string) (size : Z) (image : slice) : string * bool * option error :=
  if Img_MaxSize imageSvc <? size then ("", false, Some ErrImageTooLarge)
  else
    let filenameExt := gostr.ToLower (filepath.Ext filename) in
    match imageExtTypes filenameExt with
    | None => ("", false, Some (Errorf "%w: %q" ErrImageTypeNotSupported))
    | Some imageType =>
        match image with
        | None => ("", true, None)
        | Some body =>
            if existsb (gostr.has_prefix body) (imageExtHeaders imageType)
            then (imageType, true, None)
            else ("", false, Some (Errorf "%w: %q" ErrImageTypeMismatch))
        end
    end.

(** [BlobImageService.Store]. *)
Definition Store `{JSON} (imageSvc : BlobImageService) (image : Media)
  : BlobImageService * option error :=
  match CheckUploadConstraints imageSvc
          (Filename (Media_Meta image))
          (Z.of_nat (length (bytes_of_slice (Media_Bytes image))))
          (Media_Bytes image) with
  | (_, _, Some err) => (imageSvc, Some (Errorf "check upload constraints: %w" err))
  | (_, _, None) =>
      let '(svc, err) := mediasvc.Store (mediaSvc imageSvc) image in
      (with_mediaSvc imageSvc svc, err)
  end.

(** The resize step of [resizeImage], from the bounds of the decoded
    image to the bounds of the RGBA raster that is scaled into:
    [ratio := float64(width) / float64(original.Bounds().Dx())],
    [height := int(float64(original.Bounds().Dy()) * ratio)],
    [bitmap := image.NewRGBA(image.Rect(0, 0, width, height))]. *)
Definition resizeHeight (original : image.Rectangle) (width : Z) : Z :=
  let ratio := float64.div (float64.of_int width) (float64.of_int (image.Dx original)) in
  float64.to_int (float64.mul (float64.of_int (image.Dy original)) ratio).

Definition resizeBounds (original : image.Rectangle) (width : Z) : image.Rectangle :=
  image.Rect 0 0 width (resizeHeight original width).

(** The id of the cache blob of a resized image:
    [fmt.Sprintf("%s_%d", image.Hash(), width)]. *)
Definition cacheID (hash : string) (width : Z) : BlobID :=
  hash +:+ "_" +:+ pretty width.

Definition with_cacheRepo (imageSvc : BlobImageService)
    (repo : blob.Repository) : BlobImageService :=
  {| cacheRepo := repo; mediaSvc := mediaSvc imageSvc |}.

Section WithResize.
Context `{JSON}.

(** [resizeImage] decodes, scales and encodes with the image libraries;
    here it is any function from the bytes, the MIME type and the width to
    the new bytes or an error. *)
Variable resizeImage : list byte -> string -> Z -> slice + error.

(** [BlobImageService.Fetch]. *)
Definition Fetch (imageSvc : BlobImageService) (ctx : context_.Context)
    (imageID : MediaID) (width : Z) : BlobImageService * (Media + error) :=
  (* fetch image *)
  match mediasvc.Fetch (mediaSvc imageSvc) ctx imageID with
  | inr err => (imageSvc, inr (Errorf "fetch media: %w" err))
  | inl image =>
      if width =? 0 then (imageSvc, inl image)
      else
        (* try serve from cache *)
        let cacheID := cacheID (Media_Hash image) width in
        if blob.Exists (cacheRepo imageSvc) cacheID then
          match blob.Fetch (cacheRepo imageSvc) cacheID with
          | inr err => (imageSvc, inr (Errorf "fetch cache: %w" err))
          | inl cacheBlob =>
              (imageSvc, inl (NewMedia (Some (Blob_Bytes cacheBlob)) (Media_Meta image)))
          end
        else
          (* resize image *)
          match resizeImage (bytes_of_slice (Media_Bytes image))
                  (Media_MIMEType image) width with
          | inr err => (imageSvc, inr (Errorf "resize image: %w" err))
          | inl resized =>
              let resizedMedia := NewMedia resized (Media_Meta image) in
              (* update cache *)
              let cacheBlob :=
                NewBlob cacheID (bytes_of_slice (Media_Bytes resizedMedia)) in
              match blob.Store (cacheRepo imageSvc) cacheBlob with
              | (repo, Some err) =>
                  (with_cacheRepo imageSvc repo, inr (Errorf "store: %w" err))
              | (repo, None) => (with_cacheRepo imageSvc repo, inl resizedMedia)
              end
          end
  end.

End WithResize.

End imagesvc.

(** ** Vocabulary of the statements *)

Module spec.

(** The digits of an encoding: the Crockford alphabet in lower case. *)
Definition lc_alphabet : string := "0123456789abcdefghjkmnpqrstvwxyz".

Definition is_digit_of (alphabet : string) (c : ascii) : bool :=
  existsb (Ascii.eqb c) (list_ascii_of_string alphabet).
Definition is_uc_digit : ascii -> bool :=
  is_digit_of encoding.crockfordBase32Alphabet.
Definition is_lc_digit : ascii -> bool := is_digit_of lc_alphabet.

End spec.

Import spec.

(** ** Sample data for the worked instances *)

Module examples.

Definition dquote : string := String (ascii_of_nat 34) "".
Definition quoted (s : string) : string := dquote +:+ s +:+ dquote.

(** The JSON object of a meta, as [json.Marshal] writes it when no string
    needs an escape. *)
Definition plain_Marshal (m : MediaMeta) : list byte :=
  gostr.bytes_of
    ("{" +:+ quoted "filename" +:+ ":" +:+ quoted (Filename m) +:+ ","
         +:+ quoted "id" +:+ ":" +:+ quoted (MetaID m) +:+ ","
         +:+ quoted "hash" +:+ ":" +:+ quoted (Hash m) +:+ ","
         +:+ quoted "size" +:+ ":" +:+ pretty (Size m) +:+ ","
         +:+ quoted "owner" +:+ ":" +:+ quoted (Owner m) +:+ ","
         +:+ quoted "mimeType" +:+ ":" +:+ quoted (MIMEType m) +:+ "}").

Definition bytes_eqb (a b : list byte) : bool :=
  gostr.has_prefix a b && gostr.has_prefix b a.

(** Reads back the metas of a given list, and nothing else. *)
Definition table_Unmarshal (known : list MediaMeta) (b : list byte)
  : option MediaMeta :=
  List.find (fun m => bytes_eqb (plain_Marshal m) b) known.

Definition codec (known : list MediaMeta) : JSON :=
  {| json_Marshal := plain_Marshal; json_Unmarshal := table_Unmarshal known |}.

Definition upload (body filename mimeType owner : string) : Media :=
  NewMedia (Some (gostr.bytes_of body))
    {| Filename := filename; MetaID := ""; Hash := ""; Size := 0;
       Owner := owner; MIMEType := mimeType |}.

Definition alice_hello : Media := upload "hello" "hello.txt" "text/plain" "alice".
Definition bob_hello : Media := upload "hello" "hello.txt" "text/plain" "bob".
Definition nobody_hello : Media := upload "hello" "hello.txt" "text/plain" "".

Definition json : JSON :=
  codec [Media_Meta alice_hello; Media_Meta bob_hello; Media_Meta nobody_hello].

Definition as_user (name : string) : context_.Context :=
  context_.WithUsername context_.Background name.

Definition empty_svc : mediasvc.BlobMediaService :=
  mediasvc.NewBlobMediaService {| mediasvc.MaxSize := 1024 |}.

Definition store_all (medias : list Media) : mediasvc.BlobMediaService :=
  fold_left (fun svc m => fst (mediasvc.Store (H := json) svc m)) medias empty_svc.

End examples.

(** ** Vocabulary of the statements about the services *)

Module svcspec.

Import mediasvc.

(** The backref list at a content hash: what [fetchBackrefs] reads. *)
Definition backrefs_at `{JSON} (svc : BlobMediaService) (hash : BlobID) : list BlobID :=
  fst (fetchBackrefs svc hash).


(** The service after a [Store] that passed the size check. *)
Definition stored `{JSON} (svc : BlobMediaService) (m : Media) : BlobMediaService :=
  let hash := Media_Hash m in
  let id := Media_ID m in
  let fresh := negb (blob.Exists (metaRepo svc) id) in
  {| dataRepo :=
       if blob.Exists (dataRepo svc) hash then dataRepo svc
       else <[hash := bytes_of_slice (Media_Bytes m)]> (dataRepo svc);
     metaRepo :=
       if fresh then <[id := json_Marshal (Media_Meta m)]> (metaRepo svc)
       else metaRepo svc;
     backrefRepo :=
       if fresh
       then <[hash := bytes.Join (List.map gostr.bytes_of (backrefs_at svc hash ++ [id])%list)]>
              (backrefRepo svc)
       else backrefRepo svc;
     cfg := cfg svc |}.

(** The service after a [Delete] by the owner that left [kept] in the
    backref list. *)
Definition deleted (svc : BlobMediaService) (M : MediaMeta) (kept : list BlobID)
  : BlobMediaService :=
  let last := (length kept =? 0)%nat in
  {| dataRepo := if last then delete (Hash M) (dataRepo svc) else dataRepo svc;
     metaRepo := delete (MetaID M) (metaRepo svc);
     backrefRepo :=
       if last then delete (Hash M) (backrefRepo svc)
       else <[Hash M := bytes.Join (List.map gostr.bytes_of kept)]> (backrefRepo svc);
     cfg := cfg svc |}.

(** A blob has no line break. *)
Definition one_line (b : list byte) : bool :=
  forallb (fun c => negb (Byte.eqb c bytes.newline)) b.

End svcspec.

Import svcspec.

(** Sample uploads for the image service. *)

Module imgexamples.

(** A JPEG body under a PNG name. *)
Definition jpeg_magic : list byte := [xff; xd8; xff; xe0].

Definition named (filename : string) (body : slice) : Media :=
  NewMedia body
    {| Filename := filename; MetaID := ""; Hash := ""; Size := 0;
       Owner := "alice"; MIMEType := "" |}.

Definition service (maxSize : Z) : imagesvc.BlobImageService :=
  {| imagesvc.cacheRepo := ∅;
     imagesvc.mediaSvc := mediasvc.NewBlobMediaService {| mediasvc.MaxSize := maxSize |} |}.

End imgexamples.

(** The data repository of the media service under the default base
    directory. *)

Module fsexamples.

Definition data_repo : blob.FileSystemRepository :=
  {| blob.subdir := "data"; blob.ext := "bin";
     blob.cfg := {| blob.Basedir := "var/storage/blob" |} |}.

End fsexamples.

(** ** Vocabulary of the statements about the resize step *)

Module fpspec.

(** The real number that a binary64 value stands for. *)
Definition value (x : float64.t) : R :=
  (IZR (float64.man x) * powerRZ 2 (float64.exp x))%R.

(** The relative error of one rounding: half a unit in the last of 53
    bits. *)
Definition u : R := (/ 9007199254740992)%R.

(** [z] is an integer nearest to the quotient [p / q], [q] positive. *)
Definition nearest (p q z : Z) : Prop := Z.abs (2 * (z * q - p)) <= q.

End fpspec.

Import fpspec.

(** ** The resize step in the binary64 specification of the library

    The same three operations on [SpecFloat], the executable specification
    of IEEE-754 arithmetic that the standard library gives for its machine
    floats.  The model [float64] is compared with it on samples. *)

Module ieee754.

Definition of_int (n : Z) : SpecFloat.spec_float :=
  SpecFloat.binary_normalize 53 1024 n 0 false.

Definition to_int (f : SpecFloat.spec_float) : Z :=
  match f with
  | SpecFloat.S754_zero _ => 0
  | SpecFloat.S754_finite false m e =>
      if 0 <=? e then Z.pos m * 2 ^ e else Z.pos m / 2 ^ (- e)
  | _ => -1
  end.

Definition height (origW origH width : Z) : Z :=
  to_int (SpecFloat.SFmul 53 1024 (of_int origH)
            (SpecFloat.SFdiv 53 1024 (of_int width) (of_int origW))).

Definition agrees (dims : Z * Z * Z) : bool :=
  let '(origW, origH, width) := dims in
  height origW origH width
    =? imagesvc.resizeHeight (image.Rect 0 0 origW origH) width.

(** All triples of sizes from 1 to [n]. *)
Definition grid (n : nat) : list (Z * Z * Z) :=
  let sizes := List.map Z.of_nat (seq 1 n) in
  flat_map (fun origW =>
    flat_map (fun origH => List.map (fun width => (origW, origH, width)) sizes)
      sizes) sizes.

Definition samples : list (Z * Z * Z) :=
  [ (800, 600, 400); (1920, 1080, 333); (4032, 3024, 1000); (4, 7, 1);
    (49, 49, 1); (3, 0, 5); (123456789, 987654321, 55555);
    (9007199254740993, 3, 7); (2 ^ 62 + 1, 2 ^ 61 + 3, 2 ^ 60 + 7);
    (7, 2 ^ 62 + 12345, 3); (1000003, 999983, 2 ^ 62) ].

End ieee754.

(** ** Vocabulary of the further statements about the media service *)

Module refspec.

Import mediasvc.

(** A meta decodes from what it encodes to. *)
Definition round_trips `{JSON} (M : MediaMeta) : Prop :=
  json_Unmarshal (json_Marshal M) = Some M.

(** Referential integrity of the store: every meta blob that is stored under
    its own id has its data blob, and its id is in the backref list of its
    content hash. *)
Definition referenced `{JSON} (svc : BlobMediaService) : Prop :=
  forall (id : MediaID) (body : list byte) (M : MediaMeta),
    metaRepo svc !! id = Some body ->
    json_Unmarshal body = Some M ->
    MetaID M = id ->
    is_Some (dataRepo svc !! Hash M) /\ In id (svcspec.backrefs_at svc (Hash M)).

End refspec.

Import refspec.

(** ** Vocabulary of the statements about the encoding *)

Module encspec.

(** The bytes read as one number, the first byte the most significant. *)
Definition big_endian (b : list byte) : Z :=
  fold_left (fun acc x => acc * 256 + gostr.byte_val x) b 0.

(** The last [k] base-32 digits of [v] in the Crockford alphabet, the most
    significant first. *)
Fixpoint digits (k : nat) (v : Z) : string :=
  match k with
  | O => ""
  | S k' =>
      digits k' (v / 32)
        +:+ String (gostr.at_ encoding.crockfordBase32Alphabet (v mod 32)) ""
  end.

(** The number of digits for [n] bytes: their 8n bits in groups of five,
    the last group filled up. *)
Definition digit_count (n : nat) : nat := Z.to_nat ((8 * Z.of_nat n + 4) / 5).

(** A character of the ASCII range, where Go's case mappings work on single
    bytes. *)
Definition is_ascii (c : ascii) : bool := (N_of_ascii c <? 128)%N.

(** What [NormalizeCrockfordB32LC] makes of one character that is not a
    space. *)
Definition normal_char (c : ascii) : ascii :=
  gostr.lower_char (encoding.normalize_char (gostr.upper_char c)).

(** What the encoder holds after the bytes [p]: the digits of the whole
    groups of five bits, and the bits of the last group in [accum]. *)
Definition encoded (st : encoding.enc) (p : list byte) : Prop :=
  let n := 8 * Z.of_nat (length p) in
  encoding.bits st = n mod 5 /\
  encoding.accum st mod 2 ^ 64 = big_endian p mod 2 ^ 64 /\
  encoding.result st = digits (Z.to_nat (n / 5)) (big_endian p / 2 ^ encoding.bits st).

End encspec.

Import encspec.

(** ** Vocabulary of the statements about the file names *)

Module pathspec.

(** A path element that [filepath.Clean] keeps as it is: not empty, not a
    dot or two, and without a separator. *)
Definition plain (e : string) : bool :=
  negb (String.eqb e "") && negb (String.eqb e ".") && negb (String.eqb e "..")
  && gostr.all (fun c => negb (Ascii.eqb c "/")) e.

End pathspec.

Import pathspec.

(** Sample data for the cache of resized images. *)

Module fetchexamples.

(** A photo of Alice under a name in capital letters. *)
Definition photo : Media :=
  imgexamples.named "PHOTO.JPG" (Some imgexamples.jpeg_magic).

Definition json : JSON := examples.codec [Media_Meta photo].

(** The service after the upload of the photo. *)
Definition uploaded : imagesvc.BlobImageService :=
  fst (imagesvc.Store (H := json) (imgexamples.service 1024) photo).

(** Two stand-ins for the resize step: one keeps the first [width] bytes,
    one fails. *)
Definition crop (data : list byte) (ctype : string) (width : Z) : slice + error :=
  inl (Some (firstn (Z.to_nat width) data)).

Definition broken (data : list byte) (ctype : string) (width : Z) : slice + error :=
  inr ErrSyntax.

End fetchexamples.

(** * Properties *)

(** ** Crockford Base32: an encoding is already normal *)

Section Crockford.
Import encoding.

Lemma all_snoc p s c :
  gostr.all p (s +:+ String c "") = gostr.all p s && p c.
Proof.
  induction s as [|a s IH]; simpl.
  - now rewrite andb_true_r.
  - now rewrite IH, andb_assoc.
Qed.

Lemma digit_in_alphabet v :
  is_uc_digit (gostr.at_ crockfordBase32Alphabet (Z.land v 31)) = true.
Proof.
  assert (Hr : 0 <= Z.land v 31 < 32).
  { change 31 with (Z.ones 5). rewrite Z.land_ones by lia.
    apply Z.mod_pos_bound. lia. }
  unfold gostr.at_.
  remember (Z.to_nat (Z.land v 31)) as n eqn:Hn.
  assert (Hlt : (n < 32)%nat) by lia.
  clear Hn Hr.
  do 32 (destruct n as [|n]; [reflexivity|]).
  lia.
Qed.

Lemma write_digit_uc st v :
  gostr.all is_uc_digit (result st) = true ->
  gostr.all is_uc_digit (write_digit st v) = true.
Proof.
  intros Hst. unfold write_digit.
  now rewrite all_snoc, Hst, digit_in_alphabet.
Qed.

Lemma drain_uc fuel : forall st,
  gostr.all is_uc_digit (result st) = true ->
  gostr.all is_uc_digit (result (drain fuel st)) = true.
Proof.
  induction fuel as [|fuel IH]; intros st Hst; simpl; [assumption|].
  destruct (5 <=? bits st); [|assumption].
  apply IH. simpl. now apply write_digit_uc.
Qed.

Lemma feed_uc st b :
  gostr.all is_uc_digit (result st) = true ->
  gostr.all is_uc_digit (result (feed st b)) = true.
Proof. intros Hst. unfold feed. now apply drain_uc. Qed.

Lemma fold_feed_uc input : forall st,
  gostr.all is_uc_digit (result st) = true ->
  gostr.all is_uc_digit (result (fold_left feed input st)) = true.
Proof.
  induction input as [|b input IH]; intros st Hst; simpl; [assumption|].
  apply IH. now apply feed_uc.
Qed.

Lemma flush_uc st :
  gostr.all is_uc_digit (result st) = true ->
  gostr.all is_uc_digit (flush st) = true.
Proof.
  intros Hst. unfold flush.
  destruct (0 <? bits st); [now apply write_digit_uc | assumption].
Qed.

Lemma lower_digit c :
  is_uc_digit c = true -> is_lc_digit (gostr.lower_char c) = true.
Proof.
  destruct c as [[] [] [] [] [] [] [] []]; vm_compute; congruence.
Qed.

Lemma ToLower_digits s :
  gostr.all is_uc_digit s = true ->
  gostr.all is_lc_digit (gostr.ToLower s) = true.
Proof.
  unfold gostr.ToLower.
  induction s as [|c s IH]; cbn [gostr.all gostr.map]; [reflexivity|].
  intros [Hc Hs]%andb_true_iff.
  now rewrite lower_digit, IH.
Qed.

(** Every character of an encoding is a lowercase Crockford digit. *)
Lemma Encode_digits input :
  gostr.all is_lc_digit (EncodeCrockfordB32LC input) = true.
Proof.
  unfold EncodeCrockfordB32LC.
  apply ToLower_digits, flush_uc, fold_feed_uc. reflexivity.
Qed.

Lemma normalize_digit c :
  is_lc_digit c = true ->
  Ascii.eqb c " " = false /\
  gostr.lower_char (normalize_char (gostr.upper_char c)) = c.
Proof.
  destruct c as [[] [] [] [] [] [] [] []]; vm_compute; split; congruence.
Qed.

Lemma ReplaceAll_no_space s :
  gostr.all (fun c => negb (Ascii.eqb c " ")) s = true ->
  gostr.ReplaceAll s " " "" = s.
Proof.
  unfold gostr.ReplaceAll.
  induction s as [|c s IH]; [reflexivity|].
  cbn [gostr.all]. intros [Hc Hs]%andb_true_iff.
  cbn [gostr.replace_from String.prefix].
  destruct (ascii_dec " " c) as [<-|_]; [discriminate Hc|].
  now rewrite IH.
Qed.

Lemma all_impl (p q : ascii -> bool) s :
  (forall c, p c = true -> q c = true) ->
  gostr.all p s = true -> gostr.all q s = true.
Proof.
  intros Hpq. induction s as [|c s IH]; simpl; [reflexivity|].
  intros [Hc Hs]%andb_true_iff. now rewrite (Hpq c Hc), IH.
Qed.

Lemma Normalize_digits s :
  gostr.all is_lc_digit s = true -> NormalizeCrockfordB32LC s = s.
Proof.
  intros Hs. unfold NormalizeCrockfordB32LC.
  rewrite ReplaceAll_no_space.
  2:{ apply (all_impl is_lc_digit); [|assumption].
      intros c Hc. now destruct (normalize_digit c Hc) as [-> _]. }
  unfold gostr.ToLower, gostr.ToUpper.
  induction s as [|c s IH]; [reflexivity|].
  cbn [gostr.all] in Hs. apply andb_true_iff in Hs as [Hc Hs].
  cbn [gostr.map].
  destruct (normalize_digit c Hc) as [_ ->].
  now rewrite IH.
Qed.

(** C9: normalizing the lowercase Crockford encoding of any byte sequence
    gives it back unchanged. *)
Theorem Normalize_Encode (b : list byte) :
  NormalizeCrockfordB32LC (EncodeCrockfordB32LC b) = EncodeCrockfordB32LC b.
Proof. apply Normalize_digits, Encode_digits. Qed.

End Crockford.

(** ** Media: the derived fields *)

Section NewMedia.
Import encoding.

(** C3: whatever id, hash and size the given meta carries, [NewMedia] sets
    the size to the length of the body, the hash to the encoded SHA-256 of
    the body, and the id to the encoded SHA-256 of hash, file name, MIME
    type and owner in a row; so the hash depends on the body alone and the
    id on body, file name, MIME type and owner alone. *)
Theorem NewMedia_derives (body : slice) (filename mimeType owner : string)
    (id0 hash0 : string) (size0 : Z) :
  let given i h s :=
    {| Filename := filename; MetaID := i; Hash := h; Size := s;
       Owner := owner; MIMEType := mimeType |} in
  let m := NewMedia body (given id0 hash0 size0) in
  let hash := EncodeCrockfordB32LC (sha256.Sum256 (bytes_of_slice body)) in
  Size (meta m) = Z.of_nat (length (bytes_of_slice body)) /\
  Hash (meta m) = hash /\
  MetaID (meta m) =
    EncodeCrockfordB32LC
      (sha256.Sum256 (gostr.bytes_of hash ++ gostr.bytes_of filename ++
                      gostr.bytes_of mimeType ++ gostr.bytes_of owner)%list) /\
  (forall filename' mimeType' owner' id1 hash1 size1,
     Hash (meta (NewMedia body
       {| Filename := filename'; MetaID := id1; Hash := hash1; Size := size1;
          Owner := owner'; MIMEType := mimeType' |})) = Hash (meta m)) /\
  (forall id1 hash1 size1,
     MetaID (meta (NewMedia body (given id1 hash1 size1))) = MetaID (meta m)).
Proof.
  cbv zeta. unfold NewMedia, update; cbn [meta Size Hash MetaID Filename MIMEType Owner].
  repeat split.
  unfold sha256.Sum at 2. cbn [sha256.written sha256.Write sha256.New].
  rewrite app_nil_l.
  remember (EncodeCrockfordB32LC (sha256.Sum256 (bytes_of_slice body))) as hash.
  unfold sha256.Sum, sha256.Write, sha256.Reset; cbn [sha256.written].
  now rewrite app_nil_l, <- !app_assoc.
Qed.

End NewMedia.

(** ** The media service *)

Section MediaService.
Context `{JSON}.
Import mediasvc.

Lemma Exists_true (repo : gmap string (list byte)) id :
  blob.Exists repo id = true <-> is_Some (repo !! id).
Proof.
  unfold blob.Exists. destruct (repo !! id) as [b|]; split; intros Hx;
    try reflexivity; try discriminate; eauto.
  now destruct Hx.
Qed.

Lemma Exists_insert (repo : gmap string (list byte)) id b :
  blob.Exists (<[id := b]> repo) id = true.
Proof. unfold blob.Exists. now rewrite lookup_insert_eq. Qed.

(** In a repository that does not fail, reading the backref list never
    gives an error. *)
Lemma fetchBackrefs_ok svc hash :
  fetchBackrefs svc hash = (backrefs_at svc hash, None).
Proof.
  unfold backrefs_at, fetchBackrefs, blob.Exists, blob.Fetch.
  now destruct (backrefRepo svc !! hash).
Qed.

Lemma addBackrefs_ok svc hash ids :
  addBackrefs svc hash ids =
    (with_backref svc
       (<[hash := bytes.Join (List.map gostr.bytes_of (backrefs_at svc hash ++ ids)%list)]>
          (backrefRepo svc)), None).
Proof. unfold addBackrefs. now rewrite fetchBackrefs_ok. Qed.

(** A [Store] within the size limit succeeds, with the result [stored]. *)
Lemma Store_accepts svc m :
  Media_Size m <= Svc_MaxSize svc -> Store svc m = (stored svc m, None).
Proof.
  intros Hsize. unfold Store.
  destruct (Z.ltb_spec (Svc_MaxSize svc) (Media_Size m)) as [Hlt|_]; [lia|].
  unfold stored, blob.Store, Media_Hash, Media_ID, Media_Meta, Media_Bytes,
    Meta_AsBlob, Media_AsBlob.
  cbn [ID Body].
  destruct svc as [d mt br c].
  cbn [with_data with_meta dataRepo metaRepo backrefRepo cfg].
  destruct (blob.Exists d (Hash (meta m)));
    destruct (blob.Exists mt (MetaID (meta m)));
    cbn [negb with_data with_meta dataRepo metaRepo backrefRepo cfg];
    rewrite ?addBackrefs_ok; reflexivity.
Qed.

Lemma Store_rejects svc m :
  Svc_MaxSize svc < Media_Size m ->
  Store svc m = (svc, Some (Errorf "%w: %d exceeds %d" ErrMediaTooLarge)).
Proof.
  intros Hsize. unfold Store.
  now destruct (Z.ltb_spec (Svc_MaxSize svc) (Media_Size m)) as [_|Hge]; [|lia].
Qed.

(** C7: the size limit is strict.  [Store] fails with [ErrMediaTooLarge]
    exactly when the body is larger than [MaxSize]; up to [MaxSize] it
    succeeds and the data and meta blobs are there afterwards; above, it
    returns before anything is written.  The upload check of the image
    service fails with [ErrImageTooLarge] under the same strict inequality. *)
Theorem size_limit_is_strict (svc : BlobMediaService)
    (imageSvc : imagesvc.BlobImageService) (m : Media)
    (filename : string) (size : Z) (image : slice) :
  ((exists err, snd (Store svc m) = Some err /\ errors.Is err ErrMediaTooLarge)
     <-> Svc_MaxSize svc < Media_Size m) /\
  (Media_Size m <= Svc_MaxSize svc ->
     snd (Store svc m) = None /\
     blob.Exists (dataRepo (fst (Store svc m))) (Media_Hash m) = true /\
     blob.Exists (metaRepo (fst (Store svc m))) (Media_ID m) = true) /\
  (Svc_MaxSize svc < Media_Size m -> fst (Store svc m) = svc) /\
  ((exists err,
      snd (imagesvc.CheckUploadConstraints imageSvc filename size image) = Some err /\
      errors.Is err ErrImageTooLarge)
     <-> imagesvc.Img_MaxSize imageSvc < size).
Proof.
  repeat apply conj.
  - intros (err & Herr & _).
    destruct (Z.lt_ge_cases (Svc_MaxSize svc) (Media_Size m)) as [|Hle]; [assumption|].
    rewrite (Store_accepts _ _ Hle) in Herr. discriminate Herr.
  - intros Hlt. rewrite (Store_rejects _ _ Hlt). eexists. split; reflexivity.
  - intros Hle. rewrite (Store_accepts _ _ Hle). cbn [fst snd].
    split; [reflexivity|]. unfold stored; cbn [dataRepo metaRepo].
    destruct (blob.Exists (dataRepo svc) (Media_Hash m)) eqn:Hd;
      destruct (blob.Exists (metaRepo svc) (Media_ID m)) eqn:Hm;
      cbn [negb]; rewrite ?Exists_insert; auto.
  - intros Hlt. now rewrite (Store_rejects _ _ Hlt).
  - intros (err & Herr & His). unfold imagesvc.CheckUploadConstraints in Herr.
    destruct (Z.ltb_spec (imagesvc.Img_MaxSize imageSvc) size) as [|_]; [assumption|].
    exfalso. unfold errors.Is in His.
    destruct (imagesvc.imageExtTypes _) as [ty|]; [destruct image as [body|]|];
      [destruct (existsb _ _)| |]; cbn [snd] in Herr;
      try discriminate Herr; injection Herr as <-; discriminate His.
  - intros Hlt. unfold imagesvc.CheckUploadConstraints.
    destruct (Z.ltb_spec (imagesvc.Img_MaxSize imageSvc) size) as [_|]; [|lia].
    eexists. split; reflexivity.
Qed.

(** C10: with no username in the context, [Fetch] and [Delete] of a stored
    media fail with [ErrUnauthorized], whatever its owner field holds. *)
Theorem no_username_is_unauthorized (svc : BlobMediaService)
    (ctx : context_.Context) (mediaID : MediaID) (body : list byte) (M : MediaMeta) :
  metaRepo svc !! mediaID = Some body ->
  json_Unmarshal body = Some M ->
  context_.username ctx = None ->
  (exists err, Fetch svc ctx mediaID = inr err /\ errors.Is err ErrUnauthorized) /\
  (exists err, Delete svc ctx mediaID = (svc, (false, "", Some err)) /\
               errors.Is err ErrUnauthorized).
Proof.
  intros Hblob Hmeta Hctx.
  unfold Fetch, Delete, fetchMeta, blob.Fetch, NewMediaMetaFromBlob,
    context_.UsernameFromContext.
  rewrite Hblob. cbn [Blob_Bytes Body]. rewrite Hmeta, Hctx. cbn [negb orb].
  split; eexists; split; reflexivity.
Qed.

End MediaService.

(** A media stored with an empty owner field, and a request without a
    username: both operations are refused. *)
Lemma no_username_is_unauthorized_witness :
  let svc := examples.store_all [examples.nobody_hello] in
  let id := Media_ID examples.nobody_hello in
  Owner (Media_Meta examples.nobody_hello) = "" /\
  (exists err, mediasvc.Fetch (H := examples.json) svc context_.Background id = inr err /\
               errors.Is err ErrUnauthorized) /\
  (exists err, mediasvc.Delete (H := examples.json) svc context_.Background id
                 = (svc, (false, "", Some err)) /\
               errors.Is err ErrUnauthorized).
Proof.
  split; [reflexivity|].
  apply (no_username_is_unauthorized (H := examples.json) _ _ _
           (examples.plain_Marshal (Media_Meta examples.nobody_hello))
           (Media_Meta examples.nobody_hello)).
  - vm_compute. reflexivity.
  - vm_compute. reflexivity.
  - reflexivity.
Defined.

(** ** Backref blobs: lines in, lines out *)

Section Lines.
Import bytes.

Lemma Split_not_nil b : Split b <> [].
Proof.
  destruct b as [|c b]; cbn [Split]; [discriminate|].
  destruct (Byte.eqb c newline); [discriminate|].
  destruct (Split b); discriminate.
Qed.

Lemma Split_one_line b : forallb one_line (Split b) = true.
Proof.
  induction b as [|c b IH]; [reflexivity|].
  cbn [Split]. destruct (Byte.eqb c newline) eqn:Hc; [exact IH|].
  destruct (Split b) as [|cur rest]; cbn [forallb one_line] in *.
  - now rewrite Hc.
  - apply andb_true_iff in IH as [Hcur Hrest].
    unfold one_line in Hcur. now rewrite Hc, Hcur, Hrest.
Qed.

Lemma Split_line p : one_line p = true -> Split p = [p].
Proof.
  induction p as [|c p IH]; [reflexivity|].
  cbn [one_line forallb]. intros [Hc Hp]%andb_true_iff.
  apply negb_true_iff in Hc. cbn [Split]. now rewrite Hc, (IH Hp).
Qed.

Lemma Split_line_then p rest :
  one_line p = true -> Split (p ++ newline :: rest)%list = p :: Split rest.
Proof.
  induction p as [|c p IH]; intros Hp.
  - cbn [app Split]. reflexivity.
  - cbn [one_line forallb] in Hp. apply andb_true_iff in Hp as [Hc Hp].
    apply negb_true_iff in Hc.
    cbn [app Split]. now rewrite Hc, (IH Hp).
Qed.

(** Joining lines and splitting again gives the lines back. *)
Lemma Split_Join parts :
  parts <> [] -> forallb one_line parts = true -> Split (Join parts) = parts.
Proof.
  induction parts as [|p parts IH]; [congruence|].
  intros _ [Hp Hparts]%andb_true_iff.
  destruct parts as [|q parts].
  - now apply Split_line.
  - change (Join (p :: q :: parts)) with (p ++ newline :: Join (q :: parts))%list.
    rewrite (Split_line_then _ _ Hp), IH; [reflexivity|discriminate|assumption].
Qed.

Lemma bytes_of_of_bytes b : gostr.bytes_of (gostr.of_bytes b) = b.
Proof. apply list_byte_of_string_of_list_byte. Qed.

Lemma of_bytes_of_bytes s : gostr.of_bytes (gostr.bytes_of s) = s.
Proof. apply string_of_list_byte_of_string. Qed.

(** The ids read from a backref blob are single lines. *)
Lemma read_ids_one_line b :
  forallb one_line (List.map gostr.bytes_of (List.map gostr.of_bytes (Split b))) = true.
Proof.
  rewrite List.map_map.
  rewrite (List.map_ext _ (fun x => x)) by apply bytes_of_of_bytes.
  rewrite List.map_id. apply Split_one_line.
Qed.

Lemma forallb_filter {A} (p q : A -> bool) l :
  forallb p l = true -> forallb p (List.filter q l) = true.
Proof.
  induction l as [|x l IH]; [reflexivity|].
  cbn [forallb List.filter]. intros [Hx Hl]%andb_true_iff.
  destruct (q x); cbn [forallb]; rewrite ?Hx; auto.
Qed.

Lemma forallb_map {A B} (p : B -> bool) (f : A -> B) l :
  forallb p (List.map f l) = forallb (fun x => p (f x)) l.
Proof. induction l as [|x l IH]; cbn; [reflexivity|now rewrite IH]. Qed.

(** Writing a list of single-line ids and reading it again gives the list. *)
Lemma read_written_ids (ids : list BlobID) :
  ids <> [] ->
  forallb one_line (List.map gostr.bytes_of ids) = true ->
  List.map gostr.of_bytes (Split (Join (List.map gostr.bytes_of ids))) = ids.
Proof.
  intros Hne Hlines. rewrite Split_Join; [|now destruct ids|assumption].
  rewrite List.map_map.
  rewrite (List.map_ext _ (fun x => x)) by apply of_bytes_of_bytes.
  apply List.map_id.
Qed.

Lemma digit_not_newline c :
  is_lc_digit c = true -> Byte.eqb (byte_of_ascii c) newline = false.
Proof.
  destruct c as [[] [] [] [] [] [] [] []]; vm_compute; congruence.
Qed.

(** A string of Crockford digits has no line break. *)
Lemma digits_one_line s :
  gostr.all is_lc_digit s = true -> one_line (gostr.bytes_of s) = true.
Proof.
  induction s as [|c s IH]; [reflexivity|].
  cbn [gostr.all]. intros [Hc Hs]%andb_true_iff.
  change (gostr.bytes_of (String c s)) with (byte_of_ascii c :: gostr.bytes_of s).
  cbn [one_line forallb]. rewrite (digit_not_newline _ Hc). exact (IH Hs).
Qed.

End Lines.

(** ** Delete and Store on the backref index *)

Section BackrefIndex.
Context `{JSON}.
Import mediasvc.

Lemma backrefs_at_lookup svc hash :
  backrefs_at svc hash =
    match backrefRepo svc !! hash with
    | Some refs => List.map gostr.of_bytes (bytes.Split refs)
    | None => []
    end.
Proof.
  unfold backrefs_at, fetchBackrefs, blob.Exists, blob.Fetch.
  now destruct (backrefRepo svc !! hash).
Qed.

Lemma backrefs_at_one_line svc hash :
  forallb one_line (List.map gostr.bytes_of (backrefs_at svc hash)) = true.
Proof.
  rewrite backrefs_at_lookup.
  destruct (backrefRepo svc !! hash); [apply read_ids_one_line|reflexivity].
Qed.

Lemma drop_id_one_line id refs :
  forallb one_line (List.map gostr.bytes_of refs) = true ->
  forallb one_line (List.map gostr.bytes_of (drop_id id refs)) = true.
Proof.
  rewrite !forallb_map. apply forallb_filter.
Qed.

Lemma drop_id_gone id refs : ~ In id (drop_id id refs).
Proof.
  unfold drop_id. intros [_ Hne]%filter_In.
  now rewrite String.eqb_refl in Hne.
Qed.

(** What [pruneMedia] does when the data and backref blobs are there. *)
Lemma pruneMedia_present svc M refs :
  is_Some (dataRepo svc !! Hash M) ->
  backrefRepo svc !! Hash M = Some refs ->
  let kept := drop_id (MetaID M) (backrefs_at svc (Hash M)) in
  let last := (length kept =? 0)%nat in
  pruneMedia svc M =
    (with_meta (deleted svc M kept) (metaRepo svc), (last, None)).
Proof.
  intros [content Hdata] Hrefs kept last.
  unfold pruneMedia. rewrite fetchBackrefs_ok. fold kept. fold last.
  unfold deleted. fold last.
  destruct last.
  - unfold blob.Delete. rewrite Hdata. cbn [with_data backrefRepo].
    rewrite Hrefs. destruct svc; reflexivity.
  - unfold storeBackrefs, blob.Store. cbn [ID Body]. destruct svc; reflexivity.
Qed.

(** C1: [Delete] of a stored media by its owner takes the media id out of
    the backref list of its content.  If nothing is left, the data blob and
    the backref blob are deleted and the result says pruned; otherwise the
    backref blob is rewritten with what is left and the result says not
    pruned.  Either way the meta blob is deleted and the returned data id is
    the content hash. *)
Theorem Delete_by_owner (svc : BlobMediaService) (ctx : context_.Context)
    (M : MediaMeta) (body refs : list byte) :
  metaRepo svc !! MetaID M = Some body ->
  json_Unmarshal body = Some M ->
  context_.username ctx = Some (Owner M) ->
  is_Some (dataRepo svc !! Hash M) ->
  backrefRepo svc !! Hash M = Some refs ->
  let kept := drop_id (MetaID M) (backrefs_at svc (Hash M)) in
  let last := (length kept =? 0)%nat in
  let after := fst (Delete svc ctx (MetaID M)) in
  snd (Delete svc ctx (MetaID M)) = (last, Hash M, None) /\
  ~ In (MetaID M) kept /\
  metaRepo after = delete (MetaID M) (metaRepo svc) /\
  (if last
   then dataRepo after = delete (Hash M) (dataRepo svc) /\
        backrefRepo after = delete (Hash M) (backrefRepo svc)
   else dataRepo after = dataRepo svc /\
        backrefRepo after =
          <[Hash M := bytes.Join (List.map gostr.bytes_of kept)]> (backrefRepo svc) /\
        backrefs_at after (Hash M) = kept).
Proof.
  intros Hblob Hmeta Hctx Hdata Hrefs kept last after.
  assert (Hdel : Delete svc ctx (MetaID M) = (deleted svc M kept, (last, Hash M, None))).
  { unfold Delete, fetchMeta, blob.Fetch, NewMediaMetaFromBlob,
      context_.UsernameFromContext.
    rewrite Hblob. cbn [Blob_Bytes Body]. rewrite Hmeta, Hctx.
    rewrite String.eqb_refl. cbn [negb orb].
    rewrite (pruneMedia_present _ _ _ Hdata Hrefs). fold kept. fold last.
    unfold blob.Delete. cbn [with_meta metaRepo]. rewrite Hblob.
    reflexivity. }
  subst after. rewrite Hdel. cbn [fst snd].
  split; [reflexivity|]. split; [apply drop_id_gone|]. split; [reflexivity|].
  unfold deleted. fold last. cbn [dataRepo backrefRepo].
  destruct last eqn:Hlast; [now split|].
  split; [reflexivity|]. split; [reflexivity|].
  rewrite backrefs_at_lookup. cbn [backrefRepo]. rewrite lookup_insert_eq.
  apply read_written_ids.
  - intros Hnil. subst last. now rewrite Hnil in Hlast.
  - apply drop_id_one_line, backrefs_at_one_line.
Qed.


Lemma NewMedia_id_one_line data meta0 :
  one_line (gostr.bytes_of (Media_ID (NewMedia data meta0))) = true.
Proof. apply digits_one_line. apply Encode_digits. Qed.



(** C4, as the code has it: when the data blob of a stored media is gone
    while its meta and backref blobs remain, [Delete] by the owner goes one
    of two ways.  If the media is the last one in the backref list, the
    prune fails on the absent data blob, the error that the file does not
    exist reaches the caller, and nothing is changed: the meta blob stays.
    If other media remain in the list, the backref blob is rewritten, the
    meta blob is deleted and no error is returned. *)
Theorem Delete_vanished_data (svc : BlobMediaService) (ctx : context_.Context)
    (M : MediaMeta) (body refs : list byte) :
  metaRepo svc !! MetaID M = Some body ->
  json_Unmarshal body = Some M ->
  context_.username ctx = Some (Owner M) ->
  dataRepo svc !! Hash M = None ->
  backrefRepo svc !! Hash M = Some refs ->
  let kept := drop_id (MetaID M) (backrefs_at svc (Hash M)) in
  if (length kept =? 0)%nat
  then exists err,
         Delete svc ctx (MetaID M) = (svc, (false, Hash M, Some err)) /\
         errors.Is err ErrNotExist
  else Delete svc ctx (MetaID M)
         = (deleted svc M kept, (false, Hash M, None)) /\
       metaRepo (deleted svc M kept) !! MetaID M = None.
Proof.
  intros Hblob Hmeta Hctx Hdata Hrefs kept.
  unfold Delete, fetchMeta, blob.Fetch, NewMediaMetaFromBlob,
    context_.UsernameFromContext.
  rewrite Hblob. cbn [Blob_Bytes Body]. rewrite Hmeta, Hctx.
  rewrite String.eqb_refl. cbn [negb orb].
  unfold pruneMedia. rewrite fetchBackrefs_ok. fold kept.
  destruct (length kept =? 0)%nat eqn:Hlast.
  - unfold blob.Delete. rewrite Hdata. eexists. split; reflexivity.
  - unfold storeBackrefs, blob.Store. cbn [ID Body with_backref metaRepo].
    unfold blob.Delete. rewrite Hblob.
    unfold deleted. rewrite Hlast. cbn [with_meta metaRepo dataRepo backrefRepo cfg].
    split; [reflexivity|apply lookup_delete_eq].
Qed.

End BackrefIndex.

(** *** Worked instances *)

(** Alice and Bob have stored the same bytes; Bob deletes his media. *)
Lemma Delete_by_owner_witness :
  let svc := examples.store_all [examples.alice_hello; examples.bob_hello] in
  let ctx := examples.as_user "bob" in
  let M := Media_Meta examples.bob_hello in
  let kept := mediasvc.drop_id (MetaID M) (backrefs_at (H := examples.json) svc (Hash M)) in
  let last := (length kept =? 0)%nat in
  let after := fst (mediasvc.Delete (H := examples.json) svc ctx (MetaID M)) in
  kept = [Media_ID examples.alice_hello] /\
  snd (mediasvc.Delete (H := examples.json) svc ctx (MetaID M)) = (last, Hash M, None) /\
  ~ In (MetaID M) kept /\
  mediasvc.metaRepo after = delete (MetaID M) (mediasvc.metaRepo svc) /\
  (if last
   then mediasvc.dataRepo after = delete (Hash M) (mediasvc.dataRepo svc) /\
        mediasvc.backrefRepo after = delete (Hash M) (mediasvc.backrefRepo svc)
   else mediasvc.dataRepo after = mediasvc.dataRepo svc /\
        mediasvc.backrefRepo after =
          <[Hash M := bytes.Join (List.map gostr.bytes_of kept)]> (mediasvc.backrefRepo svc) /\
        backrefs_at (H := examples.json) after (Hash M) = kept).
Proof.
  intros svc ctx M.
  split; [vm_compute; reflexivity|].
  apply (Delete_by_owner (H := examples.json) svc ctx M
           (examples.plain_Marshal M)
           (bytes.Join (List.map gostr.bytes_of
              [Media_ID examples.alice_hello; Media_ID examples.bob_hello]))).
  - vm_compute. reflexivity.
  - vm_compute. reflexivity.
  - reflexivity.
  - vm_compute. eexists. reflexivity.
  - vm_compute. reflexivity.
Defined.


(** Alice is the only owner of the content and its data blob is gone. *)
Lemma Delete_vanished_data_witness :
  let svc := mediasvc.with_data (examples.store_all [examples.alice_hello]) ∅ in
  let M := Media_Meta examples.alice_hello in
  exists err,
    mediasvc.Delete (H := examples.json) svc (examples.as_user "alice") (MetaID M)
      = (svc, (false, Hash M, Some err)) /\
    errors.Is err ErrNotExist.
Proof.
  intros svc M.
  apply (Delete_vanished_data (H := examples.json) svc (examples.as_user "alice") M
           (examples.plain_Marshal M) (gostr.bytes_of (MetaID M))).
  - vm_compute. reflexivity.
  - vm_compute. reflexivity.
  - reflexivity.
  - reflexivity.
  - vm_compute. reflexivity.
Defined.

(** C4 as the specification words it fails there: the error is returned,
    but the meta blob is still stored. *)
Lemma Delete_vanished_data_keeps_meta :
  let svc := mediasvc.with_data (examples.store_all [examples.alice_hello]) ∅ in
  let M := Media_Meta examples.alice_hello in
  let result := mediasvc.Delete (H := examples.json) svc (examples.as_user "alice") (MetaID M) in
  (is_Some (mediasvc.metaRepo svc !! MetaID M) /\
   is_Some (mediasvc.backrefRepo svc !! Hash M) /\
   mediasvc.dataRepo svc !! Hash M = None) /\
  ~ (mediasvc.metaRepo (fst result) !! MetaID M = None /\
     exists err, snd (snd result) = Some err /\ errors.Is err ErrNotExist).
Proof.
  cbv zeta. split.
  - repeat split; vm_compute; eauto.
  - intros [Hgone _]. vm_compute in Hgone. discriminate Hgone.
Qed.

(** ** The image service: the upload check comes first *)

Section ImageStore.
Context `{JSON}.
Import imagesvc.

(** [has_prefix] is the prefix relation. *)
Lemma has_prefix_spec (b p : list byte) :
  gostr.has_prefix b p = true <-> exists rest, b = (p ++ rest)%list.
Proof.
  revert b. induction p as [|x p IH]; intros b; cbn [gostr.has_prefix].
  - split; [intros _; now exists b|now destruct b].
  - destruct b as [|y b]; cbn [gostr.has_prefix].
    + split; [discriminate|intros [rest Hrest]; discriminate Hrest].
    + rewrite andb_true_iff, IH. split.
      * intros [Hxy [rest ->]]. apply Byte.byte_dec_bl in Hxy as ->. now exists rest.
      * intros [rest Hrest]. injection Hrest as -> ->.
        split; [now apply Byte.byte_dec_lb|now exists rest].
Qed.

Lemma no_magic_prefix (body : list byte) (headers : list (list byte)) :
  (forall header rest, In header headers -> body <> (header ++ rest)%list) ->
  existsb (gostr.has_prefix body) headers = false.
Proof.
  intros Hnone. apply not_true_iff_false.
  intros (header & Hin & [rest Hrest]%has_prefix_spec)%existsb_exists.
  exact (Hnone header rest Hin Hrest).
Qed.

(** C8, as the code has it: an upload whose body is present and within the
    size limit, whose extension resolves in the MIME table and whose body
    starts with none of the magic prefixes of that MIME type, is refused
    with [ErrImageTypeMismatch]; the service is returned as it was, so no
    data, meta or backref blob is written. *)
Theorem Store_type_mismatch (imageSvc : BlobImageService) (image : Media)
    (body : list byte) (mime : string) :
  Media_Bytes image = Some body ->
  Z.of_nat (length body) <= Img_MaxSize imageSvc ->
  imageExtTypes (gostr.ToLower (filepath.Ext (Filename (Media_Meta image)))) = Some mime ->
  (forall header rest, In header (imageExtHeaders mime) -> body <> (header ++ rest)%list) ->
  exists err, Store imageSvc image = (imageSvc, Some err) /\
              errors.Is err ErrImageTypeMismatch.
Proof.
  intros Hbody Hsize Hext Hmagic.
  unfold Store, CheckUploadConstraints.
  rewrite Hbody. cbn [bytes_of_slice].
  destruct (Z.ltb_spec (Img_MaxSize imageSvc) (Z.of_nat (length body))) as [Hlt|_]; [lia|].
  rewrite Hext, (no_magic_prefix _ _ Hmagic).
  eexists. split; reflexivity.
Qed.

End ImageStore.

(** A JPEG body named [doc.png] is refused and nothing is stored. *)
Lemma Store_type_mismatch_witness :
  let imageSvc := imgexamples.service 1024 in
  let image := imgexamples.named "doc.png" (Some imgexamples.jpeg_magic) in
  exists err,
    imagesvc.Store (H := examples.json) imageSvc image = (imageSvc, Some err) /\
    errors.Is err ErrImageTypeMismatch.
Proof.
  apply (Store_type_mismatch (H := examples.json) (imgexamples.service 1024)
           (imgexamples.named "doc.png" (Some imgexamples.jpeg_magic))
           imgexamples.jpeg_magic imagesvc.MIMETypePNG).
  - reflexivity.
  - vm_compute. discriminate.
  - vm_compute. reflexivity.
  - intros header rest [<-|[]]. vm_compute. discriminate.
Defined.

(** C8 as the specification words it fails twice.  A body above the size
    limit is refused for its size, not for its type; and when the media
    carries no body at all (a nil slice), the magic bytes are not looked at
    and the media is stored. *)
Lemma Store_mismatch_not_always_reported :
  (let imageSvc := imgexamples.service 3 in
   let image := imgexamples.named "doc.png" (Some imgexamples.jpeg_magic) in
   imagesvc.imageExtTypes (gostr.ToLower (filepath.Ext "doc.png")) = Some imagesvc.MIMETypePNG /\
   existsb (gostr.has_prefix imgexamples.jpeg_magic)
     (imagesvc.imageExtHeaders imagesvc.MIMETypePNG) = false /\
   ~ exists err, snd (imagesvc.Store (H := examples.json) imageSvc image) = Some err /\
                 errors.Is err ErrImageTypeMismatch) /\
  (let imageSvc := imgexamples.service 1024 in
   let image := imgexamples.named "doc.png" None in
   existsb (gostr.has_prefix (bytes_of_slice (Media_Bytes image)))
     (imagesvc.imageExtHeaders imagesvc.MIMETypePNG) = false /\
   snd (imagesvc.Store (H := examples.json) imageSvc image) = None /\
   fst (imagesvc.Store (H := examples.json) imageSvc image) <> imageSvc).
Proof.
  split; cbv zeta.
  - split; [reflexivity|]. split; [reflexivity|].
    intros (err & Herr & His). vm_compute in Herr.
    injection Herr as <-. discriminate His.
  - split; [reflexivity|]. split; [vm_compute; reflexivity|].
    intros Heq.
    assert (Hd : mediasvc.dataRepo (imagesvc.mediaSvc
              (fst (imagesvc.Store (H := examples.json) (imgexamples.service 1024)
                      (imgexamples.named "doc.png" None))))
            !! Media_Hash (imgexamples.named "doc.png" None) = None).
    { rewrite Heq. reflexivity. }
    vm_compute in Hd. discriminate Hd.
Qed.

(** ** The directory levels of a blob path *)

Section Layout.
Import blob.

Lemma length_repeat c n : String.length (gostr.repeat c n) = n.
Proof. induction n as [|n IH]; cbn; [reflexivity|now rewrite IH]. Qed.

Lemma length_append (s t : string) :
  String.length (s +:+ t) = (String.length s + String.length t)%nat.
Proof. induction s as [|c s IH]; simpl; [reflexivity|now f_equal]. Qed.

Lemma prefix_empty s : String.prefix "" s = true.
Proof. now destruct s. Qed.

(** Replacing spaces by zeros keeps the length. *)
Lemma length_zero_fill s :
  String.length (gostr.ReplaceAll s " " "0") = String.length s.
Proof.
  unfold gostr.ReplaceAll.
  induction s as [|c s IH]; [reflexivity|].
  cbn [gostr.replace_from String.prefix String.length Nat.sub].
  destruct (ascii_dec " " c); rewrite ?prefix_empty, ?length_append;
    cbn [String.length Nat.add]; now rewrite IH.
Qed.

(** The padded name has the length of the id without its slashes, and six
    at least. *)
Lemma length_padded id :
  String.length (padded id)
    = Nat.max 6 (String.length (gostr.ReplaceAll id "/" "")).
Proof.
  unfold padded, Sprintf_pad, gostr.len.
  rewrite length_zero_fill, length_append, length_repeat.
  change idMinLength with 6. lia.
Qed.

(** The loop of [getBasename] stops one round early on a name of six
    characters. *)
Lemma prefixes_of_six basename :
  String.length basename = 6%nat ->
  prefixes basename = [gostr.slice basename 0 2; gostr.slice basename 2 4].
Proof.
  intros Hlen. unfold prefixes, gostr.len.
  change (Z.to_nat dirPrefixDepth) with 3%nat.
  cbn [prefixes_from]. unfold gostr.len. rewrite Hlen.
  reflexivity.
Qed.

Lemma prefixes_of_longer basename :
  (7 <= String.length basename)%nat ->
  prefixes basename =
    [gostr.slice basename 0 2; gostr.slice basename 2 4; gostr.slice basename 4 6].
Proof.
  intros Hlen. unfold prefixes.
  change (Z.to_nat dirPrefixDepth) with 3%nat.
  cbn [prefixes_from]. unfold gostr.len, dirPrefixLength, dirPrefixDepth.
  assert (H0 : (0 <? Z.of_nat (String.length basename) - 2) = true) by (apply Z.ltb_lt; lia).
  assert (H2 : (0 + 2 <? Z.of_nat (String.length basename) - 2) = true) by (apply Z.ltb_lt; lia).
  assert (H4 : (0 + 2 + 2 <? Z.of_nat (String.length basename) - 2) = true) by (apply Z.ltb_lt; lia).
  rewrite H0, H2, H4. reflexivity.
Qed.

(** C6 fails on short ids: an id of at most six characters (slashes not
    counted) is padded to six characters and gets two directory levels, not
    three, because the loop condition [i < len(basename)-dirPrefixLength]
    ends the loop before the third slice. *)
Theorem short_id_two_levels (fsRepo : FileSystemRepository) (id : BlobID) :
  (String.length (gostr.ReplaceAll id "/" "") <= 6)%nat ->
  let basename := padded id in
  String.length basename = 6%nat /\
  prefixes basename = [gostr.slice basename 0 2; gostr.slice basename 2 4] /\
  GetFilename fsRepo id =
    filepath.Join [Basedir (cfg fsRepo); subdir fsRepo;
                   gostr.slice basename 0 2; gostr.slice basename 2 4; basename]
      +:+ "." +:+ ext fsRepo.
Proof.
  intros Hshort basename.
  assert (Hlen : String.length basename = 6%nat).
  { subst basename. rewrite length_padded. lia. }
  split; [exact Hlen|]. split; [now apply prefixes_of_six|].
  unfold GetFilename, getBasename. fold basename.
  now rewrite (prefixes_of_six _ Hlen).
Qed.

(** On longer ids the layout is the one of the specification. *)
Lemma long_id_three_levels (fsRepo : FileSystemRepository) (id : BlobID) :
  (7 <= String.length (gostr.ReplaceAll id "/" ""))%nat ->
  let basename := padded id in
  GetFilename fsRepo id =
    filepath.Join [Basedir (cfg fsRepo); subdir fsRepo;
                   gostr.slice basename 0 2; gostr.slice basename 2 4;
                   gostr.slice basename 4 6; basename]
      +:+ "." +:+ ext fsRepo.
Proof.
  intros Hlong basename.
  assert (Hlen : (7 <= String.length basename)%nat).
  { subst basename. rewrite length_padded. lia. }
  unfold GetFilename, getBasename. fold basename.
  now rewrite (prefixes_of_longer _ Hlen).
Qed.

End Layout.

(** The id [abcdef] is stored two levels deep; [abcdefg] three. *)
Lemma short_id_two_levels_witness :
  blob.GetFilename fsexamples.data_repo "abcdef"
    = "var/storage/blob/data/ab/cd/abcdef.bin" /\
  blob.GetFilename fsexamples.data_repo "abcdefg"
    = "var/storage/blob/data/ab/cd/ef/abcdefg.bin" /\
  let basename := blob.padded "abcdef" in
  String.length basename = 6%nat /\
  blob.prefixes basename = [gostr.slice basename 0 2; gostr.slice basename 2 4] /\
  blob.GetFilename fsexamples.data_repo "abcdef" =
    filepath.Join [blob.Basedir (blob.cfg fsexamples.data_repo);
                   blob.subdir fsexamples.data_repo;
                   gostr.slice basename 0 2; gostr.slice basename 2 4; basename]
      +:+ "." +:+ blob.ext fsexamples.data_repo.
Proof.
  split; [reflexivity|]. split; [reflexivity|].
  apply (short_id_two_levels fsexamples.data_repo "abcdef").
  vm_compute. lia.
Defined.

(** ** The resize step: rounding in binary64 *)

Section Rounding.
Import float64.

Lemma pow2_pos n : 0 < 2 ^ n \/ (n < 0 /\ 2 ^ n = 0).
Proof.
  destruct (Z.lt_ge_cases n 0) as [Hn|Hn].
  - right. split; [assumption|now apply Z.pow_neg_r].
  - left. now apply Z.pow_pos_nonneg.
Qed.

Lemma pow2_max_pos n : 0 < 2 ^ Z.max 0 n.
Proof. apply Z.pow_pos_nonneg; lia. Qed.

(** The exponent found by [ilog2_ratio] is not above the logarithm of
    [p/q]: [2^k <= p/q]. *)
Lemma ilog2_ratio_lower p q :
  0 < p -> 0 < q ->
  let k := ilog2_ratio p q in
  q * 2 ^ Z.max 0 k <= p * 2 ^ Z.max 0 (- k).
Proof.
  intros Hp Hq. unfold ilog2_ratio.
  set (k0 := Z.log2 p - Z.log2 q).
  destruct (Z.leb_spec (q * 2 ^ Z.max 0 k0) (p * 2 ^ Z.max 0 (- k0))) as [Hle|Hgt];
    cbv zeta; [assumption|].
  destruct (Z.log2_spec p Hp) as [Hp1 Hp2].
  destruct (Z.log2_spec q Hq) as [Hq1 Hq2].
  pose proof (Z.log2_nonneg p) as Hlp. pose proof (Z.log2_nonneg q) as Hlq.
  destruct (Z.lt_ge_cases 0 k0) as [Hk|Hk].
  - rewrite (Z.max_r 0 (k0 - 1)), (Z.max_l 0 (- (k0 - 1))) by lia.
    rewrite Z.pow_0_r, Z.mul_1_r.
    assert (Hpow : 2 ^ Z.succ (Z.log2 q) * 2 ^ (k0 - 1) = 2 ^ Z.log2 p).
    { rewrite <- Z.pow_add_r by lia. f_equal. subst k0. lia. }
    assert (0 < 2 ^ (k0 - 1)) by (apply Z.pow_pos_nonneg; lia).
    nia.
  - rewrite (Z.max_l 0 (k0 - 1)), (Z.max_r 0 (- (k0 - 1))) by lia.
    rewrite Z.pow_0_r, Z.mul_1_r.
    assert (Hpow : 2 ^ Z.log2 p * 2 ^ (- (k0 - 1)) = 2 ^ Z.succ (Z.log2 q)).
    { rewrite <- Z.pow_add_r by lia. f_equal. subst k0. lia. }
    assert (0 < 2 ^ (- (k0 - 1))) by (apply Z.pow_pos_nonneg; lia).
    nia.
Qed.

(** What [round] returns on a positive quotient: the exponent, a mantissa
    within one half of the scaled quotient, and a scaled quotient of at
    least [2^52]. *)
Lemma round_spec p q :
  0 < p -> 0 < q ->
  let e := ilog2_ratio p q - 52 in
  let num := p * 2 ^ Z.max 0 (- e) in
  let den := q * 2 ^ Z.max 0 e in
  exp (round p q) = e /\
  2 * Z.abs (man (round p q) * den - num) <= den /\
  2 ^ 52 * den <= num.
Proof.
  intros Hp Hq e num den.
  assert (Hden : 0 < den) by (subst den; pose proof (pow2_max_pos e); nia).
  unfold round. destruct (Z.leb_spec p 0) as [|_]; [lia|].
  fold e. fold num. fold den.
  split; [reflexivity|]. split.
  - pose proof (Z.div_mod num den ltac:(lia)) as Hdm.
    pose proof (Z.mod_pos_bound num den Hden) as Hr.
    cbn [man].
    destruct (Z.ltb_spec (2 * (num mod den)) den);
      [|destruct (Z.ltb_spec den (2 * (num mod den)));
        [|destruct (Z.even (num / den))]]; lia.
  - pose proof (ilog2_ratio_lower p q Hp Hq) as Hk. cbv zeta in Hk.
    set (k := ilog2_ratio p q) in *.
    subst num den e.
    destruct (Z.lt_ge_cases k 52) as [Hlt|Hge].
    + rewrite (Z.max_l 0 (k - 52)), (Z.max_r 0 (- (k - 52))) by lia.
      rewrite Z.pow_0_r, Z.mul_1_r.
      destruct (Z.lt_ge_cases k 0) as [Hneg|Hnn].
      * rewrite (Z.max_l 0 k), (Z.max_r 0 (- k)) in Hk by lia.
        rewrite Z.pow_0_r, Z.mul_1_r in Hk.
        replace (- (k - 52)) with (- k + 52) by lia.
        rewrite Z.pow_add_r by lia.
        assert (0 < 2 ^ 52) by lia. nia.
      * rewrite (Z.max_r 0 k), (Z.max_l 0 (- k)) in Hk by lia.
        rewrite Z.pow_0_r, Z.mul_1_r in Hk.
        assert (Hsplit : 2 ^ 52 = 2 ^ k * 2 ^ (- (k - 52))).
        { rewrite <- Z.pow_add_r by lia. f_equal. lia. }
        assert (0 < 2 ^ (- (k - 52))) by (apply Z.pow_pos_nonneg; lia).
        rewrite Hsplit. nia.
    + rewrite (Z.max_r 0 (k - 52)), (Z.max_l 0 (- (k - 52))) by lia.
      rewrite (Z.max_r 0 k), (Z.max_l 0 (- k)) in Hk by lia.
      rewrite Z.pow_0_r, Z.mul_1_r in *.
      assert (Hsplit : 2 ^ k = 2 ^ 52 * 2 ^ (k - 52)).
      { rewrite <- Z.pow_add_r by lia. f_equal. lia. }
      rewrite Hsplit in Hk. lia.
Qed.

Local Open Scope R_scope.

Lemma IZR_pow2 n : (0 <= n)%Z -> IZR (2 ^ n) = powerRZ 2 n.
Proof.
  intros Hn. rewrite <- (Z2Nat.id n Hn), <- pow_IZR. apply pow_powerRZ.
Qed.

Lemma pow2R_pos e : 0 < powerRZ 2 e.
Proof. apply powerRZ_lt. lra. Qed.

Lemma pow2R_add a b : powerRZ 2 (a + b) = powerRZ 2 a * powerRZ 2 b.
Proof. apply powerRZ_add. lra. Qed.

Lemma pow2R_split e : powerRZ 2 e * powerRZ 2 (Z.max 0 (- e)) = powerRZ 2 (Z.max 0 e).
Proof. rewrite <- pow2R_add. f_equal. lia. Qed.

Lemma div_le_compat a b d : 0 < d -> a <= b -> a / d <= b / d.
Proof.
  intros Hd Hab. unfold Rdiv. apply Rmult_le_compat_r; [|assumption].
  left. now apply Rinv_0_lt_compat.
Qed.

(** One rounding: the result is within the relative error [u] of the
    quotient. *)
Lemma round_value p q :
  (0 <= p)%Z -> (0 < q)%Z ->
  IZR p / IZR q * (1 - u) <= value (round p q) <= IZR p / IZR q * (1 + u).
Proof.
  intros Hp Hq.
  assert (HQ : 0 < IZR q) by now apply IZR_lt.
  destruct (Z.eq_dec p 0%Z) as [->|Hp0].
  { unfold round, value. cbn. lra. }
  assert (Hppos : (0 < p)%Z) by lia.
  destruct (round_spec p q Hppos Hq) as (He & Hhalf & Hnorm).
  cbv zeta in Hhalf, Hnorm.
  set (e := (ilog2_ratio p q - 52)%Z) in *.
  set (m := man (round p q)) in *.
  unfold value. fold m. rewrite He.
  pose proof (pow2R_pos e) as HB.
  pose proof (pow2R_pos (Z.max 0 e)) as HEp.
  pose proof (pow2R_pos (Z.max 0 (- e))) as HEn.
  pose proof (pow2R_split e) as Hsplit.
  set (B := powerRZ 2 e) in *.
  set (Ep := powerRZ 2 (Z.max 0 e)) in *.
  set (En := powerRZ 2 (Z.max 0 (- e))) in *.
  assert (Hup : (2 * (m * (q * 2 ^ Z.max 0 e) - p * 2 ^ Z.max 0 (- e)) <= q * 2 ^ Z.max 0 e)%Z) by lia.
  assert (Hlo : (- (q * 2 ^ Z.max 0 e) <= 2 * (m * (q * 2 ^ Z.max 0 e) - p * 2 ^ Z.max 0 (- e)))%Z) by lia.
  change (2 ^ 52)%Z with 4503599627370496%Z in Hnorm.
  apply IZR_le in Hup, Hlo, Hnorm.
  repeat rewrite ?opp_IZR, ?mult_IZR, ?minus_IZR in Hup.
  repeat rewrite ?opp_IZR, ?mult_IZR, ?minus_IZR in Hlo.
  repeat rewrite ?opp_IZR, ?mult_IZR, ?minus_IZR in Hnorm.
  rewrite !IZR_pow2 in Hup by lia.
  rewrite !IZR_pow2 in Hlo by lia.
  rewrite !IZR_pow2 in Hnorm by lia.
  fold Ep En in Hup, Hlo, Hnorm.
  set (P := IZR p) in *. set (Q := IZR q) in *. set (M := IZR m) in *.
  assert (HD : 0 < Q * En) by now apply Rmult_lt_0_compat.
  replace (M * B) with (M * Q * Ep / (Q * En)).
  2:{ rewrite <- Hsplit. field. lra. }
  replace (P / Q * (1 - u)) with (P * En * (1 - u) / (Q * En)) by (field; lra).
  replace (P / Q * (1 + u)) with (P * En * (1 + u) / (Q * En)) by (field; lra).
  unfold u.
  split; apply div_le_compat; try assumption; lra.
Qed.

Lemma round_man_nonneg p q : (0 < q)%Z -> (0 <= man (round p q))%Z.
Proof.
  intros Hq. unfold round.
  destruct (Z.leb_spec p 0) as [|Hp]; [cbn; lia|].
  set (e := (ilog2_ratio p q - 52)%Z). cbn [man].
  pose proof (pow2_max_pos e) as He. pose proof (pow2_max_pos (- e)) as Hne.
  assert (Hm : (0 <= p * 2 ^ Z.max 0 (- e) / (q * 2 ^ Z.max 0 e))%Z)
    by (apply Z.div_pos; nia).
  destruct (_ <? _)%Z; [assumption|].
  destruct (_ <? _)%Z; [lia|].
  destruct (Z.even _); lia.
Qed.

(** [float64(n)] is within [u] of [n]. *)
Lemma of_int_value n :
  (0 <= n)%Z -> IZR n * (1 - u) <= value (of_int n) <= IZR n * (1 + u).
Proof.
  intros Hn. pose proof (round_value n 1 Hn ltac:(lia)) as Hr.
  unfold of_int. replace (IZR n / 1) with (IZR n) in Hr by field. exact Hr.
Qed.

(** A value with a positive mantissa is positive, and conversely. *)
Lemma value_pos x : (0 < man x)%Z <-> 0 < value x.
Proof.
  unfold value. pose proof (pow2R_pos (exp x)) as HB. split.
  - intros Hm. apply Rmult_lt_0_compat; [now apply (IZR_lt 0)|assumption].
  - intros Hv. apply (lt_IZR 0).
    destruct (Rlt_le_dec 0 (IZR (man x))) as [|Hle]; [assumption|]. nra.
Qed.

Lemma value_nonneg x : (0 <= man x)%Z -> 0 <= value x.
Proof.
  intros Hm. unfold value. apply Rmult_le_pos; [now apply (IZR_le 0)|].
  left. apply pow2R_pos.
Qed.

(** The quotient is rounded once. *)
Lemma div_value x y :
  (0 <= man x)%Z -> (0 < man y)%Z ->
  value x / value y * (1 - u) <= value (div x y) <= value x / value y * (1 + u).
Proof.
  intros Hx Hy. unfold div.
  set (d := (exp x - exp y)%Z).
  pose proof (pow2_max_pos d) as Hd. pose proof (pow2_max_pos (- d)) as Hnd.
  assert (Hp : (0 <= man x * 2 ^ Z.max 0 d)%Z) by nia.
  assert (Hq : (0 < man y * 2 ^ Z.max 0 (- d))%Z) by nia.
  pose proof (round_value _ _ Hp Hq) as Hr.
  rewrite !mult_IZR, !IZR_pow2 in Hr by lia.
  replace (IZR (man x) * powerRZ 2 (Z.max 0 d) / (IZR (man y) * powerRZ 2 (Z.max 0 (- d))))
    with (value x / value y) in Hr; [exact Hr|].
  unfold value.
  pose proof (pow2R_pos (exp x)). pose proof (pow2R_pos (exp y)).
  pose proof (pow2R_pos (Z.max 0 (- d))).
  assert (HY : 0 < IZR (man y)) by now apply (IZR_lt 0).
  rewrite <- (pow2R_split d).
  replace (powerRZ 2 d) with (powerRZ 2 (exp x) / powerRZ 2 (exp y)).
  - field. repeat split; lra.
  - subst d. unfold Z.sub. rewrite pow2R_add, powerRZ_neg'. field. lra.
Qed.

(** The product is rounded once. *)
Lemma mul_value x y :
  (0 <= man x)%Z -> (0 <= man y)%Z ->
  value x * value y * (1 - u) <= value (mul x y) <= value x * value y * (1 + u).
Proof.
  intros Hx Hy. unfold mul.
  set (e := (exp x + exp y)%Z).
  pose proof (pow2_max_pos e) as He. pose proof (pow2_max_pos (- e)) as Hne.
  assert (Hp : (0 <= man x * man y * 2 ^ Z.max 0 e)%Z) by nia.
  pose proof (round_value _ _ Hp Hne) as Hr.
  rewrite !mult_IZR, !IZR_pow2 in Hr by lia.
  replace (IZR (man x) * IZR (man y) * powerRZ 2 (Z.max 0 e) / powerRZ 2 (Z.max 0 (- e)))
    with (value x * value y) in Hr; [exact Hr|].
  unfold value.
  pose proof (pow2R_pos (Z.max 0 (- e))).
  rewrite <- (pow2R_split e). subst e. rewrite pow2R_add. field. lra.
Qed.

(** [int(x)] is the integer part of the value. *)
Lemma to_int_floor x :
  (0 <= man x)%Z -> IZR (to_int x) <= value x < IZR (to_int x) + 1.
Proof.
  intros Hm. unfold to_int, value.
  destruct (Z.leb_spec 0 (exp x)) as [He|He].
  - rewrite mult_IZR, IZR_pow2 by assumption. lra.
  - set (D := (2 ^ (- exp x))%Z).
    assert (HD : (0 < D)%Z) by (apply Z.pow_pos_nonneg; lia).
    pose proof (Z.div_mod (man x) D ltac:(lia)) as Hdm.
    pose proof (Z.mod_pos_bound (man x) D HD) as Hr.
    set (t := (man x / D)%Z) in *.
    assert (Hlo : (t * D <= man x)%Z) by lia.
    assert (Hhi : (man x < (t + 1) * D)%Z) by lia.
    apply IZR_le in Hlo. apply IZR_lt in Hhi.
    rewrite mult_IZR in Hlo, Hhi. rewrite plus_IZR in Hhi.
    assert (HDR : IZR D = powerRZ 2 (- exp x)) by (apply IZR_pow2; lia).
    assert (Hinv : powerRZ 2 (exp x) * powerRZ 2 (- exp x) = 1).
    { rewrite <- pow2R_add. replace (exp x + - exp x)%Z with 0%Z by lia. reflexivity. }
    pose proof (pow2R_pos (exp x)) as HB. pose proof (pow2R_pos (- exp x)) as HnB.
    rewrite HDR in Hlo, Hhi.
    set (B := powerRZ 2 (exp x)) in *. set (Bn := powerRZ 2 (- exp x)) in *.
    split.
    + apply Rmult_le_reg_r with Bn; [assumption|].
      replace (IZR (man x) * B * Bn) with (IZR (man x) * (B * Bn)) by ring.
      rewrite Hinv. lra.
    + apply Rmult_lt_reg_r with Bn; [assumption|].
      replace (IZR (man x) * B * Bn) with (IZR (man x) * (B * Bn)) by ring.
      rewrite Hinv. lra.
Qed.

Lemma u_small : 0 < u <= / 100.
Proof. unfold u. lra. Qed.

(** Five roundings in a row: the two conversions of the width and of the
    original width, their quotient, the conversion of the original height
    and the product.  Together they move the result by less than six units
    of relative error. *)
Lemma five_roundings (w W H a b c r P : R) :
  0 < w -> 0 < W -> 0 <= H ->
  w * (1 - u) <= a <= w * (1 + u) ->
  W * (1 - u) <= b <= W * (1 + u) ->
  H * (1 - u) <= c <= H * (1 + u) ->
  a / b * (1 - u) <= r <= a / b * (1 + u) ->
  c * r * (1 - u) <= P <= c * r * (1 + u) ->
  H * w * (1 - 6 * u) <= P * W <= H * w * (1 + 6 * u).
Proof.
  intros Hw HW HH [Ha1 Ha2] [Hb1 Hb2] [Hc1 Hc2] [Hr1 Hr2] [HP1 HP2].
  destruct u_small as [Hu0 Hu1].
  assert (Hu : u <= 1 / 100) by lra. clear Hu1.
  assert (Hb : 0 < b) by nra.
  assert (Ha : 0 <= a) by nra.
  assert (Hc : 0 <= c) by nra.
  replace (a / b * (1 - u)) with (a * (1 - u) / b) in Hr1 by (field; lra).
  replace (a / b * (1 + u)) with (a * (1 + u) / b) in Hr2 by (field; lra).
  assert (Hrb1 : a * (1 - u) <= r * b).
  { apply Rmult_le_compat_r with (r := b) in Hr1; [|lra].
    replace (a * (1 - u) / b * b) with (a * (1 - u)) in Hr1 by (field; lra). exact Hr1. }
  assert (Hrb2 : r * b <= a * (1 + u)).
  { apply Rmult_le_compat_r with (r := b) in Hr2; [|lra].
    replace (a * (1 + u) / b * b) with (a * (1 + u)) in Hr2 by (field; lra). exact Hr2. }
  assert (Hr : 0 <= r).
  { apply Rmult_le_reg_r with b; [assumption|]. nra. }
  assert (HP : 0 <= P) by nra.
  set (s := r * b) in *.
  assert (Hs : 0 <= s) by nra.
  assert (H1u : 0 <= 1 - u) by lra.
  assert (H1u' : 0 <= 1 + u) by lra.
  assert (Hca1 : H * w * ((1 - u) * (1 - u)) <= c * a).
  { replace (H * w * ((1 - u) * (1 - u))) with (H * (1 - u) * (w * (1 - u))) by ring.
    apply Rmult_le_compat; try assumption; apply Rmult_le_pos; lra. }
  assert (Hca2 : c * a <= H * w * ((1 + u) * (1 + u))).
  { replace (H * w * ((1 + u) * (1 + u))) with (H * (1 + u) * (w * (1 + u))) by ring.
    apply Rmult_le_compat; assumption. }
  assert (HN : 0 <= H * w) by (apply Rmult_le_pos; lra).
  set (N := H * w) in *.
  assert (Hcs1 : N * ((1 - u) * (1 - u) * (1 - u)) <= c * s).
  { replace (N * ((1 - u) * (1 - u) * (1 - u))) with (N * ((1 - u) * (1 - u)) * (1 - u)) by ring.
    apply Rle_trans with (c * a * (1 - u)).
    - apply Rmult_le_compat_r; assumption.
    - replace (c * a * (1 - u)) with (c * (a * (1 - u))) by ring.
      apply Rmult_le_compat_l; assumption. }
  assert (Hcs2 : c * s <= N * ((1 + u) * (1 + u) * (1 + u))).
  { replace (N * ((1 + u) * (1 + u) * (1 + u))) with (N * ((1 + u) * (1 + u)) * (1 + u)) by ring.
    apply Rle_trans with (c * a * (1 + u)).
    - replace (c * a * (1 + u)) with (c * (a * (1 + u))) by ring.
      apply Rmult_le_compat_l; assumption.
    - apply Rmult_le_compat_r; assumption. }
  assert (HPb1 : c * s * (1 - u) <= P * b).
  { subst s. replace (c * (r * b) * (1 - u)) with (c * r * (1 - u) * b) by ring.
    apply Rmult_le_compat_r; [lra|assumption]. }
  assert (HPb2 : P * b <= c * s * (1 + u)).
  { subst s. replace (c * (r * b) * (1 + u)) with (c * r * (1 + u) * b) by ring.
    apply Rmult_le_compat_r; [lra|assumption]. }
  assert (Hlow : N * ((1 - u) * (1 - u) * (1 - u) * (1 - u)) <= P * b).
  { apply Rle_trans with (c * s * (1 - u)); [|assumption].
    replace (N * ((1 - u) * (1 - u) * (1 - u) * (1 - u)))
      with (N * ((1 - u) * (1 - u) * (1 - u)) * (1 - u)) by ring.
    apply Rmult_le_compat_r; assumption. }
  assert (Hupp : P * b <= N * ((1 + u) * (1 + u) * (1 + u) * (1 + u))).
  { apply Rle_trans with (c * s * (1 + u)); [assumption|].
    replace (N * ((1 + u) * (1 + u) * (1 + u) * (1 + u)))
      with (N * ((1 + u) * (1 + u) * (1 + u)) * (1 + u)) by ring.
    apply Rmult_le_compat_r; assumption. }
  assert (Hpoly1 : (1 - 6 * u) * (1 + u) <= (1 - u) * (1 - u) * (1 - u) * (1 - u)) by nra.
  assert (Hpoly2 : (1 + u) * (1 + u) * (1 + u) * (1 + u) <= (1 + 6 * u) * (1 - u)) by nra.
  assert (HPW1 : P * b <= P * W * (1 + u)).
  { replace (P * W * (1 + u)) with (P * (W * (1 + u))) by ring.
    apply Rmult_le_compat_l; assumption. }
  assert (HPW2 : P * W * (1 - u) <= P * b).
  { replace (P * W * (1 - u)) with (P * (W * (1 - u))) by ring.
    apply Rmult_le_compat_l; assumption. }
  split.
  - apply Rmult_le_reg_r with (1 + u); [lra|].
    apply Rle_trans with (N * ((1 - u) * (1 - u) * (1 - u) * (1 - u))); [|lra].
    replace (N * (1 - 6 * u) * (1 + u)) with (N * ((1 - 6 * u) * (1 + u))) by ring.
    apply Rmult_le_compat_l; assumption.
  - apply Rmult_le_reg_r with (1 - u); [lra|].
    apply Rle_trans with (N * ((1 + u) * (1 + u) * (1 + u) * (1 + u))); [lra|].
    replace (N * (1 + 6 * u) * (1 - u)) with (N * ((1 + 6 * u) * (1 - u))) by ring.
    apply Rmult_le_compat_l; assumption.
Qed.

End Rounding.

Section Resize.
Import float64 imagesvc.
Local Open Scope R_scope.

(** C5, as the code has it: the target height is the float64 product
    [origH * (width / origW)] with its fraction cut off.  For a positive
    width with [origH * width < 2^50] that is the exact quotient
    [origH * width / origW] rounded down, not to the nearest integer; when
    [origW] divides [origH * width] the float64 product can fall just short
    of the quotient and the height is then one less.  The raster is exactly
    [width] by that height. *)
Theorem resize_height_truncates (original : image.Rectangle) (width : Z) :
  (0 < image.Dx original)%Z ->
  (0 <= image.Dy original)%Z ->
  (0 < width)%Z ->
  (image.Dy original * width < 2 ^ 50)%Z ->
  let exact := (image.Dy original * width / image.Dx original)%Z in
  let height := resizeHeight original width in
  (exact - 1 <= height <= exact)%Z /\
  ((image.Dy original * width) mod image.Dx original <> 0%Z -> height = exact) /\
  image.Dx (resizeBounds original width) = width /\
  image.Dy (resizeBounds original width) = height.
Proof.
  intros HW HH Hw Hsmall exact height.
  set (W := image.Dx original) in *. set (Hh := image.Dy original) in *.
  set (a := of_int width). set (b := of_int W). set (c := of_int Hh).
  set (r := div a b). set (P := mul c r).
  assert (Hheight : height = to_int P) by reflexivity.
  destruct u_small as [Hu0 Hu1].
  (* the five roundings *)
  pose proof (of_int_value width ltac:(lia)) as Ha. fold a in Ha.
  pose proof (of_int_value W ltac:(lia)) as Hb. fold b in Hb.
  pose proof (of_int_value Hh HH) as Hc. fold c in Hc.
  assert (HWR : 0 < IZR W) by now apply (IZR_lt 0).
  assert (HwR : 0 < IZR width) by now apply (IZR_lt 0).
  assert (HHR : 0 <= IZR Hh) by now apply (IZR_le 0).
  assert (Hma : (0 <= man a)%Z) by (apply round_man_nonneg; lia).
  assert (Hmc : (0 <= man c)%Z) by (apply round_man_nonneg; lia).
  assert (Hmb : (0 < man b)%Z) by (apply value_pos; nra).
  pose proof (div_value a b Hma Hmb) as Hr. fold r in Hr.
  assert (Hmr : (0 <= man r)%Z).
  { subst r. unfold div. apply round_man_nonneg.
    pose proof (pow2_max_pos (- (exp a - exp b))). nia. }
  pose proof (mul_value c r Hmc Hmr) as HP. fold P in HP.
  assert (HmP : (0 <= man P)%Z).
  { subst P. unfold mul. apply round_man_nonneg. apply pow2_max_pos. }
  pose proof (five_roundings _ _ _ _ _ _ _ _ HwR HWR HHR Ha Hb Hc Hr HP) as [Hlo Hhi].
  pose proof (to_int_floor P HmP) as [Hfl1 Hfl2].
  rewrite <- Hheight in Hfl1, Hfl2.
  (* the product is within 3/4 of the exact one *)
  set (N := (Hh * width)%Z) in *.
  assert (HN : IZR Hh * IZR width = IZR N) by (subst N; now rewrite mult_IZR).
  rewrite HN in Hlo, Hhi.
  assert (HN0 : 0 <= IZR N) by (rewrite <- HN; apply Rmult_le_pos; lra).
  assert (HNs : IZR N <= 1125899906842624).
  { apply IZR_le. change (2 ^ 50)%Z with 1125899906842624%Z in Hsmall. lia. }
  assert (Herr : 6 * u * IZR N <= 3 / 4) by (unfold u; lra).
  assert (HV0 : 0 <= value P) by now apply value_nonneg.
  (* back to the integers *)
  assert (Hup : (height * W <= N)%Z).
  { apply Z.lt_succ_r. apply lt_IZR. unfold Z.succ.
    rewrite mult_IZR, plus_IZR.
    apply Rle_lt_trans with (value P * IZR W); [|lra].
    apply Rmult_le_compat_r; lra. }
  assert (Hdown : (N <= (height + 1) * W)%Z).
  { apply Z.lt_pred_le. apply lt_IZR. unfold Z.pred.
    rewrite mult_IZR, !plus_IZR.
    apply Rle_lt_trans with (value P * IZR W); [lra|].
    apply Rmult_lt_compat_r; lra. }
  assert (Hh0 : (0 <= height)%Z).
  { apply Z.lt_succ_r. apply lt_IZR. unfold Z.succ. rewrite plus_IZR. lra. }
  pose proof (Z.div_mod N W ltac:(lia)) as Hdm.
  pose proof (Z.mod_pos_bound N W HW) as Hmod.
  fold exact in Hdm.
  split; [split; nia|]. split; [intros Hrem; nia|].
  unfold resizeBounds, image.Rect. fold height.
  destruct (Z.ltb_spec width 0); [lia|].
  destruct (Z.ltb_spec height 0); [lia|].
  unfold image.Dx, image.Dy; cbn. split; lia.
Qed.

End Resize.

(** An 800 by 600 image at width 400: the height is 300. *)
Lemma resize_height_truncates_witness :
  let original := image.Rect 0 0 800 600 in
  let exact := (image.Dy original * 400 / image.Dx original)%Z in
  let height := imagesvc.resizeHeight original 400 in
  height = 300%Z /\
  (exact - 1 <= height <= exact)%Z /\
  ((image.Dy original * 400) mod image.Dx original <> 0%Z -> height = exact) /\
  image.Dx (imagesvc.resizeBounds original 400) = 400%Z /\
  image.Dy (imagesvc.resizeBounds original 400) = height.
Proof.
  split; [reflexivity|].
  apply (resize_height_truncates (image.Rect 0 0 800 600) 400);
    vm_compute; congruence.
Defined.

(** C5 as the specification words it fails for a 4 by 7 image at width 1:
    the exact height is 1.75, the nearest integer is 2, the code computes
    1.  And for a 49 by 49 image at width 1 the code computes 0, because
    [float64(1)/float64(49)*49] is just below 1. *)
Lemma resize_height_not_nearest :
  (let original := image.Rect 0 0 4 7 in
   imagesvc.resizeHeight original 1 = 1%Z /\
   nearest (image.Dy original * 1) (image.Dx original) 2 /\
   ~ nearest (image.Dy original * 1) (image.Dx original)
       (imagesvc.resizeHeight original 1)) /\
  (let original := image.Rect 0 0 49 49 in
   imagesvc.resizeHeight original 1 = 0%Z /\
   ~ nearest (image.Dy original * 1) (image.Dx original)
       (imagesvc.resizeHeight original 1)).
Proof.
  unfold nearest. split; cbv zeta.
  - split; [reflexivity|]. split; vm_compute; congruence.
  - split; [reflexivity|]. vm_compute. congruence.
Qed.

(** The model of binary64 used above computes the same heights as the
    library's specification of IEEE-754 arithmetic, on every triple of sizes
    up to 10 and on the listed samples, large ones included. *)
Example float64_agrees_with_SpecFloat :
  forallb ieee754.agrees (ieee754.grid 10 ++ ieee754.samples) = true.
Proof. vm_compute. reflexivity. Qed.

(** ** The media service: round trips, refusals and the backref index *)

Section MediaServiceMore.
Context `{JSON}.
Import mediasvc.

(** The result of [Delete] by the owner when the data and backref blobs are
    there. *)
Lemma Delete_owner_result svc ctx M body refs :
  metaRepo svc !! MetaID M = Some body ->
  json_Unmarshal body = Some M ->
  context_.username ctx = Some (Owner M) ->
  is_Some (dataRepo svc !! Hash M) ->
  backrefRepo svc !! Hash M = Some refs ->
  let kept := drop_id (MetaID M) (backrefs_at svc (Hash M)) in
  Delete svc ctx (MetaID M)
    = (deleted svc M kept, ((length kept =? 0)%nat, Hash M, None)).
Proof.
  intros Hblob Hmeta Hctx Hdata Hrefs kept.
  unfold Delete, fetchMeta, blob.Fetch, NewMediaMetaFromBlob,
    context_.UsernameFromContext.
  rewrite Hblob. cbn [Blob_Bytes Body]. rewrite Hmeta, Hctx.
  rewrite String.eqb_refl. cbn [negb orb].
  rewrite (pruneMedia_present _ _ _ Hdata Hrefs). fold kept.
  unfold blob.Delete. cbn [with_meta metaRepo]. now rewrite Hblob.
Qed.

(** X1: a stored media is fetched back by its owner: the same bytes and the same
    meta, provided the meta survives its JSON encoding and the store held no
    other content under the hash and no other meta under the id. *)
Theorem Store_then_Fetch (svc : BlobMediaService) (ctx : context_.Context)
    (data : slice) (meta0 : MediaMeta) :
  let m := NewMedia data meta0 in
  Media_Size m <= Svc_MaxSize svc ->
  round_trips (Media_Meta m) ->
  context_.username ctx = Some (Owner meta0) ->
  (forall b, dataRepo svc !! Media_Hash m = Some b -> b = bytes_of_slice data) ->
  (forall b, metaRepo svc !! Media_ID m = Some b -> b = json_Marshal (Media_Meta m)) ->
  snd (Store svc m) = None /\
  Fetch (fst (Store svc m)) ctx (Media_ID m)
    = inl {| data := Some (bytes_of_slice data); meta := Media_Meta m |}.
Proof.
  intros m Hsize Hjson Hctx Hdata Hmeta.
  rewrite (Store_accepts _ _ Hsize). cbn [fst snd]. split; [reflexivity|].
  assert (Hm : metaRepo (stored svc m) !! Media_ID m = Some (json_Marshal (Media_Meta m))).
  { unfold stored; cbn [metaRepo]. unfold blob.Exists.
    destruct (metaRepo svc !! Media_ID m) as [b|] eqn:Hb; cbn [negb].
    - rewrite Hb. f_equal. now apply Hmeta.
    - apply lookup_insert_eq. }
  assert (Hd : dataRepo (stored svc m) !! Media_Hash m = Some (bytes_of_slice data)).
  { unfold stored; cbn [dataRepo]. unfold blob.Exists.
    destruct (dataRepo svc !! Media_Hash m) as [b|] eqn:Hb.
    - rewrite Hb. f_equal. now apply Hdata.
    - apply lookup_insert_eq. }
  unfold Fetch, blob.Fetch, NewMediaMetaFromBlob, context_.UsernameFromContext.
  rewrite Hm. cbn [Blob_Bytes Body]. unfold round_trips in Hjson. rewrite Hjson, Hctx.
  change (Owner (Media_Meta m)) with (Owner meta0).
  rewrite String.eqb_refl. cbn [negb orb].
  change (Hash (Media_Meta m)) with (Media_Hash m). rewrite Hd.
  reflexivity.
Qed.

(** X2: a user other than the owner is refused by [Fetch] and [Delete], and
    [Delete] leaves the service as it was. *)
Theorem other_user_is_unauthorized (svc : BlobMediaService)
    (ctx : context_.Context) (mediaID : MediaID) (body : list byte)
    (M : MediaMeta) (name : string) :
  metaRepo svc !! mediaID = Some body ->
  json_Unmarshal body = Some M ->
  context_.username ctx = Some name ->
  name <> Owner M ->
  (exists err, Fetch svc ctx mediaID = inr err /\ errors.Is err ErrUnauthorized) /\
  (exists err, Delete svc ctx mediaID = (svc, (false, "", Some err)) /\
               errors.Is err ErrUnauthorized).
Proof.
  intros Hblob Hmeta Hctx Hother.
  unfold Fetch, Delete, fetchMeta, blob.Fetch, NewMediaMetaFromBlob,
    context_.UsernameFromContext.
  rewrite Hblob. cbn [Blob_Bytes Body]. rewrite Hmeta, Hctx.
  apply String.eqb_neq in Hother. rewrite Hother. cbn [negb orb].
  split; eexists; split; reflexivity.
Qed.

(** X3: for an id with no meta blob, [Fetch] and [Delete] report that the file
    does not exist, whoever asks, and [Delete] changes nothing: existence is
    looked at before the caller is. *)
Theorem absent_media_is_not_found (svc : BlobMediaService)
    (ctx : context_.Context) (mediaID : MediaID) :
  metaRepo svc !! mediaID = None ->
  (exists err, Fetch svc ctx mediaID = inr err /\ errors.Is err ErrNotExist) /\
  (exists err, Delete svc ctx mediaID = (svc, (false, "", Some err)) /\
               errors.Is err ErrNotExist).
Proof.
  intros Hnone.
  unfold Fetch, Delete, fetchMeta, blob.Fetch. rewrite Hnone.
  split; eexists; split; reflexivity.
Qed.

(** X4: after a [Delete] by the owner the media is gone: [Fetch] and a second
    [Delete] of the same id report that the file does not exist. *)
Theorem Delete_then_not_found (svc : BlobMediaService) (ctx : context_.Context)
    (M : MediaMeta) (body refs : list byte) :
  metaRepo svc !! MetaID M = Some body ->
  json_Unmarshal body = Some M ->
  context_.username ctx = Some (Owner M) ->
  is_Some (dataRepo svc !! Hash M) ->
  backrefRepo svc !! Hash M = Some refs ->
  let after := fst (Delete svc ctx (MetaID M)) in
  snd (snd (Delete svc ctx (MetaID M))) = None /\
  (exists err, Fetch after ctx (MetaID M) = inr err /\ errors.Is err ErrNotExist) /\
  (exists err, Delete after ctx (MetaID M) = (after, (false, "", Some err)) /\
               errors.Is err ErrNotExist).
Proof.
  intros Hblob Hmeta Hctx Hdata Hrefs after. subst after.
  rewrite (Delete_owner_result _ _ _ _ _ Hblob Hmeta Hctx Hdata Hrefs).
  cbn [fst snd]. split; [reflexivity|].
  set (after := deleted svc M _).
  assert (Hgone : metaRepo after !! MetaID M = None) by apply lookup_delete_eq.
  unfold Fetch, Delete, fetchMeta, blob.Fetch. rewrite Hgone.
  split; eexists; split; reflexivity.
Qed.


(** What [Store] does to the data blobs: they only grow. *)
Lemma stored_data_grows svc m h b :
  dataRepo svc !! h = Some b -> dataRepo (stored svc m) !! h = Some b.
Proof.
  intros Hb. unfold stored, blob.Exists; cbn [dataRepo].
  destruct (dataRepo svc !! Media_Hash m) eqn:Hd; [exact Hb|].
  rewrite lookup_insert_ne; [exact Hb|]. intros <-. congruence.
Qed.

Lemma stored_meta_grows svc m h b :
  metaRepo svc !! h = Some b -> metaRepo (stored svc m) !! h = Some b.
Proof.
  intros Hb. unfold stored, blob.Exists; cbn [metaRepo].
  destruct (metaRepo svc !! Media_ID m) eqn:Hd; cbn [negb]; [exact Hb|].
  rewrite lookup_insert_ne; [exact Hb|]. intros <-. congruence.
Qed.

Lemma stored_backref_other svc m h :
  h <> Media_Hash m -> backrefRepo (stored svc m) !! h = backrefRepo svc !! h.
Proof.
  intros Hne. unfold stored, blob.Exists; cbn [backrefRepo].
  destruct (metaRepo svc !! Media_ID m); cbn [negb]; [reflexivity|].
  rewrite lookup_insert_ne; [reflexivity|]. intros Heq. apply Hne. now rewrite Heq.
Qed.

(** X5: [Store] never overwrites: whatever it returns, every data blob and
    every meta blob that was stored keeps its body, and the backref blobs of
    other content are untouched. *)
Theorem Store_keeps_blobs (svc : BlobMediaService) (m : Media)
    (id : BlobID) (b : list byte) :
  let after := fst (Store svc m) in
  (dataRepo svc !! id = Some b -> dataRepo after !! id = Some b) /\
  (metaRepo svc !! id = Some b -> metaRepo after !! id = Some b) /\
  (id <> Media_Hash m -> backrefRepo after !! id = backrefRepo svc !! id).
Proof.
  intros after. subst after.
  destruct (Z.lt_ge_cases (Svc_MaxSize svc) (Media_Size m)) as [Hlt|Hle].
  { rewrite (Store_rejects _ _ Hlt). cbn [fst]. auto. }
  rewrite (Store_accepts _ _ Hle). cbn [fst].
  split; [apply stored_data_grows|].
  split; [apply stored_meta_grows|apply stored_backref_other].
Qed.

(** X6: a backref list that is written is read back as it was, when it is not
    empty and no id in it holds a line break.  The empty list is not: its
    blob is empty and reads as one empty id, which is why [pruneMedia]
    deletes the blob instead of writing it. *)
Theorem backrefs_write_read (svc : BlobMediaService) (hash : BlobID)
    (ids : list BlobID) :
  (ids <> [] ->
   forallb one_line (List.map gostr.bytes_of ids) = true ->
   fetchBackrefs (fst (storeBackrefs svc hash ids)) hash = (ids, None)) /\
  fetchBackrefs (fst (storeBackrefs svc hash [])) hash = ([""], None).
Proof.
  assert (Hread : forall l,
    fetchBackrefs (fst (storeBackrefs svc hash l)) hash
      = (List.map gostr.of_bytes (bytes.Split (bytes.Join (List.map gostr.bytes_of l))), None)).
  { intros l. unfold storeBackrefs, blob.Store. cbn [ID Body fst].
    rewrite fetchBackrefs_ok, backrefs_at_lookup. cbn [with_backref backrefRepo].
    now rewrite lookup_insert_eq. }
  split.
  - intros Hne Hlines. rewrite Hread. f_equal. now apply read_written_ids.
  - rewrite Hread. reflexivity.
Qed.

(** The backref list of the stored media's hash after [Store] put a new
    meta blob. *)
Lemma stored_backrefs_new svc data meta0 :
  let m := NewMedia data meta0 in
  metaRepo svc !! Media_ID m = None ->
  backrefs_at (stored svc m) (Media_Hash m)
    = (backrefs_at svc (Media_Hash m) ++ [Media_ID m])%list.
Proof.
  intros m Hm.
  rewrite backrefs_at_lookup. unfold stored, blob.Exists; cbn [backrefRepo].
  rewrite Hm; cbn [negb]. rewrite lookup_insert_eq.
  apply read_written_ids.
  - destruct (backrefs_at svc (Media_Hash m)); discriminate.
  - rewrite List.map_app, forallb_app, backrefs_at_one_line.
    cbn [List.map forallb andb]. subst m. rewrite NewMedia_id_one_line. reflexivity.
Qed.

Lemma stored_data_there svc m :
  is_Some (dataRepo (stored svc m) !! Hash (Media_Meta m)).
Proof.
  change (Hash (Media_Meta m)) with (Media_Hash m).
  unfold stored, blob.Exists; cbn [dataRepo].
  destruct (dataRepo svc !! Media_Hash m) eqn:Hd.
  - rewrite Hd. eexists; reflexivity.
  - rewrite lookup_insert_eq. eexists; reflexivity.
Qed.

Lemma backrefs_at_eq svc svc' h :
  backrefRepo svc' !! h = backrefRepo svc !! h ->
  backrefs_at svc' h = backrefs_at svc h.
Proof. intros Heq. rewrite !backrefs_at_lookup, Heq. reflexivity. Qed.

(** The references stay whole when a media is put into the store. *)
Lemma stored_referenced svc data meta0 :
  let m := NewMedia data meta0 in
  round_trips (Media_Meta m) ->
  referenced svc ->
  referenced (stored svc m).
Proof.
  intros m Hjson Hinv.
  intros id body M Hbody HM Hid.
  assert (Hgrow : forall h, is_Some (dataRepo svc !! h) ->
                            is_Some (dataRepo (stored svc m) !! h)).
  { intros h [b Hb]. exists b. apply stored_data_grows, Hb. }
  destruct (metaRepo svc !! Media_ID m) as [old|] eqn:Hm.
  - (* the meta blob was there: only the data repository may have changed *)
    assert (Hsm : metaRepo (stored svc m) = metaRepo svc).
    { unfold stored, blob.Exists; cbn [metaRepo]. rewrite Hm. reflexivity. }
    assert (Hsb : backrefRepo (stored svc m) = backrefRepo svc).
    { unfold stored, blob.Exists; cbn [backrefRepo]. rewrite Hm. reflexivity. }
    rewrite Hsm in Hbody.
    destruct (Hinv id body M Hbody HM Hid) as [Hd Hin].
    split; [apply Hgrow, Hd|].
    rewrite (backrefs_at_eq svc (stored svc m)); [exact Hin|].
    rewrite Hsb. reflexivity.
  - (* a new meta blob and one more backref *)
    pose proof (stored_backrefs_new svc data meta0 Hm) as Hrefs.
    fold m in Hrefs.
    assert (Hmeta' : metaRepo (stored svc m)
                     = <[Media_ID m := json_Marshal (Media_Meta m)]> (metaRepo svc)).
    { unfold stored, blob.Exists; cbn [metaRepo]. rewrite Hm. reflexivity. }
    rewrite Hmeta' in Hbody.
    destruct (String.eqb_spec id (Media_ID m)) as [Heq|Hne].
    + rewrite Heq, lookup_insert_eq in Hbody.
      assert (Hb : json_Marshal (Media_Meta m) = body).
      { exact (f_equal (default body) Hbody). }
      unfold round_trips in Hjson. rewrite <- Hb, Hjson in HM.
      assert (HMeq : Media_Meta m = M).
      { exact (f_equal (default M) HM). }
      rewrite <- HMeq. split.
      * apply stored_data_there.
      * rewrite Heq. change (Hash (Media_Meta m)) with (Media_Hash m).
        rewrite Hrefs. apply in_or_app. right. left. reflexivity.
    + rewrite lookup_insert_ne in Hbody by (intros Hx; apply Hne; now rewrite Hx).
      destruct (Hinv id body M Hbody HM Hid) as [Hd Hin].
      split; [apply Hgrow, Hd|].
      destruct (String.eqb_spec (Hash M) (Media_Hash m)) as [Heq|Hneq].
      * rewrite Heq in Hin |- *. rewrite Hrefs. apply in_or_app. left. exact Hin.
      * rewrite (backrefs_at_eq svc (stored svc m)); [exact Hin|].
        apply stored_backref_other, Hneq.
Qed.

(** X7: [Store] keeps the references whole: if every stored meta had its data
    blob and its backref entry before, the same holds after, given that the
    meta of the new media survives its JSON encoding. *)
Theorem Store_keeps_references (svc : BlobMediaService) (data : slice)
    (meta0 : MediaMeta) :
  let m := NewMedia data meta0 in
  round_trips (Media_Meta m) ->
  referenced svc ->
  referenced (fst (Store svc m)).
Proof.
  intros m Hjson Hinv.
  destruct (Z.lt_ge_cases (Svc_MaxSize svc) (Media_Size m)) as [Hlt|Hle].
  - rewrite (Store_rejects _ _ Hlt). exact Hinv.
  - rewrite (Store_accepts _ _ Hle). cbn [fst].
    apply stored_referenced; assumption.
Qed.

(** X8: [Delete] by the owner keeps the references whole as well, and succeeds
    whenever they are: the deleted media's data blob is removed only when no
    other stored meta refers to it. *)
Theorem Delete_keeps_references (svc : BlobMediaService) (ctx : context_.Context)
    (M : MediaMeta) (body : list byte) :
  metaRepo svc !! MetaID M = Some body ->
  json_Unmarshal body = Some M ->
  context_.username ctx = Some (Owner M) ->
  referenced svc ->
  snd (snd (Delete svc ctx (MetaID M))) = None /\
  referenced (fst (Delete svc ctx (MetaID M))).
Proof.
  intros Hblob Hmeta Hctx Hinv.
  destruct (Hinv _ _ _ Hblob Hmeta eq_refl) as [Hdata Hin].
  assert (Hrefs : exists refs, backrefRepo svc !! Hash M = Some refs).
  { rewrite backrefs_at_lookup in Hin.
    destruct (backrefRepo svc !! Hash M) as [refs|]; [eexists; reflexivity|destruct Hin]. }
  destruct Hrefs as [refs Hrefs].
  rewrite (Delete_owner_result _ _ _ _ _ Hblob Hmeta Hctx Hdata Hrefs).
  cbn [fst snd]. split; [reflexivity|].
  set (kept := drop_id (MetaID M) (backrefs_at svc (Hash M))).
  intros id body' M' Hbody' HM' Hid'.
  unfold deleted in Hbody'; cbn [metaRepo] in Hbody'.
  destruct (String.eqb_spec id (MetaID M)) as [Heq|Hne].
  { rewrite Heq, lookup_delete_eq in Hbody'. discriminate Hbody'. }
  rewrite lookup_delete_ne in Hbody' by (intros Hx; apply Hne; now rewrite Hx).
  destruct (Hinv id body' M' Hbody' HM' Hid') as [Hd' Hin'].
  destruct (String.eqb_spec (Hash M') (Hash M)) as [Heq|Hneq].
  - (* the other meta shares the content: it stays in the list *)
    rewrite Heq in Hd', Hin' |- *.
    assert (Hkept : In id kept).
    { subst kept. unfold drop_id. apply filter_In. split; [exact Hin'|].
      apply negb_true_iff. apply String.eqb_neq. exact Hne. }
    assert (Hlast : (length kept =? 0)%nat = false).
    { destruct kept; [destruct Hkept|reflexivity]. }
    split.
    + unfold deleted. rewrite Hlast. exact Hd'.
    + rewrite backrefs_at_lookup. unfold deleted. rewrite Hlast. cbn [backrefRepo].
      rewrite lookup_insert_eq, read_written_ids; [exact Hkept| |].
      * intros Hnil. rewrite Hnil in Hkept. destruct Hkept.
      * apply drop_id_one_line, backrefs_at_one_line.
  - assert (Hneq' : Hash M <> Hash M') by (intros Hx; apply Hneq; now rewrite Hx).
    split.
    + unfold deleted; cbn [dataRepo].
      destruct (length kept =? 0)%nat; [|exact Hd'].
      rewrite lookup_delete_ne by exact Hneq'. exact Hd'.
    + rewrite backrefs_at_lookup. unfold deleted; cbn [backrefRepo].
      rewrite backrefs_at_lookup in Hin'.
      destruct (length kept =? 0)%nat.
      * rewrite lookup_delete_ne by exact Hneq'. exact Hin'.
      * rewrite lookup_insert_ne by exact Hneq'. exact Hin'.
Qed.

(** Splitting a blob into lines and joining them again gives the blob. *)
Lemma Join_Split b : bytes.Join (bytes.Split b) = b.
Proof.
  induction b as [|c b IH]; [reflexivity|].
  cbn [bytes.Split].
  destruct (Byte.eqb c bytes.newline) eqn:Hc.
  - apply Byte.byte_dec_bl in Hc. subst c.
    pose proof (Split_not_nil b) as Hne.
    destruct (bytes.Split b) as [|cur rest]; [congruence|].
    change (bytes.Join ([] :: cur :: rest)) with (bytes.newline :: bytes.Join (cur :: rest)).
    now rewrite IH.
  - pose proof (Split_not_nil b) as Hne.
    destruct (bytes.Split b) as [|cur rest]; [congruence|].
    destruct rest as [|next rest].
    + cbn [bytes.Join] in *. now rewrite IH.
    + change (bytes.Join ((c :: cur) :: next :: rest))
        with (c :: bytes.Join (cur :: next :: rest)).
      now rewrite IH.
Qed.

Lemma drop_id_absent id refs : ~ In id refs -> drop_id id refs = refs.
Proof.
  unfold drop_id. induction refs as [|r refs IH]; [reflexivity|].
  intros Hnot. cbn [List.filter].
  destruct (String.eqb_spec r id) as [Heq|Hne]; cbn [negb].
  - exfalso. apply Hnot. left. exact Heq.
  - f_equal. apply IH. intros Hin. apply Hnot. right. exact Hin.
Qed.

Lemma drop_id_app id l1 l2 :
  drop_id id (l1 ++ l2) = (drop_id id l1 ++ drop_id id l2)%list.
Proof. unfold drop_id. apply List.filter_app. Qed.

(** X9: a media that is stored and then deleted by its owner leaves no trace:
    the three repositories are exactly as before the [Store], when the id
    was new to the store and the data blob of its content was there exactly
    when its backref blob was. *)
Theorem Store_then_Delete_restores (svc : BlobMediaService)
    (ctx : context_.Context) (data : slice) (meta0 : MediaMeta) :
  let m := NewMedia data meta0 in
  Media_Size m <= Svc_MaxSize svc ->
  round_trips (Media_Meta m) ->
  context_.username ctx = Some (Owner meta0) ->
  metaRepo svc !! Media_ID m = None ->
  ~ In (Media_ID m) (backrefs_at svc (Media_Hash m)) ->
  blob.Exists (dataRepo svc) (Media_Hash m)
    = blob.Exists (backrefRepo svc) (Media_Hash m) ->
  snd (Store svc m) = None /\
  Delete (fst (Store svc m)) ctx (Media_ID m)
    = (svc, (negb (blob.Exists (dataRepo svc) (Media_Hash m)), Media_Hash m, None)).
Proof.
  intros m Hsize Hjson Hctx Hfresh Hnot Hpair.
  rewrite (Store_accepts _ _ Hsize). cbn [fst snd]. split; [reflexivity|].
  set (M := Media_Meta m).
  assert (Hmeta : metaRepo (stored svc m) !! MetaID M = Some (json_Marshal M)).
  { unfold stored, blob.Exists; cbn [metaRepo].
    change (MetaID M) with (Media_ID m). rewrite Hfresh; cbn [negb].
    apply lookup_insert_eq. }
  assert (Hrefs : backrefRepo (stored svc m) !! Hash M
            = Some (bytes.Join (List.map gostr.bytes_of
                      (backrefs_at svc (Media_Hash m) ++ [Media_ID m])%list))).
  { unfold stored, blob.Exists; cbn [backrefRepo].
    rewrite Hfresh; cbn [negb]. apply lookup_insert_eq. }
  change (Media_ID m) with (MetaID M) at 1.
  rewrite (Delete_owner_result (stored svc m) ctx M _ _ Hmeta Hjson Hctx
             (stored_data_there svc m) Hrefs).
  change (Hash M) with (Media_Hash m). change (MetaID M) with (Media_ID m).
  pose proof (stored_backrefs_new svc data meta0 Hfresh) as Hlist.
  fold m in Hlist. rewrite Hlist.
  assert (Hkept : drop_id (Media_ID m) (backrefs_at svc (Media_Hash m) ++ [Media_ID m])
                  = backrefs_at svc (Media_Hash m)).
  { rewrite drop_id_app, (drop_id_absent _ _ Hnot).
    unfold drop_id. cbn [List.filter]. rewrite String.eqb_refl. cbn [negb].
    apply app_nil_r. }
  rewrite Hkept. clear Hkept.
  unfold deleted.
  change (Hash M) with (Media_Hash m). change (MetaID M) with (Media_ID m).
  unfold stored; cbn [dataRepo metaRepo backrefRepo cfg].
  unfold blob.Exists in Hpair |- *. rewrite Hfresh; cbn [negb].
  rewrite (delete_insert_id _ _ _ Hfresh).
  rewrite backrefs_at_lookup in Hnot |- *.
  destruct (backrefRepo svc !! Media_Hash m) as [refs|] eqn:Hb.
  - destruct (dataRepo svc !! Media_Hash m) as [body|] eqn:Hd; [|discriminate Hpair].
    pose proof (Split_not_nil refs) as Hne.
    destruct (List.map gostr.of_bytes (bytes.Split refs)) as [|r rest] eqn:Hl.
    { destruct (bytes.Split refs); [congruence|discriminate Hl]. }
    cbn [length Nat.eqb negb]. rewrite <- Hl.
    rewrite insert_insert_eq.
    rewrite List.map_map, (List.map_ext _ (fun x => x)) by apply bytes_of_of_bytes.
    rewrite List.map_id, Join_Split, (insert_id _ _ _ Hb).
    destruct svc; reflexivity.
  - destruct (dataRepo svc !! Media_Hash m) as [body|] eqn:Hd; [discriminate Hpair|].
    cbn [length Nat.eqb negb].
    rewrite (delete_insert_id _ _ _ Hd), (delete_insert_id _ _ _ Hb).
    destruct svc; reflexivity.
Qed.

(** X10: deleting one media leaves every other media as it was for its owner:
    what [Fetch] returned for another id before, it returns after, when
    that media is referenced in the backref list of its content. *)
Theorem Delete_leaves_others (svc : BlobMediaService) (ctx ctx' : context_.Context)
    (M M' : MediaMeta) (body body' refs : list byte) (id' : MediaID) :
  metaRepo svc !! MetaID M = Some body ->
  json_Unmarshal body = Some M ->
  context_.username ctx = Some (Owner M) ->
  is_Some (dataRepo svc !! Hash M) ->
  backrefRepo svc !! Hash M = Some refs ->
  id' <> MetaID M ->
  metaRepo svc !! id' = Some body' ->
  json_Unmarshal body' = Some M' ->
  In id' (backrefs_at svc (Hash M')) ->
  Fetch (fst (Delete svc ctx (MetaID M))) ctx' id' = Fetch svc ctx' id'.
Proof.
  intros Hblob Hmeta Hctx Hdata Hrefs Hne Hblob' Hmeta' Hin'.
  rewrite (Delete_owner_result _ _ _ _ _ Hblob Hmeta Hctx Hdata Hrefs).
  cbn [fst].
  set (kept := drop_id (MetaID M) (backrefs_at svc (Hash M))).
  unfold Fetch, blob.Fetch, NewMediaMetaFromBlob, deleted; cbn [metaRepo dataRepo].
  rewrite lookup_delete_ne by (intros Hx; apply Hne; now rewrite Hx).
  rewrite Hblob'. cbn [Blob_Bytes Body]. rewrite Hmeta'.
  destruct (context_.UsernameFromContext ctx') as [username ok].
  destruct (negb ok || negb (String.eqb username (Owner M'))); [reflexivity|].
  destruct (String.eqb_spec (Hash M') (Hash M)) as [Heq|Hneq].
  - assert (Hkept : In id' kept).
    { subst kept. unfold drop_id. apply filter_In. split.
      - rewrite <- Heq. exact Hin'.
      - apply negb_true_iff. apply String.eqb_neq. exact Hne. }
    destruct kept as [|k kept]; [destruct Hkept|]. reflexivity.
  - destruct (length kept =? 0)%nat; [|reflexivity].
    rewrite lookup_delete_ne by (intros Hx; apply Hneq; now rewrite Hx).
    reflexivity.
Qed.

(** X11: when the backref blob of the content is missing, [Delete] by the owner
    is not atomic: the data blob is deleted, then the delete of the backref
    blob fails; the error is returned and the meta blob stays, so that a
    later [Fetch] of the media finds its meta but no data. *)
Theorem Delete_without_backrefs (svc : BlobMediaService) (ctx : context_.Context)
    (M : MediaMeta) (body : list byte) :
  metaRepo svc !! MetaID M = Some body ->
  json_Unmarshal body = Some M ->
  context_.username ctx = Some (Owner M) ->
  is_Some (dataRepo svc !! Hash M) ->
  backrefRepo svc !! Hash M = None ->
  let after := with_data svc (delete (Hash M) (dataRepo svc)) in
  (exists err, Delete svc ctx (MetaID M) = (after, (false, Hash M, Some err)) /\
               errors.Is err ErrNotExist) /\
  (exists err, Fetch after ctx (MetaID M) = inr err /\ errors.Is err ErrNotExist).
Proof.
  intros Hblob Hmeta Hctx [content Hdata] Hrefs after.
  split.
  - unfold Delete, fetchMeta, blob.Fetch, NewMediaMetaFromBlob,
      context_.UsernameFromContext.
    rewrite Hblob. cbn [Blob_Bytes Body]. rewrite Hmeta, Hctx.
    rewrite String.eqb_refl. cbn [negb orb].
    unfold pruneMedia. rewrite fetchBackrefs_ok, backrefs_at_lookup, Hrefs.
    cbn [drop_id List.filter length Nat.eqb].
    unfold blob.Delete. rewrite Hdata. cbn [with_data backrefRepo]. rewrite Hrefs.
    eexists. split; reflexivity.
  - unfold Fetch, blob.Fetch, NewMediaMetaFromBlob, context_.UsernameFromContext.
    subst after. cbn [with_data metaRepo dataRepo].
    rewrite Hblob. cbn [Blob_Bytes Body]. rewrite Hmeta, Hctx.
    rewrite String.eqb_refl. cbn [negb orb]. rewrite lookup_delete_eq.
    eexists. split; reflexivity.
Qed.

End MediaServiceMore.

(** *** Worked instances *)

(** Nothing is stored, so nothing is referenced. *)
Lemma referenced_empty `{JSON} cfg : referenced (mediasvc.NewBlobMediaService cfg).
Proof. intros id body M Hbody. cbn in Hbody. now rewrite lookup_empty in Hbody. Qed.

(** The sample uploads fit the sample service and their metas survive the
    sample codec. *)
Lemma alice_stored :
  examples.store_all [examples.alice_hello]
    = stored (H := examples.json) examples.empty_svc examples.alice_hello.
Proof.
  unfold examples.store_all. cbn [fold_left].
  rewrite (Store_accepts (H := examples.json)); [reflexivity|].
  vm_compute. discriminate.
Qed.

Lemma alice_stored_referenced :
  referenced (H := examples.json) (examples.store_all [examples.alice_hello]).
Proof.
  rewrite alice_stored.
  apply (stored_referenced (H := examples.json) examples.empty_svc
           (Some (gostr.bytes_of "hello"))
           {| Filename := "hello.txt"; MetaID := ""; Hash := ""; Size := 0;
              Owner := "alice"; MIMEType := "text/plain" |}).
  - vm_compute. reflexivity.
  - apply referenced_empty.
Qed.

(** Bob has stored the bytes; Alice stores the same bytes and fetches them. *)
Lemma Store_then_Fetch_witness :
  let svc := examples.store_all [examples.bob_hello] in
  let m := examples.alice_hello in
  snd (mediasvc.Store (H := examples.json) svc m) = None /\
  mediasvc.Fetch (H := examples.json)
      (fst (mediasvc.Store (H := examples.json) svc m))
      (examples.as_user "alice") (Media_ID m)
    = inl {| data := Some (gostr.bytes_of "hello"); meta := Media_Meta m |}.
Proof.
  apply (Store_then_Fetch (H := examples.json)
           (examples.store_all [examples.bob_hello]) (examples.as_user "alice")
           (Some (gostr.bytes_of "hello"))
           {| Filename := "hello.txt"; MetaID := ""; Hash := ""; Size := 0;
              Owner := "alice"; MIMEType := "text/plain" |}).
  - vm_compute. discriminate.
  - vm_compute. reflexivity.
  - reflexivity.
  - intros b Hb. vm_compute in Hb. injection Hb as <-. reflexivity.
  - intros b Hb. vm_compute in Hb. discriminate Hb.
Defined.

(** Bob asks for Alice's media. *)
Lemma other_user_is_unauthorized_witness :
  let svc := examples.store_all [examples.alice_hello] in
  let ctx := examples.as_user "bob" in
  let id := Media_ID examples.alice_hello in
  (exists err, mediasvc.Fetch (H := examples.json) svc ctx id = inr err /\
               errors.Is err ErrUnauthorized) /\
  (exists err, mediasvc.Delete (H := examples.json) svc ctx id
                 = (svc, (false, "", Some err)) /\
               errors.Is err ErrUnauthorized).
Proof.
  apply (other_user_is_unauthorized (H := examples.json)
           (examples.store_all [examples.alice_hello]) (examples.as_user "bob")
           (Media_ID examples.alice_hello)
           (examples.plain_Marshal (Media_Meta examples.alice_hello))
           (Media_Meta examples.alice_hello) "bob").
  - vm_compute. reflexivity.
  - vm_compute. reflexivity.
  - reflexivity.
  - vm_compute. discriminate.
Defined.

(** An id that was never stored, asked for without a user name. *)
Lemma absent_media_is_not_found_witness :
  let svc := examples.store_all [examples.alice_hello] in
  let id := Media_ID examples.bob_hello in
  (exists err, mediasvc.Fetch (H := examples.json) svc context_.Background id = inr err /\
               errors.Is err ErrNotExist) /\
  (exists err, mediasvc.Delete (H := examples.json) svc context_.Background id
                 = (svc, (false, "", Some err)) /\
               errors.Is err ErrNotExist).
Proof.
  apply (absent_media_is_not_found (H := examples.json)
           (examples.store_all [examples.alice_hello]) context_.Background
           (Media_ID examples.bob_hello)).
  vm_compute. reflexivity.
Defined.

(** Alice deletes her media and asks for it again. *)
Lemma Delete_then_not_found_witness :
  let svc := examples.store_all [examples.alice_hello] in
  let ctx := examples.as_user "alice" in
  let id := Media_ID examples.alice_hello in
  let after := fst (mediasvc.Delete (H := examples.json) svc ctx id) in
  snd (snd (mediasvc.Delete (H := examples.json) svc ctx id)) = None /\
  (exists err, mediasvc.Fetch (H := examples.json) after ctx id = inr err /\
               errors.Is err ErrNotExist) /\
  (exists err, mediasvc.Delete (H := examples.json) after ctx id
                 = (after, (false, "", Some err)) /\
               errors.Is err ErrNotExist).
Proof.
  apply (Delete_then_not_found (H := examples.json)
           (examples.store_all [examples.alice_hello]) (examples.as_user "alice")
           (Media_Meta examples.alice_hello)
           (examples.plain_Marshal (Media_Meta examples.alice_hello))
           (gostr.bytes_of (Media_ID examples.alice_hello))).
  - vm_compute. reflexivity.
  - vm_compute. reflexivity.
  - reflexivity.
  - vm_compute. eexists. reflexivity.
  - vm_compute. reflexivity.
Defined.

(** Bob stores the bytes that Alice has stored. *)
Lemma Store_keeps_references_witness :
  referenced (H := examples.json)
    (fst (mediasvc.Store (H := examples.json)
            (examples.store_all [examples.alice_hello]) examples.bob_hello)).
Proof.
  apply (Store_keeps_references (H := examples.json)
           (examples.store_all [examples.alice_hello])
           (Some (gostr.bytes_of "hello"))
           {| Filename := "hello.txt"; MetaID := ""; Hash := ""; Size := 0;
              Owner := "bob"; MIMEType := "text/plain" |}).
  - vm_compute. reflexivity.
  - exact alice_stored_referenced.
Defined.

(** Alice deletes the only media of the store. *)
Lemma Delete_keeps_references_witness :
  let svc := examples.store_all [examples.alice_hello] in
  let ctx := examples.as_user "alice" in
  let id := Media_ID examples.alice_hello in
  snd (snd (mediasvc.Delete (H := examples.json) svc ctx id)) = None /\
  referenced (H := examples.json) (fst (mediasvc.Delete (H := examples.json) svc ctx id)).
Proof.
  apply (Delete_keeps_references (H := examples.json)
           (examples.store_all [examples.alice_hello]) (examples.as_user "alice")
           (Media_Meta examples.alice_hello)
           (examples.plain_Marshal (Media_Meta examples.alice_hello))).
  - vm_compute. reflexivity.
  - vm_compute. reflexivity.
  - reflexivity.
  - exact alice_stored_referenced.
Defined.

(** Alice stores the bytes that Bob has stored, and deletes her media. *)
Lemma Store_then_Delete_restores_witness :
  let svc := examples.store_all [examples.bob_hello] in
  let m := examples.alice_hello in
  snd (mediasvc.Store (H := examples.json) svc m) = None /\
  mediasvc.Delete (H := examples.json)
      (fst (mediasvc.Store (H := examples.json) svc m))
      (examples.as_user "alice") (Media_ID m)
    = (svc, (negb (blob.Exists (mediasvc.dataRepo svc) (Media_Hash m)),
             Media_Hash m, None)).
Proof.
  apply (Store_then_Delete_restores (H := examples.json)
           (examples.store_all [examples.bob_hello]) (examples.as_user "alice")
           (Some (gostr.bytes_of "hello"))
           {| Filename := "hello.txt"; MetaID := ""; Hash := ""; Size := 0;
              Owner := "alice"; MIMEType := "text/plain" |}).
  - vm_compute. discriminate.
  - vm_compute. reflexivity.
  - reflexivity.
  - vm_compute. reflexivity.
  - vm_compute. intros [Heq|[]]. discriminate Heq.
  - vm_compute. reflexivity.
Defined.

(** Alice and Bob have stored the same bytes; Bob deletes his media and
    Alice fetches hers. *)
Lemma Delete_leaves_others_witness :
  let svc := examples.store_all [examples.alice_hello; examples.bob_hello] in
  mediasvc.Fetch (H := examples.json)
      (fst (mediasvc.Delete (H := examples.json) svc (examples.as_user "bob")
              (Media_ID examples.bob_hello)))
      (examples.as_user "alice") (Media_ID examples.alice_hello)
    = mediasvc.Fetch (H := examples.json) svc (examples.as_user "alice")
        (Media_ID examples.alice_hello).
Proof.
  apply (Delete_leaves_others (H := examples.json)
           (examples.store_all [examples.alice_hello; examples.bob_hello])
           (examples.as_user "bob") (examples.as_user "alice")
           (Media_Meta examples.bob_hello) (Media_Meta examples.alice_hello)
           (examples.plain_Marshal (Media_Meta examples.bob_hello))
           (examples.plain_Marshal (Media_Meta examples.alice_hello))
           (bytes.Join (List.map gostr.bytes_of
              [Media_ID examples.alice_hello; Media_ID examples.bob_hello]))
           (Media_ID examples.alice_hello)).
  - vm_compute. reflexivity.
  - vm_compute. reflexivity.
  - reflexivity.
  - vm_compute. eexists. reflexivity.
  - vm_compute. reflexivity.
  - vm_compute. discriminate.
  - vm_compute. reflexivity.
  - vm_compute. reflexivity.
  - vm_compute. left. reflexivity.
Defined.

(** The backref blob of Alice's content has been removed. *)
Lemma Delete_without_backrefs_witness :
  let svc := mediasvc.with_backref (examples.store_all [examples.alice_hello]) ∅ in
  let ctx := examples.as_user "alice" in
  let M := Media_Meta examples.alice_hello in
  let after := mediasvc.with_data svc (delete (Hash M) (mediasvc.dataRepo svc)) in
  (exists err, mediasvc.Delete (H := examples.json) svc ctx (MetaID M)
                 = (after, (false, Hash M, Some err)) /\
               errors.Is err ErrNotExist) /\
  (exists err, mediasvc.Fetch (H := examples.json) after ctx (MetaID M) = inr err /\
               errors.Is err ErrNotExist).
Proof.
  apply (Delete_without_backrefs (H := examples.json)
           (mediasvc.with_backref (examples.store_all [examples.alice_hello]) ∅)
           (examples.as_user "alice") (Media_Meta examples.alice_hello)
           (examples.plain_Marshal (Media_Meta examples.alice_hello))).
  - vm_compute. reflexivity.
  - vm_compute. reflexivity.
  - reflexivity.
  - vm_compute. eexists. reflexivity.
  - reflexivity.
Defined.

(** ** Crockford Base32: the encoding as a numeral *)

Section CrockfordNumeral.
Import encoding.

Lemma byte_val_range x : 0 <= gostr.byte_val x < 256.
Proof.
  unfold gostr.byte_val. pose proof (Byte.to_N_bounded x). lia.
Qed.

Lemma big_endian_snoc p x : big_endian (p ++ [x]) = big_endian p * 256 + gostr.byte_val x.
Proof. unfold big_endian. now rewrite fold_left_app. Qed.

Lemma int_wrap_mod z : int_wrap z mod 2 ^ 64 = z mod 2 ^ 64.
Proof.
  unfold int_wrap.
  rewrite <- Zminus_mod_idemp_l, Z.mod_mod by lia.
  rewrite Zminus_mod_idemp_l. f_equal. lia.
Qed.

(** Bits below the 64th do not see the wrap-around. *)
Lemma low_bits_eq a v s :
  a mod 2 ^ 64 = v mod 2 ^ 64 -> 0 <= s <= 59 ->
  (a / 2 ^ s) mod 32 = (v / 2 ^ s) mod 32.
Proof.
  intros Hav Hs. change 32 with (2 ^ 5).
  apply Z.bits_inj'. intros n Hn.
  destruct (Z.lt_ge_cases n 5) as [Hlt|Hge].
  - rewrite !Z.mod_pow2_bits_low, !Z.div_pow2_bits by lia.
    rewrite <- (Z.mod_pow2_bits_low a 64), <- (Z.mod_pow2_bits_low v 64) by lia.
    now rewrite Hav.
  - now rewrite !Z.mod_pow2_bits_high by lia.
Qed.

Lemma digit_index a v s :
  a mod 2 ^ 64 = v mod 2 ^ 64 -> 0 <= s <= 59 ->
  Z.land (Z.shiftr a s) 31 = (v / 2 ^ s) mod 32.
Proof.
  intros Hav Hs. change 31 with (Z.ones 5).
  rewrite Z.land_ones, Z.shiftr_div_pow2 by lia.
  now apply low_bits_eq.
Qed.

(** The loop that writes the digits, on a state whose pending bits are the
    low bits of [v]. *)
Lemma drain_numeral fuel : forall st v j,
  0 <= bits st <= 12 ->
  bits st <= Z.of_nat fuel ->
  accum st mod 2 ^ 64 = v mod 2 ^ 64 ->
  result st = digits j (v / 2 ^ bits st) ->
  bits (drain fuel st) = bits st mod 5 /\
  accum (drain fuel st) = accum st /\
  result (drain fuel st)
    = digits (j + Z.to_nat (bits st / 5)) (v / 2 ^ (bits st mod 5)).
Proof.
  induction fuel as [|fuel IH]; intros st v j Hb Hfuel Hacc Hres.
  - assert (Hz : bits st = 0) by lia.
    cbn [drain]. rewrite Hz in *. cbn. rewrite Nat.add_0_r. auto.
  - cbn [drain]. destruct (Z.leb_spec 5 (bits st)) as [Hge|Hlt].
    + set (st2 := {| result := _; bits := _; accum := _ |}).
      assert (Hres2 : result st2 = digits (S j) (v / 2 ^ bits st2)).
      { subst st2. cbn [result bits digits]. unfold write_digit.
        rewrite (digit_index _ v) by (assumption || lia).
        rewrite Z.div_div by lia.
        replace (2 ^ (bits st - 5) * 32) with (2 ^ bits st).
        2:{ change 32 with (2 ^ 5). rewrite <- Z.pow_add_r by lia. f_equal. lia. }
        now rewrite Hres. }
      destruct (IH st2 v (S j)) as (Hb' & Ha' & Hr'); subst st2; cbn [bits accum] in *;
        try lia; try assumption.
      assert (Hmod : (bits st - 5) mod 5 = bits st mod 5).
      { replace (bits st - 5) with (bits st + (-1) * 5) by lia.
        now rewrite Z.mod_add by lia. }
      assert (Hdiv : (bits st - 5) / 5 = bits st / 5 - 1).
      { replace (bits st - 5) with (bits st + (-1) * 5) by lia.
        rewrite Z.div_add by lia. lia. }
      rewrite Hb', Ha', Hr', Hmod, Hdiv. repeat split.
      f_equal. assert (1 <= bits st / 5) by (apply Z.div_le_lower_bound; lia). lia.
    + rewrite Z.mod_small, Z.div_small by lia.
      cbn. rewrite Nat.add_0_r. auto.
Qed.

Lemma lor_low y x :
  y mod 256 = 0 -> 0 <= x < 256 -> Z.lor y x = y + x.
Proof.
  intros Hy Hx.
  rewrite <- Z.lxor_lor, <- Z.add_nocarry_lxor; try reflexivity.
  all: apply Z.bits_inj'; intros n Hn; rewrite Z.land_spec, Z.bits_0.
  all: destruct (Z.lt_ge_cases n 8) as [Hlt|Hge].
  all: try (rewrite <- (Z.mod_pow2_bits_low y 8) by lia;
            change (2 ^ 8) with 256; rewrite Hy, Z.bits_0; reflexivity).
  all: assert (Hhigh : Z.testbit x n = false);
       [|rewrite Hhigh; apply andb_false_r].
  all: destruct (Z.eq_dec x 0) as [->|Hnz]; [apply Z.bits_0|].
  all: apply Z.bits_above_log2; [lia|].
  all: apply Z.log2_lt_pow2; [lia|].
  all: apply Z.lt_le_trans with (2 ^ 8); [change (2 ^ 8) with 256; lia|].
  all: apply Z.pow_le_mono_r; lia.
Qed.

Lemma feed_encoded st p x : encoded st p -> encoded (feed st x) (p ++ [x]).
Proof.
  unfold encoded. cbv zeta. intros (Hb & Hacc & Hres).
  pose proof (byte_val_range x) as Hx.
  assert (Hrange : 0 <= bits st < 5).
  { rewrite Hb. apply Z.mod_pos_bound. lia. }
  set (v := big_endian (p ++ [x])).
  assert (Hv : v = big_endian p * 256 + gostr.byte_val x) by apply big_endian_snoc.
  set (st1 := {| result := result st; bits := bits st + 8;
                 accum := int_wrap (Z.lor (int_wrap (Z.shiftl (accum st) 8))
                                          (gostr.byte_val x)) |}).
  assert (Hacc1 : accum st1 mod 2 ^ 64 = v mod 2 ^ 64).
  { subst st1. cbn [accum]. rewrite int_wrap_mod.
    rewrite lor_low; [|  |exact Hx].
    - rewrite <- Zplus_mod_idemp_l, int_wrap_mod, Zplus_mod_idemp_l.
      rewrite Z.shiftl_mul_pow2 by lia. change (2 ^ 8) with 256.
      rewrite Hv, <- Zplus_mod_idemp_l, <- Zmult_mod_idemp_l, Hacc.
      now rewrite Zmult_mod_idemp_l, Zplus_mod_idemp_l.
    - rewrite Z.shiftl_mul_pow2 by lia. unfold int_wrap.
      change (2 ^ 8) with 256.
      replace (2 ^ 64) with (256 * 2 ^ 56) by reflexivity.
      replace (2 ^ 63) with (256 * 2 ^ 55) by reflexivity.
      rewrite Z.rem_mul_r by lia.
      replace (accum st * 256 + 256 * 2 ^ 55)
        with ((accum st + 2 ^ 55) * 256) by lia.
      rewrite Z.mod_mul by lia.
      match goal with |- (0 + 256 * ?q - 256 * ?r) mod 256 = 0 =>
        replace (0 + 256 * q - 256 * r) with ((q - r) * 256) by lia end.
      apply Z.mod_mul. lia. }
  assert (Hres1 : result st1
            = digits (Z.to_nat (8 * Z.of_nat (length p) / 5)) (v / 2 ^ bits st1)).
  { subst st1. cbn [result bits]. rewrite Hres. f_equal.
    replace (2 ^ (bits st + 8)) with (256 * 2 ^ bits st).
    2:{ rewrite Z.pow_add_r by lia. change (2 ^ 8) with 256. lia. }
    rewrite <- Z.div_div by lia.
    f_equal. rewrite Hv. rewrite Z.div_add_l by lia.
    rewrite (Z.div_small (gostr.byte_val x)) by lia. lia. }
  assert (Hb1 : 0 <= bits st1 <= 12) by (subst st1; cbn [bits]; lia).
  assert (Hf1 : bits st1 <= Z.of_nat (Z.to_nat (bits st1))) by lia.
  destruct (drain_numeral (Z.to_nat (bits st1)) st1 v _ Hb1 Hf1 Hacc1 Hres1)
    as (Hb' & Ha' & Hr').
  unfold feed. fold st1.
  change (drain (Z.to_nat (bits st + 8)) st1) with (drain (Z.to_nat (bits st1)) st1).
  rewrite length_app. cbn [length].
  replace (8 * Z.of_nat (length p + 1)) with (8 * Z.of_nat (length p) + 8) by lia.
  set (n := 8 * Z.of_nat (length p)) in *.
  assert (Hn : 0 <= n) by (subst n; lia).
  assert (Hbits1 : bits st1 = n mod 5 + 8) by (subst st1; cbn [bits]; lia).
  assert (Hmod : (n + 8) mod 5 = (n mod 5 + 8) mod 5).
  { now rewrite Zplus_mod_idemp_l. }
  assert (Hdiv : (n + 8) / 5 = n / 5 + (n mod 5 + 8) / 5).
  { rewrite (Z.div_mod n 5) at 1 by lia.
    replace (5 * (n / 5) + n mod 5 + 8) with (n / 5 * 5 + (n mod 5 + 8)) by lia.
    rewrite Z.div_add_l by lia. reflexivity. }
  rewrite Hb', Ha', Hr', Hbits1, Hmod, Hdiv. repeat split.
  - exact Hacc1.
  - f_equal. rewrite Z2Nat.inj_add; [reflexivity| |].
    + apply Z.div_pos; lia.
    + apply Z.div_pos; lia.
Qed.

Lemma fold_feed_encoded input : forall st p,
  encoded st p -> encoded (fold_left feed input st) (p ++ input).
Proof.
  induction input as [|x input IH]; intros st p Hst.
  - now rewrite app_nil_r.
  - cbn [fold_left]. replace (p ++ x :: input)%list with ((p ++ [x]) ++ input)%list.
    + apply IH, feed_encoded, Hst.
    + now rewrite <- app_assoc.
Qed.

Lemma digit_count_spec n :
  let bits := 8 * Z.of_nat n in
  digit_count n = Z.to_nat (bits / 5 + (if 0 <? bits mod 5 then 1 else 0)).
Proof.
  cbv zeta. unfold digit_count. f_equal.
  set (b := 8 * Z.of_nat n).
  pose proof (Z.div_mod b 5 ltac:(lia)) as Hdm.
  pose proof (Z.mod_pos_bound b 5 ltac:(lia)) as Hr.
  destruct (Z.ltb_spec 0 (b mod 5)).
  - symmetry. apply Z.div_unique with (r := b mod 5 - 1); lia.
  - symmetry. apply Z.div_unique with (r := 4); lia.
Qed.

(** The string that the encoder writes, before it is put in lower case:
    the bits of the input, filled up with zero bits to whole groups of
    five, as a base-32 numeral. *)
Lemma flush_numeral input :
  let n := length input in
  flush (fold_left feed input {| result := ""; bits := 0; accum := 0 |})
    = digits (digit_count n)
        (big_endian input * 2 ^ (5 * Z.of_nat (digit_count n) - 8 * Z.of_nat n)).
Proof.
  cbv zeta.
  destruct (fold_feed_encoded input {| result := ""; bits := 0; accum := 0 |} [])
    as (Hb & Hacc & Hres).
  { repeat split. }
  cbn [app] in *.
  set (st := fold_left feed input _) in *.
  set (n := 8 * Z.of_nat (length input)) in *.
  assert (Hn : 0 <= n) by (subst n; lia).
  pose proof (Z.mod_pos_bound n 5 ltac:(lia)) as Hr.
  pose proof (Z.div_mod n 5 ltac:(lia)) as Hdm.
  assert (Hq : 0 <= n / 5) by (apply Z.div_pos; lia).
  rewrite digit_count_spec. fold n.
  unfold flush. rewrite Hb.
  destruct (Z.ltb_spec 0 (n mod 5)) as [Hpos|Hzero].
  - rewrite Z2Nat.id by lia.
    replace (5 * (n / 5 + 1) - n) with (5 - n mod 5) by lia.
    replace (Z.to_nat (n / 5 + 1)) with (S (Z.to_nat (n / 5))) by lia.
    cbn [digits]. unfold write_digit. rewrite Hres, Hb. f_equal.
    + f_equal. change 32 with (2 ^ 5).
      replace (2 ^ 5) with (2 ^ (5 - n mod 5) * 2 ^ (n mod 5)).
      2:{ rewrite <- Z.pow_add_r by lia. f_equal. lia. }
      rewrite (Z.mul_comm (big_endian input)), Z.div_mul_cancel_l; try reflexivity.
      all: apply Z.pow_nonzero; lia.
    + f_equal. f_equal. change 31 with (Z.ones 5).
      rewrite Z.land_ones by lia. change (2 ^ 5) with 32.
      assert (H32 : forall z, z mod 2 ^ 64 mod 32 = z mod 32).
      { intros z. replace (2 ^ 64) with (32 * 2 ^ 59) by reflexivity.
        rewrite Z.rem_mul_r by lia.
        rewrite (Z.mul_comm 32), Z.mod_add by lia. apply Z.mod_mod. lia. }
      rewrite <- H32, int_wrap_mod, H32.
      rewrite Z.shiftl_mul_pow2 by lia.
      rewrite <- Zmult_mod_idemp_l, <- (H32 (accum st)), Hacc, H32.
      now rewrite Zmult_mod_idemp_l.
  - assert (Hz : n mod 5 = 0) by lia.
    rewrite Z.add_0_r, Z2Nat.id by lia.
    replace (5 * (n / 5) - n) with 0 by lia.
    rewrite Hres, Hb, Hz. cbn [Z.pow]. now rewrite Z.div_1_r, Z.mul_1_r.
Qed.

Lemma length_digits k : forall v, String.length (digits k v) = k.
Proof.
  induction k as [|k IH]; intros v; cbn [digits]; [reflexivity|].
  rewrite length_append, IH. cbn [String.length]. lia.
Qed.

Lemma gostr_map_length f s : String.length (gostr.map f s) = String.length s.
Proof. induction s as [|c s IH]; cbn; [reflexivity|now rewrite IH]. Qed.

Lemma gostr_map_append f s t :
  gostr.map f (s +:+ t) = gostr.map f s +:+ gostr.map f t.
Proof. induction s as [|c s IH]; simpl; [reflexivity|]. rewrite IH. reflexivity. Qed.

Lemma snoc_inj s t c d :
  s +:+ String c "" = t +:+ String d "" -> s = t /\ c = d.
Proof.
  revert t. induction s as [|a s IH]; intros [|b t] Heq; cbn in Heq.
  - now injection Heq as ->.
  - injection Heq as _ Heq. destruct t; discriminate Heq.
  - injection Heq as _ Heq. destruct s; discriminate Heq.
  - injection Heq as -> Heq. destruct (IH _ Heq) as [-> ->]. auto.
Qed.

(** The place of a lowercase digit in the alphabet. *)
Lemma lower_digit_inj i j :
  0 <= i < 32 -> 0 <= j < 32 ->
  gostr.lower_char (gostr.at_ crockfordBase32Alphabet i)
    = gostr.lower_char (gostr.at_ crockfordBase32Alphabet j) ->
  i = j.
Proof.
  intros Hi Hj Heq.
  pose (place := fun c : ascii =>
    match List.find (fun p => Ascii.eqb c (snd p))
            (combine (seq 0 32) (list_ascii_of_string lc_alphabet)) with
    | Some p => Z.of_nat (fst p)
    | None => 0
    end).
  assert (Hplace : forall k, 0 <= k < 32 ->
            place (gostr.lower_char (gostr.at_ crockfordBase32Alphabet k)) = k).
  { intros k Hk. unfold gostr.at_.
    rewrite <- (Z2Nat.id k) at 2 by lia.
    remember (Z.to_nat k) as n eqn:Hn.
    assert (Hlt : (n < 32)%nat) by lia. clear Hn Hk.
    do 32 (destruct n as [|n]; [reflexivity|]). lia. }
  rewrite <- (Hplace i Hi), <- (Hplace j Hj). now rewrite Heq.
Qed.

Lemma lower_digits_inj k : forall v w,
  gostr.ToLower (digits k v) = gostr.ToLower (digits k w) ->
  v mod 32 ^ Z.of_nat k = w mod 32 ^ Z.of_nat k.
Proof.
  unfold gostr.ToLower.
  induction k as [|k IH]; intros v w Heq.
  - cbn. now rewrite !Z.mod_1_r.
  - cbn [digits] in Heq. rewrite !gostr_map_append in Heq. cbn [gostr.map] in Heq.
    apply snoc_inj in Heq as [Hhigh Hlow].
    apply IH in Hhigh.
    apply lower_digit_inj in Hlow; try (apply Z.mod_pos_bound; lia).
    rewrite Nat2Z.inj_succ, Z.pow_succ_r by lia.
    assert (Hpow : 0 < 32 ^ Z.of_nat k) by (apply Z.pow_pos_nonneg; lia).
    rewrite !Z.rem_mul_r by lia.
    now rewrite Hhigh, Hlow.
Qed.

Lemma digit_count_inj n m : digit_count n = digit_count m -> n = m.
Proof.
  unfold digit_count. intros Heq.
  apply Z2Nat.inj in Heq; try (apply Z.div_pos; lia).
  pose proof (Z.div_mod (8 * Z.of_nat n + 4) 5 ltac:(lia)).
  pose proof (Z.div_mod (8 * Z.of_nat m + 4) 5 ltac:(lia)).
  pose proof (Z.mod_pos_bound (8 * Z.of_nat n + 4) 5 ltac:(lia)).
  pose proof (Z.mod_pos_bound (8 * Z.of_nat m + 4) 5 ltac:(lia)).
  lia.
Qed.

Lemma big_endian_from b : forall a,
  fold_left (fun acc x => acc * 256 + gostr.byte_val x) b a
    = a * 256 ^ Z.of_nat (length b) + big_endian b.
Proof.
  unfold big_endian. induction b as [|x b IH]; intros a.
  - cbn. lia.
  - cbn [fold_left length]. rewrite IH, (IH (0 * 256 + gostr.byte_val x)).
    rewrite Nat2Z.inj_succ, Z.pow_succ_r by lia. lia.
Qed.

Lemma big_endian_range b : 0 <= big_endian b < 256 ^ Z.of_nat (length b).
Proof.
  induction b as [|x b IH] using rev_ind; [cbn; lia|].
  rewrite big_endian_snoc, length_app. cbn [length].
  pose proof (byte_val_range x).
  replace (Z.of_nat (length b + 1)) with (Z.succ (Z.of_nat (length b))) by lia.
  rewrite Z.pow_succ_r by lia. lia.
Qed.

Lemma byte_val_inj x y : gostr.byte_val x = gostr.byte_val y -> x = y.
Proof.
  unfold gostr.byte_val. intros Heq. apply N2Z.inj in Heq.
  apply (f_equal Byte.of_N) in Heq.
  rewrite !Byte.of_to_N in Heq. now injection Heq.
Qed.

Lemma big_endian_inj b : forall c,
  length b = length c -> big_endian b = big_endian c -> b = c.
Proof.
  induction b as [|x b IH]; intros [|y c] Hlen Hval; try discriminate Hlen.
  - reflexivity.
  - injection Hlen as Hlen.
    unfold big_endian in Hval. cbn [fold_left] in Hval.
    rewrite !big_endian_from, Hlen in Hval.
    pose proof (big_endian_range b) as Hb. pose proof (big_endian_range c) as Hc.
    rewrite Hlen in Hb.
    pose proof (byte_val_range x) as Hx. pose proof (byte_val_range y) as Hy.
    set (P := 256 ^ Z.of_nat (length c)) in *.
    assert (Hxy : gostr.byte_val x = gostr.byte_val y) by nia.
    assert (Hbc : big_endian b = big_endian c) by nia.
    f_equal; [now apply byte_val_inj|now apply IH].
Qed.

(** X12: the encoding is the base-32 numeral, in lower case, of the bits of the
    input: the bytes as one big-endian number, shifted left to a whole
    number of five-bit groups.  The 64-bit accumulator of the code
    overflows on inputs of more than eight bytes; the digits never look at
    the bits that are lost. *)
Theorem Encode_is_numeral (input : list byte) :
  let n := length input in
  EncodeCrockfordB32LC input
    = gostr.ToLower
        (digits (digit_count n)
           (big_endian input * 2 ^ (5 * Z.of_nat (digit_count n) - 8 * Z.of_nat n))).
Proof.
  cbv zeta. unfold EncodeCrockfordB32LC. now rewrite flush_numeral.
Qed.

(** X13: an input of n bytes is encoded in ceil(8n/5) characters: 52 for a
    SHA-256 digest. *)
Theorem Encode_length (input : list byte) :
  Z.of_nat (String.length (EncodeCrockfordB32LC input))
    = (8 * Z.of_nat (length input) + 4) / 5.
Proof.
  unfold EncodeCrockfordB32LC. rewrite flush_numeral.
  unfold gostr.ToLower. rewrite gostr_map_length, length_digits.
  unfold digit_count. apply Z2Nat.id. apply Z.div_pos; lia.
Qed.

(** X14: different byte sequences have different encodings. *)
Theorem Encode_injective (b c : list byte) :
  b <> c -> EncodeCrockfordB32LC b <> EncodeCrockfordB32LC c.
Proof.
  intros Hne Heq. apply Hne. clear Hne.
  unfold EncodeCrockfordB32LC in Heq. rewrite !flush_numeral in Heq.
  assert (Hlen : length b = length c).
  { apply digit_count_inj.
    apply (f_equal String.length) in Heq.
    unfold gostr.ToLower in Heq. now rewrite !gostr_map_length, !length_digits in Heq. }
  rewrite Hlen in Heq. apply lower_digits_inj in Heq.
  set (n := length c) in *.
  set (k := digit_count n) in *.
  set (fill := 5 * Z.of_nat k - 8 * Z.of_nat n) in *.
  assert (Hfill : 0 <= fill).
  { subst fill k. unfold digit_count. rewrite Z2Nat.id by (apply Z.div_pos; lia).
    pose proof (Z.div_mod (8 * Z.of_nat n + 4) 5 ltac:(lia)).
    pose proof (Z.mod_pos_bound (8 * Z.of_nat n + 4) 5 ltac:(lia)). lia. }
  assert (Hsmall : forall a, length a = n ->
            0 <= big_endian a * 2 ^ fill < 32 ^ Z.of_nat k).
  { intros a Ha. pose proof (big_endian_range a) as Hr. rewrite Ha in Hr.
    assert (Hp : 0 < 2 ^ fill) by (apply Z.pow_pos_nonneg; lia).
    replace (32 ^ Z.of_nat k) with (256 ^ Z.of_nat n * 2 ^ fill).
    - nia.
    - change 256 with (2 ^ 8). change 32 with (2 ^ 5).
      rewrite <- !Z.pow_mul_r, <- Z.pow_add_r by lia. f_equal. lia. }
  rewrite !Z.mod_small in Heq by (apply Hsmall; auto).
  apply big_endian_inj; [exact Hlen|].
  apply Z.mul_reg_r in Heq; [exact Heq|].
  apply Z.pow_nonzero; lia.
Qed.

End CrockfordNumeral.

(** One byte and the same byte followed by a zero byte. *)
Lemma Encode_injective_witness :
  encoding.EncodeCrockfordB32LC [xf5] <> encoding.EncodeCrockfordB32LC [xf5; x00].
Proof.
  apply (Encode_injective [xf5] [xf5; x00]). discriminate.
Defined.

(** ** Crockford Base32: what the normal form forgets *)

Section CrockfordNormal.
Import encoding.

Lemma gostr_map_map f g s : gostr.map f (gostr.map g s) = gostr.map (fun c => f (g c)) s.
Proof. induction s as [|c s IH]; cbn; [reflexivity|now rewrite IH]. Qed.

Lemma gostr_map_ext (p : ascii -> bool) f g s :
  (forall c, p c = true -> f c = g c) ->
  gostr.all p s = true -> gostr.map f s = gostr.map g s.
Proof.
  intros Hfg. induction s as [|c s IH]; cbn [gostr.all gostr.map]; [reflexivity|].
  intros [Hc Hs]%andb_true_iff. now rewrite (Hfg c Hc), (IH Hs).
Qed.

Lemma gostr_all_map (p : ascii -> bool) f s :
  gostr.all p (gostr.map f s) = gostr.all (fun c => p (f c)) s.
Proof. induction s as [|c s IH]; cbn; [reflexivity|now rewrite IH]. Qed.

(** Removing the spaces, one character at a time. *)
Lemma strip_cons c s :
  gostr.ReplaceAll (String c s) " " ""
    = if Ascii.eqb c " " then gostr.ReplaceAll s " " ""
      else String c (gostr.ReplaceAll s " " "").
Proof.
  unfold gostr.ReplaceAll. cbn [gostr.replace_from String.prefix String.length Nat.sub].
  destruct (ascii_dec " " c) as [<-|Hne].
  - rewrite prefix_empty. reflexivity.
  - destruct (Ascii.eqb_spec c " ") as [->|_]; [congruence|reflexivity].
Qed.

Lemma strip_append s t :
  gostr.ReplaceAll (s +:+ t) " " ""
    = gostr.ReplaceAll s " " "" +:+ gostr.ReplaceAll t " " "".
Proof.
  induction s as [|c s IH]; [reflexivity|].
  change (String c s +:+ t) with (String c (s +:+ t)).
  rewrite !strip_cons, IH. now destruct (Ascii.eqb c " ").
Qed.

(** A change of letters that keeps the spaces and makes none goes through
    the removal of the spaces. *)
Lemma strip_map f s :
  (forall c, Ascii.eqb (f c) " " = Ascii.eqb c " ") ->
  gostr.ReplaceAll (gostr.map f s) " " "" = gostr.map f (gostr.ReplaceAll s " " "").
Proof.
  intros Hf. induction s as [|c s IH]; [reflexivity|].
  cbn [gostr.map]. rewrite !strip_cons, Hf, IH.
  now destruct (Ascii.eqb c " ").
Qed.

Lemma strip_all p s :
  gostr.all p s = true -> gostr.all p (gostr.ReplaceAll s " " "") = true.
Proof.
  induction s as [|c s IH]; [reflexivity|].
  cbn [gostr.all]. intros [Hc Hs]%andb_true_iff. rewrite strip_cons.
  destruct (Ascii.eqb c " "); cbn [gostr.all]; rewrite ?Hc; auto.
Qed.

Lemma strip_no_space s :
  gostr.all (fun c => negb (Ascii.eqb c " ")) (gostr.ReplaceAll s " " "") = true.
Proof.
  induction s as [|c s IH]; [reflexivity|].
  rewrite strip_cons. destruct (Ascii.eqb c " ") eqn:Hc; [exact IH|].
  cbn [gostr.all]. now rewrite Hc, IH.
Qed.

(** The normal form, character by character. *)
Lemma Normalize_chars s :
  NormalizeCrockfordB32LC s = gostr.map normal_char (gostr.ReplaceAll s " " "").
Proof.
  unfold NormalizeCrockfordB32LC, gostr.ToLower, gostr.ToUpper.
  now rewrite !gostr_map_map.
Qed.

Lemma upper_space c : Ascii.eqb (gostr.upper_char c) " " = Ascii.eqb c " ".
Proof. destruct c as [[] [] [] [] [] [] [] []]; reflexivity. Qed.

Lemma lower_space c : Ascii.eqb (gostr.lower_char c) " " = Ascii.eqb c " ".
Proof. destruct c as [[] [] [] [] [] [] [] []]; reflexivity. Qed.

Lemma normal_space c : Ascii.eqb (normal_char c) " " = Ascii.eqb c " ".
Proof. destruct c as [[] [] [] [] [] [] [] []]; reflexivity. Qed.

Lemma normal_char_facts c :
  is_ascii c = true ->
  normal_char (normal_char c) = normal_char c /\
  normal_char (gostr.upper_char c) = normal_char c /\
  normal_char (gostr.lower_char c) = normal_char c /\
  is_ascii (normal_char c) = true /\
  gostr.is_upper (normal_char c) = false /\
  negb (existsb (Ascii.eqb (normal_char c)) ["o"; "i"; "l"]%char) = true.
Proof.
  destruct c as [[] [] [] [] [] [] [] []]; vm_compute; intros Hc;
    repeat split; congruence.
Qed.

Lemma Normalize_ToUpper s :
  gostr.all is_ascii s = true ->
  NormalizeCrockfordB32LC (gostr.ToUpper s) = NormalizeCrockfordB32LC s.
Proof.
  intros Hs. rewrite !Normalize_chars. unfold gostr.ToUpper.
  rewrite strip_map by apply upper_space. rewrite gostr_map_map.
  apply (gostr_map_ext is_ascii); [|now apply strip_all].
  intros c Hc. now destruct (normal_char_facts c Hc) as (_ & -> & _).
Qed.

(** X15: normalizing twice is normalizing once, on ASCII text. *)
Theorem Normalize_idempotent (s : string) :
  gostr.all is_ascii s = true ->
  NormalizeCrockfordB32LC (NormalizeCrockfordB32LC s) = NormalizeCrockfordB32LC s.
Proof.
  intros Hs. rewrite !Normalize_chars.
  rewrite strip_map by apply normal_space.
  rewrite (ReplaceAll_no_space (gostr.ReplaceAll s " " "")) by apply strip_no_space.
  rewrite gostr_map_map.
  apply (gostr_map_ext is_ascii); [|now apply strip_all].
  intros c Hc. now destruct (normal_char_facts c Hc) as (-> & _).
Qed.

(** X16: the normal form does not depend on the case of the letters nor on
    spaces, wherever they stand, on ASCII text. *)
Theorem Normalize_ignores_case_and_spaces (s t : string) :
  gostr.all is_ascii s = true ->
  NormalizeCrockfordB32LC (gostr.ToUpper s) = NormalizeCrockfordB32LC s /\
  NormalizeCrockfordB32LC (gostr.ToLower s) = NormalizeCrockfordB32LC s /\
  NormalizeCrockfordB32LC (s +:+ " " +:+ t) = NormalizeCrockfordB32LC (s +:+ t).
Proof.
  intros Hs. split; [now apply Normalize_ToUpper|]. split.
  - rewrite !Normalize_chars. unfold gostr.ToLower.
    rewrite strip_map by apply lower_space. rewrite gostr_map_map.
    apply (gostr_map_ext is_ascii); [|now apply strip_all].
    intros c Hc. now destruct (normal_char_facts c Hc) as (_ & _ & -> & _).
  - rewrite !Normalize_chars, !strip_append. reflexivity.
Qed.

(** X17: the normal form of ASCII text holds no space, no capital letter and
    none of the letters o, i and l, which are read as the digits 0 and 1. *)
Theorem Normalize_shape (s : string) :
  gostr.all is_ascii s = true ->
  gostr.all (fun c => negb (Ascii.eqb c " ") && negb (gostr.is_upper c)
                      && negb (existsb (Ascii.eqb c) ["o"; "i"; "l"]%char))
    (NormalizeCrockfordB32LC s) = true.
Proof.
  intros Hs. rewrite Normalize_chars, gostr_all_map.
  pose proof (strip_no_space s) as Hsp.
  pose proof (strip_all is_ascii s Hs) as Has.
  induction (gostr.ReplaceAll s " " "") as [|c r IH]; [reflexivity|].
  cbn [gostr.all] in *.
  apply andb_true_iff in Hsp as [Hc Hsp]. apply andb_true_iff in Has as [Ha Has].
  destruct (normal_char_facts c Ha) as (_ & _ & _ & _ & Hup & Hoil).
  rewrite normal_space, Hc, Hup, Hoil. cbn [negb andb]. now apply IH.
Qed.

(** X18: an encoding that is written in capital letters is read as the encoding
    itself: the ids of the store may be given in either case. *)
Theorem Normalize_reads_capitals (b : list byte) :
  NormalizeCrockfordB32LC (gostr.ToUpper (EncodeCrockfordB32LC b))
    = EncodeCrockfordB32LC b.
Proof.
  rewrite Normalize_ToUpper.
  - apply Normalize_digits, Encode_digits.
  - apply (all_impl is_lc_digit); [|apply Encode_digits].
    intros c. destruct c as [[] [] [] [] [] [] [] []]; vm_compute; congruence.
Qed.

End CrockfordNormal.

(** An id as a user may type it. *)
Lemma Normalize_idempotent_witness :
  encoding.NormalizeCrockfordB32LC (encoding.NormalizeCrockfordB32LC "Z7IO L5KM")
    = encoding.NormalizeCrockfordB32LC "Z7IO L5KM".
Proof.
  apply (Normalize_idempotent "Z7IO L5KM"). reflexivity.
Defined.

Lemma Normalize_ignores_case_and_spaces_witness :
  encoding.NormalizeCrockfordB32LC (gostr.ToUpper "z7Io") = encoding.NormalizeCrockfordB32LC "z7Io" /\
  encoding.NormalizeCrockfordB32LC (gostr.ToLower "z7Io") = encoding.NormalizeCrockfordB32LC "z7Io" /\
  encoding.NormalizeCrockfordB32LC ("z7Io" +:+ " " +:+ "L5km")
    = encoding.NormalizeCrockfordB32LC ("z7Io" +:+ "L5km").
Proof.
  apply (Normalize_ignores_case_and_spaces "z7Io" "L5km"). reflexivity.
Defined.

Lemma Normalize_shape_witness :
  gostr.all (fun c => negb (Ascii.eqb c " ") && negb (gostr.is_upper c)
                      && negb (existsb (Ascii.eqb c) ["o"; "i"; "l"]%char))
    (encoding.NormalizeCrockfordB32LC "OIL oil Z7") = true.
Proof.
  apply (Normalize_shape "OIL oil Z7"). reflexivity.
Defined.

(** ** The ids of a media *)

Section MediaIds.
Import encoding.

Lemma compress_length h block :
  length h = 8%nat -> length (sha256.compress h block) = 8%nat.
Proof.
  intros Hh. unfold sha256.compress. cbv zeta.
  rewrite length_zip_with, Hh. reflexivity.
Qed.

Lemma blocks_length n : forall h m,
  length h = 8%nat -> length (sha256.blocks n h m) = 8%nat.
Proof.
  induction n as [|n IH]; intros h m Hh; cbn [sha256.blocks]; [exact Hh|].
  apply IH, compress_length, Hh.
Qed.

Lemma be_words_length h :
  length (flat_map (sha256.be_bytes 4) h) = (4 * length h)%nat.
Proof.
  induction h as [|x h IH]; [reflexivity|].
  cbn [flat_map]. rewrite length_app, IH. cbn [sha256.be_bytes length]. lia.
Qed.

(** A SHA-256 digest has 32 bytes. *)
Lemma Sum256_length data : length (sha256.Sum256 data) = 32%nat.
Proof.
  unfold sha256.Sum256, sha256.digest. cbv zeta.
  rewrite length_map, be_words_length, blocks_length; reflexivity.
Qed.

Lemma Encode_length_nat input :
  String.length (EncodeCrockfordB32LC input) = digit_count (length input).
Proof.
  unfold EncodeCrockfordB32LC. rewrite flush_numeral.
  unfold gostr.ToLower. now rewrite gostr_map_length, length_digits.
Qed.

(** The encoding of a digest: 52 lowercase Crockford digits. *)
Lemma digest_id data :
  let id := EncodeCrockfordB32LC (sha256.Sum256 data) in
  String.length id = 52%nat /\ gostr.all is_lc_digit id = true.
Proof.
  cbv zeta. split; [|apply Encode_digits].
  now rewrite Encode_length_nat, Sum256_length.
Qed.

(** X19: the content hash and the id of every media are strings of 52 lowercase
    Crockford digits, whatever the bytes and the meta it is made from. *)
Theorem media_ids_are_52_digits (data : slice) (meta0 : MediaMeta) :
  let m := NewMedia data meta0 in
  String.length (Media_Hash m) = 52%nat /\
  gostr.all is_lc_digit (Media_Hash m) = true /\
  String.length (Media_ID m) = 52%nat /\
  gostr.all is_lc_digit (Media_ID m) = true.
Proof.
  cbv zeta. unfold Media_Hash, Media_ID, NewMedia, update; cbn [meta Hash MetaID].
  unfold sha256.Sum.
  split; [apply digest_id|]. split; [apply digest_id|].
  split; apply digest_id.
Qed.

End MediaIds.

(** ** File names: the layout for ids as the services make them *)

Section FileNames.
Import blob filepath.

Lemma append_assoc (s t u : string) : (s +:+ t) +:+ u = s +:+ t +:+ u.
Proof.
  induction s as [|c s IH]; [reflexivity|].
  change (String c ((s +:+ t) +:+ u) = String c (s +:+ t +:+ u)). now rewrite IH.
Qed.

Lemma append_inv_head (s t u : string) : s +:+ t = s +:+ u -> t = u.
Proof.
  induction s as [|c s IH]; intros Heq; [exact Heq|].
  change (String c (s +:+ t) = String c (s +:+ u)) in Heq.
  injection Heq as Heq. auto.
Qed.

(** Two strings that end alike, cut at the same place from the end. *)
Lemma append_inj_tail (s s' t t' : string) :
  String.length t = String.length t' -> s +:+ t = s' +:+ t' -> s = s' /\ t = t'.
Proof.
  intros Hlen. revert s'.
  induction s as [|c s IH]; intros [|c' s'] Heq.
  - auto.
  - change (t = String c' (s' +:+ t')) in Heq.
    apply (f_equal String.length) in Heq. cbn [String.length] in Heq.
    rewrite length_append in Heq. lia.
  - change (String c (s +:+ t) = t') in Heq.
    apply (f_equal String.length) in Heq. cbn [String.length] in Heq.
    rewrite length_append in Heq. lia.
  - change (String c (s +:+ t) = String c' (s' +:+ t')) in Heq.
    injection Heq as -> Heq. destruct (IH _ Heq) as [-> ->]. auto.
Qed.


(** [strings.ReplaceAll] for a separator of one character. *)
Lemma ReplaceAll_cons o new c s :
  gostr.ReplaceAll (String c s) (String o "") new
    = if Ascii.eqb c o then new +:+ gostr.ReplaceAll s (String o "") new
      else String c (gostr.ReplaceAll s (String o "") new).
Proof.
  unfold gostr.ReplaceAll.
  cbn [gostr.replace_from String.prefix String.length Nat.sub].
  destruct (ascii_dec o c) as [<-|Hne].
  - rewrite prefix_empty, Ascii.eqb_refl. reflexivity.
  - destruct (Ascii.eqb_spec c o) as [->|_]; [congruence|reflexivity].
Qed.

Lemma ReplaceAll_absent o new s :
  gostr.all (fun c => negb (Ascii.eqb c o)) s = true ->
  gostr.ReplaceAll s (String o "") new = s.
Proof.
  induction s as [|c s IH]; [reflexivity|].
  cbn [gostr.all]. intros [Hc Hs]%andb_true_iff.
  rewrite ReplaceAll_cons. apply negb_true_iff in Hc. now rewrite Hc, IH.
Qed.





(** A name that is long enough and has neither separator nor space is its
    own padded name. *)
Lemma padded_fixed s :
  (6 <= String.length s)%nat ->
  gostr.all (fun c => negb (Ascii.eqb c "/")) s = true ->
  gostr.all (fun c => negb (Ascii.eqb c " ")) s = true ->
  padded s = s.
Proof.
  intros Hlen Hslash Hspace. unfold padded.
  rewrite (ReplaceAll_absent "/" "" s Hslash).
  unfold Sprintf_pad, gostr.len. change idMinLength with 6.
  replace (Z.to_nat (6 - Z.of_nat (String.length s))) with 0%nat by lia.
  cbn [gostr.repeat]. change ("" +:+ s) with s.
  apply (ReplaceAll_absent " " "0" s Hspace).
Qed.


(** *** [filepath.Join] on plain elements *)

Lemma split_not_nil s : split s <> [].
Proof.
  destruct s as [|c s]; cbn [split]; [discriminate|].
  destruct (Ascii.eqb c "/"); [discriminate|].
  destruct (split s); discriminate.
Qed.

Lemma split_slash s t : split (s +:+ "/" +:+ t) = (split s ++ split t)%list.
Proof.
  induction s as [|c s IH]; [reflexivity|].
  change (String c s +:+ "/" +:+ t) with (String c (s +:+ "/" +:+ t)).
  cbn [split]. rewrite IH.
  destruct (Ascii.eqb c "/"); [reflexivity|].
  pose proof (split_not_nil s) as Hne.
  destruct (split s) as [|cur rest]; [congruence|reflexivity].
Qed.

Lemma split_plain e :
  gostr.all (fun c => negb (Ascii.eqb c "/")) e = true -> split e = [e].
Proof.
  induction e as [|c e IH]; [reflexivity|].
  cbn [gostr.all]. intros [Hc He]%andb_true_iff.
  apply negb_true_iff in Hc. cbn [split]. now rewrite Hc, (IH He).
Qed.

Lemma split_join l : l <> [] -> split (join_with "/" l) = flat_map split l.
Proof.
  induction l as [|e l IH]; [congruence|]. intros _.
  destruct l as [|e' l].
  - cbn [join_with flat_map]. now rewrite app_nil_r.
  - change (join_with "/" (e :: e' :: l)) with (e +:+ "/" +:+ join_with "/" (e' :: l)).
    rewrite split_slash, IH by discriminate. reflexivity.
Qed.

Lemma plain_parts e :
  plain e = true ->
  String.eqb e "" = false /\ String.eqb e "." = false /\ String.eqb e ".." = false /\
  split e = [e].
Proof.
  unfold plain. intros Hp.
  apply andb_true_iff in Hp as [Hp Hslash].
  apply andb_true_iff in Hp as [Hp Hdd].
  apply andb_true_iff in Hp as [He Hd].
  apply negb_true_iff in He, Hd, Hdd.
  repeat split; try assumption. now apply split_plain.
Qed.

Lemma flat_map_split_plain tail :
  forallb plain tail = true -> flat_map split tail = tail.
Proof.
  induction tail as [|e tail IH]; [reflexivity|].
  cbn [forallb flat_map]. intros [He Ht]%andb_true_iff.
  destruct (plain_parts e He) as (_ & _ & _ & ->). now rewrite (IH Ht).
Qed.

(** [Clean] pushes plain elements and pops none. *)
Lemma clean_plain rooted tail : forall out,
  forallb plain tail = true ->
  fold_left (clean_step rooted) tail out = (rev tail ++ out)%list.
Proof.
  induction tail as [|e tail IH]; intros out; [reflexivity|].
  cbn [forallb fold_left]. intros [He Ht]%andb_true_iff.
  destruct (plain_parts e He) as (H0 & H1 & H2 & _).
  unfold clean_step at 2. rewrite H0, H1, H2. cbn [orb].
  rewrite (IH _ Ht). cbn [rev]. now rewrite <- app_assoc.
Qed.

Lemma join_with_app l tail :
  l <> [] -> tail <> [] ->
  join_with "/" (l ++ tail) = join_with "/" l +:+ "/" +:+ join_with "/" tail.
Proof.
  intros Hl Ht. induction l as [|e l IH]; [congruence|].
  destruct l as [|e' l].
  - destruct tail; [congruence|reflexivity].
  - change (join_with "/" ((e :: e' :: l) ++ tail))
      with (e +:+ "/" +:+ join_with "/" ((e' :: l) ++ tail)).
    rewrite IH by discriminate.
    change (join_with "/" (e :: e' :: l)) with (e +:+ "/" +:+ join_with "/" (e' :: l)).
    now rewrite !append_assoc.
Qed.

Lemma prefix_slash_append s t :
  String.eqb s "" = false -> String.prefix "/" (s +:+ t) = String.prefix "/" s.
Proof.
  destruct s as [|c s]; [discriminate|]. intros _.
  change (String c s +:+ t) with (String c (s +:+ t)).
  cbn [String.prefix]. destruct (ascii_dec "/" c); [|reflexivity].
  now rewrite !prefix_empty.
Qed.

Lemma join_with_first e l :
  String.eqb e "" = false ->
  exists c rest, join_with "/" (e :: l) = String c rest /\
                 String.prefix "/" (join_with "/" (e :: l)) = String.prefix "/" e.
Proof.
  intros He. destruct e as [|c e]; [discriminate|].
  destruct l as [|e' l].
  - exists c, e. split; reflexivity.
  - change (join_with "/" (String c e :: e' :: l))
      with (String c (e +:+ "/" +:+ join_with "/" (e' :: l))).
    eexists c, _. split; [reflexivity|].
    cbn [String.prefix]. destruct (ascii_dec "/" c); [|reflexivity].
    now rewrite !prefix_empty.
Qed.

Lemma plain_not_rooted e : plain e = true -> String.prefix "/" e = false.
Proof.
  unfold plain. intros Hp. apply andb_true_iff in Hp as [_ Hslash].
  destruct e as [|c e]; [reflexivity|].
  cbn [gostr.all] in Hslash. apply andb_true_iff in Hslash as [Hc _].
  apply negb_true_iff in Hc. cbn [String.prefix].
  destruct (ascii_dec "/" c) as [<-|]; [discriminate Hc|reflexivity].
Qed.

Lemma filter_nonempty_plain tail :
  forallb plain tail = true ->
  List.filter (fun e => negb (String.eqb e "")) tail = tail.
Proof.
  induction tail as [|e tail IH]; [reflexivity|].
  cbn [forallb List.filter]. intros [He Ht]%andb_true_iff.
  destruct (plain_parts e He) as (-> & _). cbn [negb]. now rewrite (IH Ht).
Qed.

(** The directory in front of plain elements at the end of a [Join] does
    not depend on them. *)
Lemma Join_plain_tail (pre : list string) :
  exists dir, forall tail,
    tail <> [] -> forallb plain tail = true ->
    Join (pre ++ tail) = dir +:+ join_with "/" tail.
Proof.
  set (P := List.filter (fun e => negb (String.eqb e "")) pre).
  set (rooted := match P with e :: _ => String.prefix "/" e | [] => false end).
  set (out := fold_left (clean_step rooted) (flat_map split P) []).
  exists ((if rooted then "/" else "")
          +:+ (match rev out with [] => "" | _ => join_with "/" (rev out) +:+ "/" end)).
  intros tail Hne Hplain.
  unfold Join. rewrite List.filter_app. fold P.
  rewrite (filter_nonempty_plain _ Hplain).
  assert (Hstart : exists c rest, join_with "/" tail = String c rest).
  { destruct tail as [|e tail]; [congruence|].
    cbn [forallb] in Hplain. apply andb_true_iff in Hplain as [He _].
    destruct (plain_parts e He) as (He0 & _).
    destruct (join_with_first e tail He0) as (c & rest & Hj & _). eauto. }
  assert (Hpath : exists c rest, join_with "/" (P ++ tail) = String c rest /\
            String.prefix "/" (join_with "/" (P ++ tail)) = rooted).
  { subst rooted. destruct P as [|e P'] eqn:HP.
    - cbn [app]. destruct tail as [|e tail]; [congruence|].
      cbn [forallb] in Hplain. apply andb_true_iff in Hplain as [He _].
      destruct (plain_parts e He) as (He0 & _).
      destruct (join_with_first e tail He0) as (c & rest & Hj & Hr).
      exists c, rest. split; [exact Hj|]. rewrite Hr. now apply plain_not_rooted.
    - assert (He0 : String.eqb e "" = false).
      { assert (Hin : In e P) by (rewrite HP; now left).
        subst P. apply filter_In in Hin as [_ Hin]. now apply negb_true_iff in Hin. }
      change ((e :: P') ++ tail)%list with (e :: (P' ++ tail))%list.
      destruct (join_with_first e (P' ++ tail) He0) as (c & rest & Hj & Hr).
      exists c, rest. split; [exact Hj|exact Hr]. }
  destruct Hpath as (c & rest & Hj & Hrooted).
  assert (Hlist : (P ++ tail)%list <> []) by (destruct P, tail; cbn; congruence).
  destruct (P ++ tail)%list as [|e0 l0] eqn:Hl; [congruence|]. rewrite <- Hl in *.
  clear e0 l0 Hl.
  unfold Clean. rewrite Hrooted. rewrite Hj at 1. cbn [String.eqb].
  assert (Hout : rev (fold_left (clean_step rooted) (split (join_with "/" (P ++ tail))) [])
                 = (rev out ++ tail)%list).
  { rewrite split_join by exact Hlist.
    rewrite flat_map_app, fold_left_app. fold out.
    rewrite (flat_map_split_plain _ Hplain), (clean_plain _ _ _ Hplain).
    now rewrite rev_app_distr, rev_involutive. }
  rewrite Hout.
  assert (Hbody : join_with "/" (rev out ++ tail)
            = match rev out with [] => "" | _ => join_with "/" (rev out) +:+ "/" end
              +:+ join_with "/" tail).
  { destruct (rev out) as [|o os] eqn:Hrev; [reflexivity|].
    rewrite join_with_app by (congruence || discriminate).
    now rewrite append_assoc. }
  rewrite Hbody.
  destruct rooted.
  - now rewrite append_assoc.
  - destruct Hstart as (c' & rest' & Hs).
    destruct (rev out) as [|o os] eqn:Hrev.
    + cbn [String.append]. rewrite Hs. reflexivity.
    + assert (Ho : exists c'' r'', join_with "/" (o :: os) = String c'' r'').
      { assert (Hin : In o out) by (apply in_rev; rewrite Hrev; now left).
        assert (Hkeep : forall l acc,
                  (forall x, In x acc -> String.eqb x "" = false) ->
                  forall x, In x (fold_left (clean_step false) l acc) ->
                            String.eqb x "" = false).
        { induction l as [|y l IHl]; intros acc Hacc x Hx; [now apply Hacc|].
          cbn [fold_left] in Hx. apply (IHl _) in Hx; [exact Hx|].
          intros z Hz. unfold clean_step in Hz.
          destruct (String.eqb y "" || String.eqb y ".") eqn:Hy; [now apply Hacc|].
          apply orb_false_iff in Hy as [Hy _].
          destruct (String.eqb y "..") eqn:Hdd.
          - destruct acc as [|top below].
            + destruct Hz as [<-|[]]. exact Hy.
            + destruct (String.eqb top "..").
              * destruct Hz as [<-|Hz]; [exact Hy|now apply Hacc].
              * apply Hacc. now right.
          - destruct Hz as [<-|Hz]; [exact Hy|now apply Hacc]. }
        assert (Ho0 : String.eqb o "" = false).
        { apply (Hkeep (flat_map split P) []); [intros x []|exact Hin]. }
        destruct (join_with_first o os Ho0) as (c'' & r'' & Hjo & _). eauto. }
      destruct Ho as (c'' & r'' & Ho). rewrite Ho.
      reflexivity.
Qed.

Lemma substring_length m : forall n s,
  (n + m <= String.length s)%nat -> String.length (String.substring n m s) = m.
Proof.
  intros n. revert m. induction n as [|n IHn]; intros m s Hlen.
  - revert s Hlen. induction m as [|m IHm]; intros s Hlen.
    + now destruct s.
    + destruct s as [|c s]; cbn [String.length] in Hlen; [lia|].
      cbn [String.substring String.length]. rewrite IHm; lia.
  - destruct s as [|c s]; cbn [String.length] in Hlen; [lia|].
    cbn [String.substring]. apply IHn. lia.
Qed.

Lemma substring_all p m : forall n s,
  gostr.all p s = true -> gostr.all p (String.substring n m s) = true.
Proof.
  intros n. revert m. induction n as [|n IHn]; intros m s Hs.
  - revert s Hs. induction m as [|m IHm]; intros s Hs.
    + now destruct s.
    + destruct s as [|c s]; [reflexivity|].
      cbn [gostr.all] in Hs. apply andb_true_iff in Hs as [Hc Hs].
      cbn [String.substring gostr.all]. now rewrite Hc, IHm.
  - destruct s as [|c s]; [reflexivity|].
    cbn [gostr.all] in Hs. apply andb_true_iff in Hs as [_ Hs].
    cbn [String.substring]. now apply IHn.
Qed.

Lemma digit_char c :
  is_lc_digit c = true ->
  Ascii.eqb c "/" = false /\ Ascii.eqb c "." = false /\ Ascii.eqb c " " = false.
Proof.
  destruct c as [[] [] [] [] [] [] [] []]; vm_compute; repeat split; congruence.
Qed.

(** Strings of digits are plain path elements, when they are not empty. *)
Lemma digits_plain e :
  gostr.all is_lc_digit e = true -> (0 < String.length e)%nat -> plain e = true.
Proof.
  intros He Hlen. unfold plain.
  assert (Hslash : gostr.all (fun c => negb (Ascii.eqb c "/")) e = true).
  { apply (all_impl is_lc_digit); [|exact He].
    intros c Hc. now destruct (digit_char c Hc) as (-> & _). }
  rewrite Hslash.
  destruct e as [|c e]; cbn [String.length] in Hlen; [lia|].
  cbn [gostr.all] in He. apply andb_true_iff in He as [Hc _].
  destruct (digit_char c Hc) as (_ & Hdot & _).
  cbn [String.eqb]. now rewrite Hdot.
Qed.

(** The base name of a digit id of seven characters or more under the
    directory that [Join_plain_tail] gives. *)
Lemma digit_id_basename (fsRepo : FileSystemRepository) (dir : string) (id : BlobID) :
  (forall tail, tail <> [] -> forallb plain tail = true ->
     Join ([Basedir (cfg fsRepo); subdir fsRepo] ++ tail) = dir +:+ join_with "/" tail) ->
  gostr.all is_lc_digit id = true ->
  (7 <= String.length id)%nat ->
  getBasename fsRepo id
    = dir +:+ gostr.slice id 0 2 +:+ "/" +:+ gostr.slice id 2 4 +:+ "/"
          +:+ gostr.slice id 4 6 +:+ "/" +:+ id.
Proof.
  intros Hdir Hid Hlen.
  assert (Hfix : padded id = id).
  { apply padded_fixed; [lia| |].
    - apply (all_impl is_lc_digit); [|exact Hid].
      intros c Hc. now destruct (digit_char c Hc) as (-> & _).
    - apply (all_impl is_lc_digit); [|exact Hid].
      intros c Hc. now destruct (digit_char c Hc) as (_ & _ & ->). }
  unfold getBasename. rewrite Hfix, (prefixes_of_longer _ Hlen).
  assert (Hslice : forall i, (Z.to_nat i + 2 <= String.length id)%nat ->
            plain (gostr.slice id i (i + 2)) = true).
  { intros i Hi. unfold gostr.slice. replace (i + 2 - i) with 2 by lia.
    apply digits_plain; [now apply substring_all|].
    rewrite substring_length; [lia|exact Hi]. }
  assert (Hs0 : plain (gostr.slice id 0 2) = true) by (apply (Hslice 0); lia).
  assert (Hs2 : plain (gostr.slice id 2 4) = true) by (apply (Hslice 2); lia).
  assert (Hs4 : plain (gostr.slice id 4 6) = true) by (apply (Hslice 4); lia).
  assert (Hs : plain id = true) by (apply digits_plain; [assumption|lia]).
  change ([Basedir (cfg fsRepo); subdir fsRepo]
            ++ [gostr.slice id 0 2; gostr.slice id 2 4; gostr.slice id 4 6] ++ [id])%list
    with ([Basedir (cfg fsRepo); subdir fsRepo]
            ++ [gostr.slice id 0 2; gostr.slice id 2 4; gostr.slice id 4 6; id])%list.
  rewrite Hdir.
  - reflexivity.
  - discriminate.
  - cbn [forallb]. now rewrite Hs0, Hs2, Hs4, Hs.
Qed.

(** X21: for the ids that the services make, strings of lowercase Crockford
    digits of seven characters or more, the file is
    [dir/p0/p1/p2/id.ext]: three directory levels of two characters each
    under a directory that depends on the repository only. *)
Theorem digit_id_path (fsRepo : FileSystemRepository) :
  exists dir, forall id : BlobID,
    gostr.all is_lc_digit id = true ->
    (7 <= String.length id)%nat ->
    GetFilename fsRepo id
      = dir +:+ gostr.slice id 0 2 +:+ "/" +:+ gostr.slice id 2 4 +:+ "/"
            +:+ gostr.slice id 4 6 +:+ "/" +:+ id +:+ "." +:+ ext fsRepo.
Proof.
  destruct (Join_plain_tail [Basedir (cfg fsRepo); subdir fsRepo]) as [dir Hdir].
  exists dir. intros id Hid Hlen.
  unfold GetFilename. rewrite (digit_id_basename fsRepo dir id Hdir Hid Hlen).
  now rewrite !append_assoc.
Qed.

(** X22: two different ids of lowercase Crockford digits, of seven characters or
    more each, never name the same file: the blobs of the services do not
    overwrite one another. *)
Theorem digit_id_files_differ (fsRepo : FileSystemRepository) (id1 id2 : BlobID) :
  gostr.all is_lc_digit id1 = true -> (7 <= String.length id1)%nat ->
  gostr.all is_lc_digit id2 = true -> (7 <= String.length id2)%nat ->
  id1 <> id2 ->
  GetFilename fsRepo id1 <> GetFilename fsRepo id2.
Proof.
  intros Hid1 Hlen1 Hid2 Hlen2 Hne Heq. apply Hne. clear Hne.
  destruct (Join_plain_tail [Basedir (cfg fsRepo); subdir fsRepo]) as [dir Hdir].
  unfold GetFilename in Heq.
  rewrite (digit_id_basename fsRepo dir id1 Hdir Hid1 Hlen1) in Heq.
  rewrite (digit_id_basename fsRepo dir id2 Hdir Hid2 Hlen2) in Heq.
  assert (Hslice : forall id i, (Z.to_nat i + 2 <= String.length id)%nat ->
            String.length (gostr.slice id i (i + 2)) = 2%nat).
  { intros id i Hi. unfold gostr.slice. replace (i + 2 - i) with 2 by lia.
    now apply substring_length. }
  set (front := fun id : string =>
         dir +:+ gostr.slice id 0 2 +:+ "/" +:+ gostr.slice id 2 4 +:+ "/"
             +:+ gostr.slice id 4 6 +:+ "/") in *.
  assert (Hshape : forall id,
            (dir +:+ gostr.slice id 0 2 +:+ "/" +:+ gostr.slice id 2 4 +:+ "/"
                 +:+ gostr.slice id 4 6 +:+ "/" +:+ id) +:+ "." +:+ ext fsRepo
            = front id +:+ id +:+ "." +:+ ext fsRepo).
  { intros id. subst front. cbv beta. now rewrite !append_assoc. }
  rewrite !Hshape in Heq.
  assert (Hfront : forall id, (7 <= String.length id)%nat ->
            String.length (front id) = (String.length dir + 9)%nat).
  { intros id Hlen. subst front. cbv beta.
    assert (H0 : String.length (gostr.slice id 0 2) = 2%nat) by (apply (Hslice id 0); lia).
    assert (H2 : String.length (gostr.slice id 2 4) = 2%nat) by (apply (Hslice id 2); lia).
    assert (H4 : String.length (gostr.slice id 4 6) = 2%nat) by (apply (Hslice id 4); lia).
    rewrite !length_append, H0, H2, H4.
    cbn [String.length]. lia. }
  assert (Hsame : String.length id1 = String.length id2).
  { apply (f_equal String.length) in Heq.
    rewrite !length_append, !Hfront in Heq by assumption. lia. }
  apply append_inj_tail in Heq as [_ Heq].
  - apply append_inj_tail in Heq as [Heq _]; [exact Heq|reflexivity].
  - rewrite !length_append. lia.
Qed.

End FileNames.

(** Two data blobs of the media service. *)
Lemma digit_id_files_differ_witness :
  blob.GetFilename fsexamples.data_repo (Media_Hash examples.alice_hello)
    <> blob.GetFilename fsexamples.data_repo (Media_ID examples.alice_hello).
Proof.
  apply (digit_id_files_differ fsexamples.data_repo
           (Media_Hash examples.alice_hello) (Media_ID examples.alice_hello)).
  - vm_compute. reflexivity.
  - vm_compute. lia.
  - vm_compute. reflexivity.
  - vm_compute. lia.
  - vm_compute. discriminate.
Defined.

(** ** The image service: uploads and the cache of resized images *)

Section ImageService.
Context `{JSON}.
Import imagesvc.

(** X23: what an upload comes to.  A refused upload changes nothing and the
    error is one of the three of the upload check: since the check and the
    media service compare the same length with the same limit, the media
    service never refuses for the size.  An accepted upload is stored by
    the media service, and the cache is left alone. *)
Theorem image_Store_outcomes (imageSvc : BlobImageService) (image : Media) :
  match snd (Store imageSvc image) with
  | Some err =>
      fst (Store imageSvc image) = imageSvc /\
      (errors.Is err ErrImageTooLarge \/
       errors.Is err ErrImageTypeNotSupported \/
       errors.Is err ErrImageTypeMismatch)
  | None =>
      fst (Store imageSvc image)
        = with_mediaSvc imageSvc (stored (mediaSvc imageSvc) image) /\
      Media_Size image <= Img_MaxSize imageSvc /\
      exists mime,
        imageExtTypes (gostr.ToLower (filepath.Ext (Filename (Media_Meta image))))
          = Some mime /\
        match Media_Bytes image with
        | None => True
        | Some body =>
            exists header rest,
              In header (imageExtHeaders mime) /\ body = (header ++ rest)%list
        end
  end.
Proof.
  unfold Store, CheckUploadConstraints.
  change (Z.of_nat (length (bytes_of_slice (Media_Bytes image)))) with (Media_Size image).
  destruct (Z.ltb_spec (Img_MaxSize imageSvc) (Media_Size image)) as [Hlt|Hle].
  { cbn [fst snd]. split; [reflexivity|]. left. reflexivity. }
  destruct (imageExtTypes _) as [mime|] eqn:Hext.
  2:{ cbn [fst snd]. split; [reflexivity|]. right. left. reflexivity. }
  assert (Hstored : mediasvc.Store (mediaSvc imageSvc) image
            = (stored (mediaSvc imageSvc) image, None)).
  { apply Store_accepts. exact Hle. }
  destruct (Media_Bytes image) as [body|] eqn:Hbody.
  - destruct (existsb (gostr.has_prefix body) (imageExtHeaders mime)) eqn:Hmagic.
    + rewrite Hstored. cbn [fst snd]. split; [reflexivity|]. split; [exact Hle|].
      exists mime. split; [reflexivity|].
      apply existsb_exists in Hmagic as (header & Hin & Hpre).
      apply has_prefix_spec in Hpre as [rest Hrest]. eauto.
    + cbn [fst snd]. split; [reflexivity|]. right. right. reflexivity.
  - rewrite Hstored. cbn [fst snd]. split; [reflexivity|]. split; [exact Hle|].
    exists mime. split; [reflexivity|exact I].
Qed.

(** *** The extension is read without regard to case *)

Lemma ext_step_map f cur c :
  (forall d, Ascii.eqb (f d) "/" = Ascii.eqb d "/") ->
  (forall d, Ascii.eqb (f d) "." = Ascii.eqb d ".") ->
  filepath.ext_step (option_map (gostr.map f) cur) (f c)
    = option_map (gostr.map f) (filepath.ext_step cur c).
Proof.
  intros Hslash Hdot. unfold filepath.ext_step. rewrite Hslash, Hdot.
  destruct (Ascii.eqb c "/"); [reflexivity|].
  destruct (Ascii.eqb_spec c ".") as [->|_].
  - cbn [option_map gostr.map]. do 2 f_equal.
    specialize (Hdot "."%char). rewrite Ascii.eqb_refl in Hdot.
    now apply Ascii.eqb_eq in Hdot.
  - destruct cur as [e|]; [|reflexivity].
    cbn [option_map]. now rewrite gostr_map_append.
Qed.

Lemma Ext_map f s :
  (forall d, Ascii.eqb (f d) "/" = Ascii.eqb d "/") ->
  (forall d, Ascii.eqb (f d) "." = Ascii.eqb d ".") ->
  filepath.Ext (gostr.map f s) = gostr.map f (filepath.Ext s).
Proof.
  intros Hslash Hdot. unfold filepath.Ext.
  assert (Hfold : forall cur,
    fold_left filepath.ext_step (list_ascii_of_string (gostr.map f s))
        (option_map (gostr.map f) cur)
      = option_map (gostr.map f)
          (fold_left filepath.ext_step (list_ascii_of_string s) cur)).
  { induction s as [|c s IH]; intros cur; [reflexivity|].
    cbn [gostr.map list_ascii_of_string fold_left].
    now rewrite (ext_step_map f cur c Hslash Hdot), IH. }
  specialize (Hfold None). cbn [option_map] in Hfold. rewrite Hfold.
  now destruct (fold_left filepath.ext_step (list_ascii_of_string s) None).
Qed.

Lemma ext_step_all (p : ascii -> bool) cur c :
  p "."%char = true -> p c = true ->
  match cur with Some e => gostr.all p e = true | None => True end ->
  match filepath.ext_step cur c with Some e => gostr.all p e = true | None => True end.
Proof.
  intros Hdot Hc Hcur. unfold filepath.ext_step.
  destruct (Ascii.eqb c "/"); [exact I|].
  destruct (Ascii.eqb c ".").
  - cbn [gostr.all]. now rewrite Hdot.
  - destruct cur as [e|]; [|exact I].
    cbn [option_map]. now rewrite all_snoc, Hcur, Hc.
Qed.

Lemma Ext_all (p : ascii -> bool) s :
  p "."%char = true -> gostr.all p s = true -> gostr.all p (filepath.Ext s) = true.
Proof.
  intros Hdot Hs. unfold filepath.Ext.
  assert (Hfold : forall cur,
    match cur with Some e => gostr.all p e = true | None => True end ->
    match fold_left filepath.ext_step (list_ascii_of_string s) cur with
    | Some e => gostr.all p e = true | None => True end).
  { induction s as [|c s IH]; intros cur Hcur; [exact Hcur|].
    cbn [gostr.all] in Hs. apply andb_true_iff in Hs as [Hc Hs].
    cbn [list_ascii_of_string fold_left]. apply (IH Hs).
    now apply ext_step_all. }
  specialize (Hfold None I).
  destruct (fold_left filepath.ext_step (list_ascii_of_string s) None); [exact Hfold|reflexivity].
Qed.

Lemma upper_facts c :
  Ascii.eqb (gostr.upper_char c) "/" = Ascii.eqb c "/" /\
  Ascii.eqb (gostr.upper_char c) "." = Ascii.eqb c "." /\
  (is_ascii c = true -> gostr.lower_char (gostr.upper_char c) = gostr.lower_char c).
Proof.
  destruct c as [[] [] [] [] [] [] [] []]; repeat split; reflexivity.
Qed.

(** X24: the upload check reads the extension of the file name without regard
    to the case of its letters, on ASCII names. *)
Theorem extension_in_any_case (imageSvc : BlobImageService)
    (filename : string) (size : Z) (image : slice) :
  gostr.all is_ascii filename = true ->
  CheckUploadConstraints imageSvc (gostr.ToUpper filename) size image
    = CheckUploadConstraints imageSvc filename size image.
Proof.
  intros Hascii. unfold CheckUploadConstraints.
  assert (Hext : gostr.ToLower (filepath.Ext (gostr.ToUpper filename))
                 = gostr.ToLower (filepath.Ext filename)).
  { unfold gostr.ToUpper, gostr.ToLower.
    rewrite Ext_map by (intros d; apply upper_facts).
    rewrite gostr_map_map.
    apply (gostr_map_ext is_ascii).
    - intros c Hc. now apply upper_facts.
    - now apply Ext_all. }
  now rewrite Hext.
Qed.

(** *** Fetch and the cache *)

Section Fetching.
Context (resize resize' : list byte -> string -> Z -> slice + error).

(** X25: a second [Fetch] of the same image at the same width gives the first
    result again, the same meta and the same bytes, without any resize:
    whatever function stands for the resize step then, the result comes
    from the cache and the service is left as it is. *)
Theorem Fetch_again (imageSvc after : BlobImageService) (ctx : context_.Context)
    (imageID : MediaID) (width : Z) (r : Media) :
  Fetch resize imageSvc ctx imageID width = (after, inl r) ->
  exists r',
    Fetch resize' after ctx imageID width = (after, inl r') /\
    Media_Meta r' = Media_Meta r /\
    bytes_of_slice (Media_Bytes r') = bytes_of_slice (Media_Bytes r).
Proof.
  unfold Fetch.
  destruct (mediasvc.Fetch (mediaSvc imageSvc) ctx imageID) as [image|err] eqn:Hmedia;
    [|discriminate].
  destruct (width =? 0) eqn:Hwidth.
  { intros Heq. injection Heq as <- <-. rewrite Hmedia. exists image. auto. }
  set (cid := cacheID (Media_Hash image) width).
  unfold blob.Exists, blob.Fetch.
  destruct (cacheRepo imageSvc !! cid) as [body|] eqn:Hcache.
  { intros Heq. injection Heq as <- <-. rewrite Hmedia. fold cid. rewrite Hcache.
    eexists. split; [reflexivity|]. auto. }
  destruct (resize _ _ _) as [resized|err]; [|discriminate].
  unfold blob.Store. cbn [ID Body].
  intros Heq. injection Heq as <- <-.
  cbn [with_cacheRepo mediaSvc cacheRepo]. rewrite Hmedia. fold cid.
  rewrite lookup_insert_eq.
  eexists. split; [reflexivity|]. split; reflexivity.
Qed.

(** X26: what a successful [Fetch] tells: the caller is the owner of the image,
    the media service is as before, the meta that is returned keeps the
    file name, the owner and the MIME type of the stored meta and describes
    the bytes that are returned, their size and their hash, and at a width
    other than zero the cache holds these bytes under the hash of the
    original and the width. *)
Theorem Fetch_success (imageSvc after : BlobImageService) (ctx : context_.Context)
    (imageID : MediaID) (width : Z) (r : Media) (body data : list byte)
    (M : MediaMeta) :
  mediasvc.metaRepo (mediaSvc imageSvc) !! imageID = Some body ->
  json_Unmarshal body = Some M ->
  mediasvc.dataRepo (mediaSvc imageSvc) !! Hash M = Some data ->
  Fetch resize imageSvc ctx imageID width = (after, inl r) ->
  let bytes := bytes_of_slice (Media_Bytes r) in
  context_.username ctx = Some (Owner M) /\
  mediaSvc after = mediaSvc imageSvc /\
  Media_Meta r = update M bytes /\
  (if width =? 0 then after = imageSvc /\ bytes = data
   else cacheRepo after !! cacheID (Hash (update M data)) width = Some bytes).
Proof.
  intros Hbody HM Hdata. unfold Fetch, mediasvc.Fetch, blob.Fetch at 1.
  rewrite Hbody. unfold NewMediaMetaFromBlob. cbn [Blob_Bytes Body]. rewrite HM.
  unfold context_.UsernameFromContext.
  destruct (context_.username ctx) as [name|]; cbn [negb orb]; [|discriminate].
  destruct (String.eqb_spec name (Owner M)) as [->|Hne]; cbn [negb]; [|discriminate].
  unfold blob.Fetch at 1. rewrite Hdata. cbn [Blob_Bytes Body].
  set (image := NewMedia (Some data) M).
  destruct (width =? 0).
  { intros Heq. injection Heq as <- <-. cbv zeta. auto. }
  change (Media_Hash image) with (Hash (update M data)).
  set (cid := cacheID (Hash (update M data)) width).
  unfold blob.Exists, blob.Fetch.
  destruct (cacheRepo imageSvc !! cid) as [cached|] eqn:Hcache.
  { intros Heq. injection Heq as <- <-. cbv zeta. auto. }
  destruct (resize _ _ _) as [resized|err]; [|discriminate].
  unfold blob.Store. cbn [ID Body].
  intros Heq. injection Heq as <- <-. cbv zeta.
  cbn [with_cacheRepo mediaSvc cacheRepo]. rewrite lookup_insert_eq. auto.
Qed.

(** X27: the owner check comes before the cache: a caller who is not the owner
    gets [ErrUnauthorized] at every width, whatever the cache holds, and
    nothing is resized or written. *)
Theorem Fetch_not_owner (imageSvc : BlobImageService) (ctx : context_.Context)
    (imageID : MediaID) (width : Z) (body : list byte) (M : MediaMeta) :
  mediasvc.metaRepo (mediaSvc imageSvc) !! imageID = Some body ->
  json_Unmarshal body = Some M ->
  context_.username ctx <> Some (Owner M) ->
  exists err,
    Fetch resize imageSvc ctx imageID width = (imageSvc, inr err) /\
    errors.Is err ErrUnauthorized.
Proof.
  intros Hbody HM Hctx. unfold Fetch, mediasvc.Fetch, blob.Fetch at 1.
  rewrite Hbody. unfold NewMediaMetaFromBlob. cbn [Blob_Bytes Body]. rewrite HM.
  unfold context_.UsernameFromContext.
  destruct (context_.username ctx) as [name|]; cbn [negb orb].
  - destruct (String.eqb_spec name (Owner M)) as [->|Hne]; cbn [negb]; [congruence|].
    eexists. split; reflexivity.
  - eexists. split; reflexivity.
Qed.

End Fetching.

End ImageService.

(** *** Worked instances *)

(** A name in capital letters. *)
Lemma extension_in_any_case_witness :
  imagesvc.CheckUploadConstraints (imgexamples.service 1024)
      (gostr.ToUpper "photo.jpg") 4 (Some imgexamples.jpeg_magic)
    = imagesvc.CheckUploadConstraints (imgexamples.service 1024)
        "photo.jpg" 4 (Some imgexamples.jpeg_magic).
Proof.
  apply (extension_in_any_case (imgexamples.service 1024) "photo.jpg" 4
           (Some imgexamples.jpeg_magic)).
  reflexivity.
Defined.

(** Alice fetches her photo at width 2; the second time the resize step is
    broken. *)
Lemma Fetch_again_witness :
  let first := imagesvc.Fetch (H := fetchexamples.json) fetchexamples.crop
                 fetchexamples.uploaded (examples.as_user "alice")
                 (Media_ID fetchexamples.photo) 2 in
  let after := fst first in
  let r := match snd first with inl r => r | inr _ => fetchexamples.photo end in
  exists r',
    imagesvc.Fetch (H := fetchexamples.json) fetchexamples.broken after
        (examples.as_user "alice") (Media_ID fetchexamples.photo) 2
      = (after, inl r') /\
    Media_Meta r' = Media_Meta r /\
    bytes_of_slice (Media_Bytes r') = bytes_of_slice (Media_Bytes r).
Proof.
  apply (Fetch_again (H := fetchexamples.json) fetchexamples.crop fetchexamples.broken
           fetchexamples.uploaded).
  vm_compute. reflexivity.
Defined.

Lemma Fetch_success_witness :
  let first := imagesvc.Fetch (H := fetchexamples.json) fetchexamples.crop
                 fetchexamples.uploaded (examples.as_user "alice")
                 (Media_ID fetchexamples.photo) 2 in
  let after := fst first in
  let r := match snd first with inl r => r | inr _ => fetchexamples.photo end in
  let M := Media_Meta fetchexamples.photo in
  let bytes := bytes_of_slice (Media_Bytes r) in
  context_.username (examples.as_user "alice") = Some (Owner M) /\
  imagesvc.mediaSvc after = imagesvc.mediaSvc fetchexamples.uploaded /\
  Media_Meta r = update M bytes /\
  (if 2 =? 0 then after = fetchexamples.uploaded /\ bytes = imgexamples.jpeg_magic
   else imagesvc.cacheRepo after
          !! imagesvc.cacheID (Hash (update M imgexamples.jpeg_magic)) 2 = Some bytes).
Proof.
  apply (Fetch_success (H := fetchexamples.json) fetchexamples.crop
           fetchexamples.uploaded
           (fst (imagesvc.Fetch (H := fetchexamples.json) fetchexamples.crop
                   fetchexamples.uploaded (examples.as_user "alice")
                   (Media_ID fetchexamples.photo) 2))
           (examples.as_user "alice") (Media_ID fetchexamples.photo) 2
           (match snd (imagesvc.Fetch (H := fetchexamples.json) fetchexamples.crop
                         fetchexamples.uploaded (examples.as_user "alice")
                         (Media_ID fetchexamples.photo) 2)
            with inl r => r | inr _ => fetchexamples.photo end)
           (examples.plain_Marshal (Media_Meta fetchexamples.photo))
           imgexamples.jpeg_magic (Media_Meta fetchexamples.photo)).
  - vm_compute. reflexivity.
  - vm_compute. reflexivity.
  - vm_compute. reflexivity.
  - vm_compute. reflexivity.
Defined.

(** Bob asks for Alice's photo. *)
Lemma Fetch_not_owner_witness :
  exists err,
    imagesvc.Fetch (H := fetchexamples.json) fetchexamples.crop fetchexamples.uploaded
        (examples.as_user "bob") (Media_ID fetchexamples.photo) 2
      = (fetchexamples.uploaded, inr err) /\
    errors.Is err ErrUnauthorized.
Proof.
  apply (Fetch_not_owner (H := fetchexamples.json) fetchexamples.crop
           fetchexamples.uploaded (examples.as_user "bob")
           (Media_ID fetchexamples.photo) 2
           (examples.plain_Marshal (Media_Meta fetchexamples.photo))
           (Media_Meta fetchexamples.photo)).
  - vm_compute. reflexivity.
  - vm_compute. reflexivity.
  - vm_compute. discriminate.
Defined.

(** ** The resize step: whole factors are exact *)

Section WholeFactor.
Import float64 imagesvc.

(** A quotient below [2^53] has an exponent of at most 52. *)
Lemma ilog2_ratio_small p q :
  0 < p -> 0 < q -> p < 2 ^ 53 * q -> ilog2_ratio p q <= 52.
Proof.
  intros Hp Hq Hlt. unfold ilog2_ratio.
  set (k0 := Z.log2 p - Z.log2 q).
  destruct (Z.log2_spec p Hp) as [Hp1 _].
  destruct (Z.log2_spec q Hq) as [_ Hq2].
  pose proof (Z.log2_nonneg p) as Hlp. pose proof (Z.log2_nonneg q) as Hlq.
  assert (Hk0 : k0 <= 53).
  { destruct (Z.le_gt_cases k0 53) as [|Hgt]; [assumption|exfalso].
    assert (Hpow : 2 ^ (Z.log2 q + 54) <= 2 ^ Z.log2 p)
      by (apply Z.pow_le_mono_r; subst k0; lia).
    rewrite Z.pow_add_r in Hpow by lia.
    rewrite Z.pow_succ_r in Hq2 by lia.
    change (2 ^ 54) with (2 * 2 ^ 53) in Hpow. nia. }
  cbv zeta.
  destruct (Z.leb_spec (q * 2 ^ Z.max 0 k0) (p * 2 ^ Z.max 0 (- k0))) as [Hle|_]; [|lia].
  destruct (Z.eq_dec k0 53) as [Heq|]; [|lia].
  rewrite Heq in Hle. change (Z.max 0 53) with 53 in Hle.
  change (Z.max 0 (- 53)) with 0 in Hle. rewrite Z.pow_0_r in Hle. lia.
Qed.

(** A quotient that is a whole number below [2^53] is not rounded. *)
Lemma round_exact c q :
  0 < c < 2 ^ 53 -> 0 < q ->
  exists e, e <= 0 /\ round (c * q) q = F (c * 2 ^ (- e)) e.
Proof.
  intros Hc Hq.
  assert (Hp : 0 < c * q) by nia.
  exists (ilog2_ratio (c * q) q - 52).
  assert (He : ilog2_ratio (c * q) q - 52 <= 0).
  { pose proof (ilog2_ratio_small (c * q) q Hp Hq ltac:(nia)). lia. }
  split; [exact He|].
  unfold round. destruct (Z.leb_spec (c * q) 0) as [|_]; [lia|].
  set (e := ilog2_ratio (c * q) q - 52) in *.
  rewrite (Z.max_r 0 (- e)), (Z.max_l 0 e) by lia.
  rewrite Z.pow_0_r, Z.mul_1_r.
  assert (Hpow : 0 < 2 ^ (- e)) by (apply Z.pow_pos_nonneg; lia).
  replace (c * q * 2 ^ (- e)) with (c * 2 ^ (- e) * q) by lia.
  rewrite Z.div_mul, Z.mod_mul by lia.
  destruct (Z.ltb_spec (2 * 0) q) as [_|]; [reflexivity|lia].
Qed.

Lemma of_int_exact n :
  0 < n < 2 ^ 53 -> exists e, e <= 0 /\ of_int n = F (n * 2 ^ (- e)) e.
Proof.
  intros Hn. unfold of_int.
  destruct (round_exact n 1 Hn ltac:(lia)) as (e & He & Hr).
  rewrite Z.mul_1_r in Hr. eauto.
Qed.

Lemma to_int_exact n e : e <= 0 -> to_int (F (n * 2 ^ (- e)) e) = n.
Proof.
  intros He. unfold to_int; cbn [man exp].
  destruct (Z.leb_spec 0 e) as [H0|_].
  - assert (e = 0) as -> by lia. cbn. lia.
  - apply Z.div_mul. apply Z.pow_nonzero; lia.
Qed.

(** X28: when the target width is a whole multiple of the width of the
    image, the roundings of the resize step lose nothing: the height is the
    same multiple of the height of the image, as long as the numbers stay
    below [2^53].  A resize to the width of the image itself keeps its
    height. *)
Theorem resize_by_whole_factor (original : image.Rectangle) (factor : Z) :
  0 < image.Dx original ->
  0 <= image.Dy original ->
  0 < factor ->
  factor * image.Dx original < 2 ^ 53 ->
  factor * image.Dy original < 2 ^ 53 ->
  let width := factor * image.Dx original in
  resizeHeight original width = factor * image.Dy original /\
  image.Dx (resizeBounds original width) = width /\
  image.Dy (resizeBounds original width) = factor * image.Dy original.
Proof.
  intros HW HH Hf HwS HhS width.
  set (W := image.Dx original) in *. set (Hh := image.Dy original) in *.
  assert (Hheight : resizeHeight original width = factor * Hh).
  { unfold resizeHeight. fold W. fold Hh.
    destruct (of_int_exact width ltac:(subst width; nia)) as (ea & Hea & ->).
    destruct (of_int_exact W ltac:(nia)) as (eb & Heb & ->).
    (* the ratio *)
    assert (Hratio : exists er, er <= 0 /\
              div (F (width * 2 ^ (- ea)) ea) (F (W * 2 ^ (- eb)) eb)
                = F (factor * 2 ^ (- er)) er).
    { unfold div; cbn [man exp].
      set (d := ea - eb).
      assert (Hq : 0 < W * 2 ^ (- eb) * 2 ^ Z.max 0 (- d)).
      { assert (0 < 2 ^ (- eb)) by (apply Z.pow_pos_nonneg; lia).
        assert (0 < 2 ^ Z.max 0 (- d)) by (apply Z.pow_pos_nonneg; lia). nia. }
      replace (width * 2 ^ (- ea) * 2 ^ Z.max 0 d)
        with (factor * (W * 2 ^ (- eb) * 2 ^ Z.max 0 (- d))).
      - apply round_exact; [nia|exact Hq].
      - subst width.
        rewrite <- !Z.mul_assoc, <- !Z.pow_add_r by lia.
        replace (- ea + Z.max 0 d) with (- eb + Z.max 0 (- d)) by lia.
        reflexivity. }
    destruct Hratio as (er & Her & ->).
    destruct (Z.eq_dec Hh 0) as [Hz|Hnz].
    - rewrite Hz. change (of_int 0) with (F 0 0).
      unfold mul; cbn [man exp]. rewrite !Z.mul_0_l.
      unfold round. change (0 <=? 0) with true. cbv iota.
      unfold to_int; cbn [man exp]. change (0 <=? 0) with true. cbv iota. lia.
    - destruct (of_int_exact Hh ltac:(nia)) as (ec & Hec & ->).
      unfold mul; cbn [man exp].
      set (e := ec + er).
      rewrite (Z.max_l 0 e), (Z.max_r 0 (- e)) by lia.
      rewrite Z.pow_0_r, Z.mul_1_r.
      replace (Hh * 2 ^ (- ec) * (factor * 2 ^ (- er)))
        with (factor * Hh * 2 ^ (- e)).
      + assert (Hpow : 0 < 2 ^ (- e)) by (apply Z.pow_pos_nonneg; lia).
        destruct (round_exact (factor * Hh) (2 ^ (- e)) ltac:(nia) Hpow)
          as (eP & HeP & ->).
        now apply to_int_exact.
      + subst e. replace (- (ec + er)) with (- ec + - er) by lia.
        rewrite Z.pow_add_r by lia. lia. }
  split; [exact Hheight|].
  unfold resizeBounds. rewrite Hheight.
  unfold image.Rect, image.Dx, image.Dy.
  destruct (Z.ltb_spec width 0) as [Hneg|_]; [subst width; nia|].
  destruct (Z.ltb_spec (factor * Hh) 0) as [Hneg|_]; [nia|].
  cbn. lia.
Qed.

End WholeFactor.

(** A picture of 800 by 600 at twice its width. *)
Lemma resize_by_whole_factor_witness :
  imagesvc.resizeHeight (image.Rect 0 0 800 600) (2 * image.Dx (image.Rect 0 0 800 600))
    = 2 * image.Dy (image.Rect 0 0 800 600) /\
  image.Dx (imagesvc.resizeBounds (image.Rect 0 0 800 600)
              (2 * image.Dx (image.Rect 0 0 800 600)))
    = 2 * image.Dx (image.Rect 0 0 800 600) /\
  image.Dy (imagesvc.resizeBounds (image.Rect 0 0 800 600)
              (2 * image.Dx (image.Rect 0 0 800 600)))
    = 2 * image.Dy (image.Rect 0 0 800 600).
Proof.
  apply (resize_by_whole_factor (image.Rect 0 0 800 600) 2); vm_compute; congruence.
Defined.
